(** * Whole-program analysis driver of phc (src/optimize/wpa/Whole_program.cpp)

    A shallow embedding of the fixpoint engine: the outer convergence loop,
    the per-function edge worklist, the forward/backward binder and the
    symbolic location resolver, together with the properties established
    about them.

    The concrete analyses (Aliasing, CCP, Type_inference, ...), the Oracle,
    the pass manager and the MIR/CFG classes live in other translation
    units; they appear here as the fields of two interfaces, [Analysis]
    and [Platform].  Every call the driver makes on an analysis object is
    applied to that object's state and also appended to a ghost [trace], so
    that "which primitive is invoked, in which order, at which block" can be
    stated.  The worklist of a function and the nesting of method
    invocations are bounded by a [fuel]; the debugging output ([DEBUG],
    [dump], [dump_graphviz]) is left out. *)

From Stdlib Require Import Sorted.
From Stdlib Require OrderedTypeEx.
From stdpp Require Import gmap strings list pretty.

Open Scope string_scope.
Open Scope list_scope.

(** ** Failures and the effect monad *)

(** The ways a run is cut short: [phc_TODO ()], a failed [assert], a
    [phc_unreachable ()], a failed checked down-cast [dyc<T>], a dereference
    of NULL (or [front ()] of an empty list), and the exhaustion of the fuel
    that bounds the model's loops and recursion. *)
Inductive Failure : Type :=
  | TODO
  | assertion_failure
  | unreachable
  | failed_cast
  | null_dereference
  | out_of_fuel.

Inductive Outcome (S A : Type) : Type :=
  | Done (a : A) (s : S)
  | Abort (f : Failure) (s : S).

Arguments Done {S A} a s.
Arguments Abort {S A} f s.

Definition Eff (S A : Type) : Type := S -> Outcome S A.

Definition ret {S A : Type} (a : A) : Eff S A := fun s => Done a s.

Definition bind {S A B : Type} (m : Eff S A) (k : A -> Eff S B) : Eff S B :=
  fun s => match m s with
           | Done a s' => k a s'
           | Abort f s' => Abort f s'
           end.

Definition fail {S A : Type} (f : Failure) : Eff S A := fun s => Abort f s.

Definition get {S : Type} : Eff S S := fun s => Done s s.

Definition modify {S : Type} (g : S -> S) : Eff S unit := fun s => Done tt (g s).

Declare Scope eff_scope.
Delimit Scope eff_scope with eff.
Notation "'do' x <- m ; k" := (bind m (fun x => k))
  (at level 10, x name, m at level 100, k at level 200) : eff_scope.
Notation "'do' ' p <- m ; k" := (bind m (fun x => match x with p => k end))
  (at level 10, p pattern, m at level 100, k at level 200) : eff_scope.
Notation "m >> k" := (bind m (fun _ => k))
  (at level 190, right associativity) : eff_scope.
Open Scope eff_scope.

(** [phc_TODO ()] and [assert (c)]. *)
Definition phc_TODO {S A : Type} : Eff S A := fail TODO.

Definition assert {S : Type} (c : bool) : Eff S unit :=
  if c then ret tt else fail assertion_failure.

(** [foreach (x, l) body]. *)
Fixpoint foreach {S A : Type} (l : list A) (body : A -> Eff S unit) : Eff S unit :=
  match l with
  | [] => ret tt
  | x :: l' => body x >> foreach l' body
  end.

(** A loop that accumulates a value over a list. *)
Fixpoint fold_eff {S A B : Type} (body : B -> A -> Eff S B) (l : list A) (acc : B)
  : Eff S B :=
  match l with
  | [] => ret acc
  | x :: l' => do acc' <- body acc x; fold_eff body l' acc'
  end.

Definition is_done {S A : Type} (o : Outcome S A) : bool :=
  match o with Done _ _ => true | Abort _ _ => false end.

Definition final_state {S A : Type} (o : Outcome S A) : S :=
  match o with Done _ s => s | Abort _ s => s end.

Definition failure_of {S A : Type} (o : Outcome S A) : option Failure :=
  match o with Done _ _ => None | Abort f _ => Some f end.

Definition value_of {S A : Type} (o : Outcome S A) : option A :=
  match o with Done a _ => Some a | Abort _ _ => None end.

(** ** Data model

    The classes of this section are declared in headers that are not among
    the sources; they are given the shape that [Whole_program.cpp] uses them
    with. *)

(** MIR literals.  A REAL keeps the text of its value. *)
Inductive Literal : Type :=
  | BOOL (value : bool)
  | INT (value : Z)
  | NIL
  | REAL (value : string)
  | STRING (value : string).

Inductive certainty : Type := POSSIBLE | DEFINITE.

(** Modelled from the spec: an alias name is the pair (scope identifier,
    local name), the key of every analysis's per-block state. *)
Record Alias_name : Type := mk_Alias_name { prefix : string; name : string }.

(** Modelled from the spec: an index node is the pair (storage-region name,
    field-or-element name); the field may be the wildcard. *)
Record Index_node : Type := mk_Index_node { storage : string; index : string }.

(** [Index_node::name ()]. *)
Definition Index_node_name (n : Index_node) : Alias_name :=
  mk_Alias_name (storage n) (index n).

(** [Alias_name::ind ()]. *)
Definition ind (a : Alias_name) : Index_node := mk_Index_node (prefix a) (name a).

(** Modelled from the spec: a storage node is a named region of memory; the
    field [storage] of the class is its name. *)
Record Storage_node : Type := mk_Storage_node { st_storage : string }.

(** A set of type names. *)
Definition Types : Type := list string.

(** Modelled from the spec: a lattice cell is TOP (not yet computed), BOTTOM
    (unknown) or a proper cell, of one of the two subclasses that
    [Whole_program.cpp] casts to: [Literal_cell] (CCP) and [Type_cell]
    (Type_inference). *)
Inductive Lattice_cell : Type :=
  | TOP
  | BOTTOM
  | Literal_cell (value : Literal)
  | Type_cell (types : Types).

(** Modelled from the spec: an abstract value pairs a constant-propagation
    cell with a type cell. *)
Record Abstract_value : Type := mk_Abstract_value { lit : Lattice_cell; type : Lattice_cell }.

(** Access paths: [ST_path] names a storage node, [Index_path] names a field,
    [Indexing] indexes what [lhs] denotes by what [rhs] denotes. *)
Inductive Path : Type :=
  | ST_path (name : string)
  | Index_path (name : string)
  | Indexing (lhs rhs : Path).

(** MIR rvalues, actual parameters and method invocations. *)
Inductive Rvalue : Type :=
  | Rvalue_Literal (l : Literal)
  | Rvalue_VARIABLE_NAME (v : string).

Record Actual_parameter : Type := mk_Actual_parameter { is_ref : bool; rvalue : Rvalue }.

Inductive Method_name : Type :=
  | METHOD_NAME (value : string)
  | Variable_method.

Record Method_invocation : Type := mk_Method_invocation {
  target : option string;
  method_name : Method_name;
  actual_parameters : list Actual_parameter }.

(** MIR expressions, one constructor per [classid] of [visit_assign_var]'s
    switch; only the fields read by [Whole_program] are kept. *)
Inductive Expr : Type :=
  | Array_access
  | Bin_op (left : Rvalue) (op : string) (right : Rvalue)
  | Cast (cast : string) (variable_name : string)
  | Constant
  | Field_access
  | Foreach_get_key
  | Foreach_get_val
  | Foreach_has_key
  | Instanceof
  | Isset
  | Expr_Method_invocation (mi : Method_invocation)
  | New
  | Param_is_ref
  | Unary_op
  | VARIABLE_NAME (value : string)
  | Variable_variable
  | Expr_Literal (l : Literal).

(** MIR statements.  [Assign_array] and [Unset] carry the paths that
    [P (ST (bb), in)] and [P (ST (bb), in->rhs)] build for them. *)
Inductive Statement : Type :=
  | Assign_array (lhs rhs : Path) (is_ref : bool)
  | Assign_field
  | Assign_next
  | Assign_var (lhs : string) (rhs : Expr)
  | Assign_var_var
  | Eval_expr (expr : Expr)
  | Foreach_end (array iter : string)
  | Foreach_next
  | Foreach_reset (array iter : string)
  | Global (variable_name : string)
  | Pre_op (op : string) (variable_name : string)
  | Return
  | Static_declaration
  | Throw
  | Try
  | Unset (path : Path).

(** Modelled from the spec: a program point is an Entry, an Exit, a Statement
    (one instruction) or a Branch (one condition, two successor edges). *)
Inductive Block_kind : Type :=
  | Entry_block
  | Exit_block
  | Statement_block (statement : Statement)
  | Branch_block (variable_name : string).

(** A basic block: its [ID], the method whose graph owns it (the [cfg]
    back-pointer) and its kind. *)
Record Basic_block : Type := mk_Basic_block { ID : nat; cfg : string; kind : Block_kind }.

(** Modelled from the spec: an edge is a directed link between two program
    points, here the blocks with IDs [source] and [edge_target], carrying the
    boolean flag [is_executable]; [direction] tells the true and the false
    successor edge of a branch apart. *)
Record Edge : Type := mk_Edge {
  source : nat;
  edge_target : nat;
  direction : option bool;
  is_executable : bool }.

(** The graph of a method: [get_all_bbs ()] and [get_all_edges ()]. *)
Record CFG : Type := mk_CFG { all_bbs : list Basic_block; all_edges : list Edge }.

(** An [Edge*]: the owning graph and the position in its edge list. *)
Definition Edge_ref : Type := (string * nat)%type.

(** ** The analysis protocol *)

(** One invocation of a mutating method of the [WPA] interface, with its
    arguments. *)
Inductive Call : Type :=
  | forward_bind_call (caller : option Basic_block) (entry : Basic_block)
  | backward_bind_call (caller : option Basic_block) (exit : Basic_block)
  | pull_init_call (bb : Basic_block)
  | pull_first_pred_call (bb pred : Basic_block)
  | pull_pred_call (bb pred : Basic_block)
  | pull_finish_call (bb : Basic_block)
  | aggregate_results_call (bb : Basic_block)
  | kill_value_call (bb : Basic_block) (lhs : Alias_name)
  | kill_reference_call (bb : Basic_block) (lhs : Alias_name)
  | create_reference_call (bb : Basic_block) (lhs rhs : Alias_name) (cert : certainty)
  | assign_scalar_call (bb : Basic_block) (lhs lhs_storage : Alias_name)
      (val : Abstract_value) (cert : certainty)
  | assign_storage_call (bb : Basic_block) (lhs storage : Alias_name) (cert : certainty)
  | assign_empty_array_call (bb : Basic_block) (lhs : Alias_name) (unique_name : string)
      (cert : certainty)
  | record_use_call (bb : Basic_block) (use : Alias_name) (cert : certainty).

(** The block a call is evaluated at (its first [Basic_block*] argument; the
    bind hooks are given the callee's entry or exit block second). *)
Definition call_block (c : Call) : Basic_block :=
  match c with
  | forward_bind_call _ entry => entry
  | backward_bind_call _ exit => exit
  | pull_init_call bb | pull_first_pred_call bb _ | pull_pred_call bb _
  | pull_finish_call bb | aggregate_results_call bb
  | kill_value_call bb _ | kill_reference_call bb _ | create_reference_call bb _ _ _
  | assign_scalar_call bb _ _ _ _ | assign_storage_call bb _ _ _
  | assign_empty_array_call bb _ _ _ | record_use_call bb _ _ => bb
  end.

Definition is_kill_value (c : Call) : bool :=
  match c with kill_value_call _ _ => true | _ => false end.

Definition is_backward_bind (c : Call) : bool :=
  match c with backward_bind_call _ _ => true | _ => false end.

Definition is_assign_scalar (c : Call) : bool :=
  match c with assign_scalar_call _ _ _ _ _ => true | _ => false end.

(** What the driver needs of the analysis objects.  [WPA] is the state of one
    analysis object; [apply] is the virtual dispatch of a mutating method on
    it.  The remaining fields are the constructors that [initialize] calls
    and the queries the driver makes on the aliasing, call-graph, CCP and
    type-inference objects. *)
Class Analysis (WPA : Type) : Type := {
  apply : Call -> WPA -> WPA;
  equals : WPA -> WPA -> bool;
  solution_changed : WPA -> Basic_block -> bool;
  new_Debug_WPA : WPA;
  new_Aliasing : WPA;
  new_Callgraph : WPA;
  new_CCP : WPA;
  new_Def_use : WPA;
  new_Type_inference : WPA;
  get_references : WPA -> Basic_block -> Index_node -> certainty -> list Index_node;
  get_values : WPA -> Basic_block -> Index_node -> list Storage_node;
  bottom_up : WPA -> list string;
  ccp_get_value : WPA -> Basic_block -> Alias_name -> Lattice_cell;
  get_lit : WPA -> Basic_block -> Alias_name -> option Literal;
  branch_known_true : WPA -> Basic_block -> Alias_name -> bool;
  branch_known_false : WPA -> Basic_block -> Alias_name -> bool;
  get_types : WPA -> Basic_block -> Alias_name -> Types;
  type_inf_get_value : WPA -> Basic_block -> Alias_name -> Lattice_cell;
  get_bin_op_types : WPA -> Basic_block -> Abstract_value -> Abstract_value -> string -> Types
}.

(** Signature data of a method, as [Method_info] exposes it. *)
Record Signature : Type := mk_Signature {
  sig_name : string;
  return_by_ref : bool;
  param_by_ref : nat -> bool;
  param_name : nat -> string;
  default_param : nat -> bool }.

(** Modelled from the spec: a method info is either a User method, which has
    an implementation ([method], as the graph that [new CFG (info->method)]
    builds from it), or a Summary method, a built-in with a synthetic graph
    of three blocks ([get_cfg ()]) whose middle block is [get_fake_bb ()]. *)
Inductive Method_info : Type :=
  | User_method_info (sig : Signature) (method : CFG)
  | Summary_method_info (sig : Signature) (summary_cfg : CFG) (fake_bb : Basic_block).

Definition signature (info : Method_info) : Signature :=
  match info with
  | User_method_info sig _ => sig
  | Summary_method_info sig _ _ => sig
  end.

Definition has_implementation (info : Method_info) : bool :=
  match info with
  | User_method_info _ _ => true
  | Summary_method_info _ _ _ => false
  end.

(** What the driver needs of the rest of the compiler: the Oracle, PHP's
    constant folding, the pass manager with the transformer and the
    annotator, the type partition of [Type_inference], the factories of
    [Abstract_value] and the outcome of [isa<Literal_cell>] on one, and the
    macros and constants of the headers ([ST], [ABSVAL], [BB_array_name],
    [BB_object_name], [MSN], [UNKNOWN], [RETNAME]). *)
Class Platform (WPA : Type) : Type := {
  get_method_info : string -> option Method_info;
  get_superglobals : list string;
  MSN : string;
  UNKNOWN : string;
  RETNAME : string;
  ST : Basic_block -> string;
  ABSVAL : Alias_name -> Alias_name;
  BB_array_name : Basic_block -> Alias_name;
  BB_object_name : Basic_block -> Alias_name;
  Storage_node_name : Storage_node -> Alias_name;
  get_value_as_string : Literal -> string;
  from_literal : Literal -> Abstract_value;
  from_types : Types -> Abstract_value;
  unknown : Abstract_value;
  get_scalar_types : Types -> Types;
  get_array_types : Types -> Types;
  get_object_types : Types -> Types;
  fold_pre_op : Literal -> string -> Literal;
  fold_bin_op : Literal -> string -> Literal -> Literal;
  cast_to : string -> Literal -> option Literal;
  as_Literal_cell : Abstract_value -> option Literal;
  transformer_visit_block : list WPA -> Basic_block -> Basic_block;
  annotator_visit_block : list WPA -> Basic_block -> Basic_block;
  get_linear_statements : CFG -> list Statement;
  run_local_optimization_passes : list WPA -> CFG -> CFG;
  run_ipa_passes : list WPA -> CFG -> CFG;
  cfg_equals : CFG -> CFG -> bool
}.

(** ** Sets as the driver uses them *)

(** [Set<string>::insert]: the elements are kept in increasing order and
    without duplicates, which is the order [foreach] enumerates them in. *)
Fixpoint set_insert (x : string) (l : list string) : list string :=
  match l with
  | [] => [x]
  | y :: l' =>
      match String.compare x y with
      | Lt => x :: y :: l'
      | Eq => y :: l'
      | Gt => y :: set_insert x l'
      end
  end.

Definition Alias_name_compare (a b : Alias_name) : comparison :=
  match String.compare (prefix a) (prefix b) with
  | Eq => String.compare (name a) (name b)
  | c => c
  end.

(** [Set<Alias_name>::insert], ordered by prefix and then by name. *)
Fixpoint names_insert (x : Alias_name) (l : list Alias_name) : list Alias_name :=
  match l with
  | [] => [x]
  | y :: l' =>
      match Alias_name_compare x y with
      | Lt => x :: y :: l'
      | Eq => y :: l'
      | Gt => y :: names_insert x l'
      end
  end.

Definition nonempty {A : Type} (l : list A) : bool :=
  match l with [] => false | _ :: _ => true end.

(** Modelled from the spec: [P (st, name)] is defined in the path module,
    which is not among the sources; it builds the access path whose base is
    the statically named storage region [st] and whose field is the static
    name [name]. *)
Definition P (st name : string) : Path := Indexing (ST_path st) (Index_path name).

(** [VN (ns, var)]: the index node of variable [var] in scope [ns]. *)
Definition VN (ns var : string) : Index_node := mk_Index_node ns var.

Section Whole_program.

Context {WPA : Type} `{!Analysis WPA} `{!Platform WPA}.

(** ** The analysis registry *)

(** [analyses] is the list the driver iterates with [foreach_wpa]; the
    members [aliasing], [callgraph], [ccp], [def_use] and [type_inf] point
    into it, at the positions [initialize] registers them.  [trace] records
    every invocation, with the position of the receiving analysis. *)
Record Registry : Type := mk_Registry {
  analyses : list WPA;
  trace : list (nat * Call) }.

Definition aliasing : nat := 1.
Definition callgraph : nat := 2.
Definition ccp : nat := 3.
Definition def_use : nat := 4.
Definition type_inf : nat := 5.

(** Dereference of one of the analysis pointers. *)
Definition the (i : nat) : Eff Registry WPA :=
  fun s => match analyses s !! i with
           | Some a => Done a s
           | None => Abort null_dereference s
           end.

(** [wpa->m (args)] on the [i]-th analysis. *)
Definition invoke (i : nat) (c : Call) : Eff Registry unit :=
  modify (fun s => mk_Registry (alter (apply c) i (analyses s)) (trace s ++ [(i, c)])).

(** [foreach_wpa (this) body]. *)
Definition foreach_wpa (body : nat -> Eff Registry unit) : Eff Registry unit :=
  do s <- get; foreach (seq 0 (length (analyses s))) body.

(** [foreach_wpa (this) wpa->m (args);] *)
Definition broadcast (c : Call) : Eff Registry unit :=
  foreach_wpa (fun i => invoke i c).

(** ** Symbolic location resolver and mutation primitives *)

Definition is_must (indices : list Index_node) : Eff Registry bool :=
  assert (nonempty indices) >> ret (Nat.eqb (length indices) 1).

Definition record_use (bb : Basic_block) (index_node : Index_node) : Eff Registry unit :=
  broadcast (record_use_call bb (Index_node_name index_node) POSSIBLE).

Definition get_string_values (bb : Basic_block) (index : Index_node)
  : Eff Registry (list string) :=
  do c <- the ccp;
  match ccp_get_value c bb (Index_node_name index) with
  | TOP => ret [""]
  | BOTTOM => ret [UNKNOWN]
  | Literal_cell value => ret [get_value_as_string value]
  | Type_cell _ => fail failed_cast
  end.

Definition get_abstract_value (bb : Basic_block) (name : Alias_name)
  : Eff Registry Abstract_value :=
  do c <- the ccp;
  do t <- the type_inf;
  ret (mk_Abstract_value (ccp_get_value c bb name) (type_inf_get_value t bb name)).

(** The body of [kill_value], given the resolution of its path. *)
Definition kill_value_of (bb : Basic_block) (resolve : Eff Registry (list Index_node))
  : Eff Registry certainty :=
  do lhss <- resolve;
  do must <- is_must lhss;
  if negb must then ret POSSIBLE
  else
    match lhss with
    | [] => fail null_dereference
    | lhs :: _ =>
        do a <- the aliasing;
        foreach (get_references a bb lhs DEFINITE)
          (fun ref => broadcast (kill_value_call bb (Index_node_name ref))) >>
        broadcast (kill_value_call bb (Index_node_name lhs)) >>
        ret DEFINITE
    end.

(** The body of [get_all_referenced_names], given the resolution of its
    path. *)
Definition get_all_referenced_names_of (bb : Basic_block)
    (resolve : Eff Registry (list Index_node)) (cert : certainty)
  : Eff Registry (list Alias_name) :=
  do lhss <- resolve;
  fold_eff
    (fun names lhs =>
       do a <- the aliasing;
       let refs := get_references a bb lhs cert ++ [lhs] in
       ret (fold_left (fun ns ref => names_insert (Index_node_name ref) ns) refs names))
    lhss [].

(** The body of [assign_empty_array], given the resolution of its path. *)
Definition assign_empty_array_of (bb : Basic_block)
    (resolve : Eff Registry (list Index_node)) (unique_name : string)
  : Eff Registry unit :=
  do cert <- kill_value_of bb resolve;
  do names <- get_all_referenced_names_of bb resolve cert;
  foreach names
    (fun name => broadcast (assign_empty_array_call bb name unique_name cert)).

(** [get_named_indices (bb, path, record_uses)].  The nested calls of
    [assign_empty_array] on [p->lhs] resolve that path again, with the
    default [record_uses = false]. *)
Fixpoint get_named_indices (bb : Basic_block) (path : Path) (record_uses : bool)
  : Eff Registry (list Index_node) :=
  match path with
  | Indexing plhs prhs =>
      do lhss <-
        match plhs with
        | ST_path st => ret [st]
        | _ =>
            do st_indices <- get_named_indices bb plhs record_uses;
            fold_eff
              (fun lhss st_index =>
                 do a <- the aliasing;
                 fold_eff
                   (fun lhss pointed_to =>
                      if String.eqb (st_storage pointed_to) "SCALAR" then
                        let name := pretty (ID bb) in
                        assign_empty_array_of bb (get_named_indices bb plhs false) name >>
                        ret (set_insert name lhss)
                      else ret (set_insert (st_storage pointed_to) lhss))
                   (get_values a bb st_index) lhss)
              st_indices []
        end;
      do rhss <-
        match prhs with
        | Index_path st => ret [st]
        | _ =>
            do field_indices <- get_named_indices bb prhs record_uses;
            fold_eff
              (fun rhss field_index =>
                 record_use bb field_index >>
                 do values <- get_string_values bb field_index;
                 ret (fold_left (fun rs value => set_insert value rs) values rhss))
              field_indices []
        end;
      assert (nonempty rhss) >>
      fold_eff
        (fun result '(lhs, rhs) =>
           (if record_uses then record_use bb (mk_Index_node lhs rhs) else ret tt) >>
           ret (result ++ [mk_Index_node lhs rhs]))
        (list_prod lhss rhss) []
  | _ => fail failed_cast
  end.

Definition kill_value (bb : Basic_block) (plhs : Path) : Eff Registry certainty :=
  kill_value_of bb (get_named_indices bb plhs false).

Definition get_all_referenced_names (bb : Basic_block) (path : Path) (cert : certainty)
    (record_uses : bool) : Eff Registry (list Alias_name) :=
  get_all_referenced_names_of bb (get_named_indices bb path record_uses) cert.

Definition get_named_index (bb : Basic_block) (name : Path) (record_uses : bool)
  : Eff Registry (option Index_node) :=
  do all <- get_named_indices bb name record_uses;
  assert (nonempty all) >>
  match all with
  | [n] => ret (Some n)
  | _ => ret None
  end.

Definition assign_by_ref (bb : Basic_block) (plhs prhs : Path) : Eff Registry unit :=
  (phc_TODO : Eff Registry unit) >>
  do lhss <- get_named_indices bb plhs false;
  do rhss <- get_named_indices bb prhs true;
  do killable <- is_must lhss;
  foreach lhss
    (fun lhs =>
       (if killable
        then broadcast (kill_reference_call bb (Index_node_name lhs))
        else ret tt) >>
       foreach rhss
         (fun rhs =>
            foreach_wpa
              (fun i =>
                 do must_rhs <- (if killable then is_must rhss else ret false);
                 invoke i (create_reference_call bb (Index_node_name lhs)
                             (Index_node_name rhs)
                             (if must_rhs then DEFINITE else POSSIBLE)) >>
                 phc_TODO))).

Definition assign_scalar (bb : Basic_block) (plhs : Path) (lit : Literal)
  : Eff Registry unit :=
  do cert <- kill_value bb plhs;
  do names <- get_all_referenced_names bb plhs cert false;
  foreach names
    (fun name =>
       broadcast (assign_scalar_call bb name (ABSVAL name) (from_literal lit) POSSIBLE)).

Definition assign_typed (bb : Basic_block) (plhs : Path) (types : Types)
  : Eff Registry unit :=
  let scalars := get_scalar_types types in
  let array := get_array_types types in
  let objects := get_object_types types in
  do cert <- kill_value bb plhs;
  do names <- get_all_referenced_names bb plhs cert false;
  foreach names
    (fun name =>
       foreach_wpa
         (fun i =>
            (if nonempty scalars
             then invoke i (assign_scalar_call bb name (ABSVAL name)
                              (from_types scalars) POSSIBLE)
             else ret tt) >>
            (if nonempty array then phc_TODO else ret tt) >>
            (if nonempty objects then phc_TODO else ret tt))).

Definition assign_empty_array (bb : Basic_block) (plhs : Path) (unique_name : string)
  : Eff Registry unit :=
  assign_empty_array_of bb (get_named_indices bb plhs false) unique_name.

Definition assign_unknown (bb : Basic_block) (plhs : Path) : Eff Registry unit :=
  do cert <- kill_value bb plhs;
  do names <- get_all_referenced_names bb plhs cert false;
  foreach names
    (fun name =>
       foreach_wpa
         (fun i =>
            invoke i (assign_scalar_call bb name (ABSVAL name) unknown POSSIBLE) >>
            invoke i (assign_storage_call bb name (BB_array_name bb) POSSIBLE) >>
            invoke i (assign_storage_call bb name (BB_object_name bb) POSSIBLE))).

(** The check [assert (!scalars.empty() ^ !array.empty() ^ !objects.empty())]
    of [assign_by_copy]: [^] is exclusive or, associating to the left. *)
Definition one_category (scalars array objects : Types) : bool :=
  xorb (xorb (nonempty scalars) (nonempty array)) (nonempty objects).

(** What [assign_by_copy] does for one value [st] of the right-hand side, for
    the [i]-th analysis and the target [name]. *)
Definition copy_value (bb : Basic_block) (name : Alias_name) (i : nat) (st : Storage_node)
  : Eff Registry unit :=
  do t <- the type_inf;
  let types := get_types t bb (Storage_node_name st) in
  let scalars := get_scalar_types types in
  let array := get_array_types types in
  let objects := get_object_types types in
  assert (one_category scalars array objects) >>
  (if nonempty scalars
   then do v <- get_abstract_value bb (Storage_node_name st);
        invoke i (assign_scalar_call bb name (ABSVAL name) v POSSIBLE)
   else ret tt) >>
  (if nonempty array then phc_TODO else ret tt) >>
  (if nonempty objects then phc_TODO else ret tt).

Definition assign_by_copy (bb : Basic_block) (plhs prhs : Path) : Eff Registry unit :=
  do cert <- kill_value bb plhs;
  do rhss <- get_named_indices bb prhs true;
  do names <- get_all_referenced_names bb plhs cert false;
  foreach names
    (fun name =>
       foreach_wpa
         (fun i =>
            foreach rhss
              (fun rhs =>
                 do a <- the aliasing;
                 foreach (get_values a bb rhs) (copy_value bb name i)))).

Definition ruin_everything (bb : Basic_block) (plhs : Path) : Eff Registry unit :=
  phc_TODO.

(** ** Modelled built-in functions *)

Definition apply_modelled_function (info : Method_info) (bb : Basic_block)
  : Eff Registry unit :=
  let ret_name := P (ST bb) RETNAME in
  let name := sig_name (signature info) in
  if String.eqb name "strlen" then assign_typed bb ret_name ["int"]
  else if String.eqb name "dechex" then assign_typed bb ret_name ["string"]
  else if String.eqb name "print" then assign_scalar bb ret_name (INT 1)
  else if String.eqb name "is_array" then assign_typed bb ret_name ["bool"]
  else if String.eqb name "is_object" then assign_typed bb ret_name ["bool"]
  else if String.eqb name "trigger_error" then assign_typed bb ret_name ["bool"]
  else phc_TODO.

(** ** Interprocedural binder *)

Definition init_superglobals (entry : Basic_block) : Eff Registry unit :=
  assign_empty_array entry (P MSN "GLOBALS") MSN >>
  foreach get_superglobals
    (fun sg =>
       if String.eqb sg "GLOBALS" then ret tt
       else
         assign_empty_array entry (P MSN sg) sg >>
         assign_typed entry (P sg UNKNOWN) ["string"]) >>
  assign_unknown entry (P "_SESSION" UNKNOWN) >>
  assign_typed entry (P MSN "argc") ["int"] >>
  assign_empty_array entry (P MSN "argv") "argv" >>
  assign_typed entry (P "argv" UNKNOWN) ["string"] >>
  assign_typed entry (P "argv" "0") ["string"].

(** [ST (caller)] where [caller] may be NULL. *)
Definition ST_of (caller : option Basic_block) : Eff Registry string :=
  match caller with
  | Some bb => ret (ST bb)
  | None => fail null_dereference
  end.

(** The loop of [forward_bind] over the actual parameters, [i] counting
    them. *)
Fixpoint bind_actuals (info : Method_info) (caller : option Basic_block)
    (entry : Basic_block) (actuals : list Actual_parameter) (i : nat)
  : Eff Registry nat :=
  match actuals with
  | [] => ret i
  | ap :: actuals' =>
      (if is_ref ap || param_by_ref (signature info) i
       then
         do ns <- ST_of caller;
         match rvalue ap with
         | Rvalue_VARIABLE_NAME v =>
             assign_by_ref entry (P (ST entry) (param_name (signature info) i)) (P ns v)
         | Rvalue_Literal _ => fail failed_cast
         end
       else
         match rvalue ap with
         | Rvalue_VARIABLE_NAME v =>
             do ns <- ST_of caller;
             assign_by_copy entry (P (ST entry) (param_name (signature info) i)) (P ns v)
         | Rvalue_Literal l =>
             assign_scalar entry (P (ST entry) (param_name (signature info) i)) l
         end) >>
      bind_actuals info caller entry actuals' (S i)
  end.

Definition forward_bind (info : Method_info) (caller : option Basic_block)
    (entry : Basic_block) (actuals : list Actual_parameter) : Eff Registry unit :=
  broadcast (forward_bind_call caller entry) >>
  (match caller with
   | None => init_superglobals entry
   | Some _ => ret tt
   end) >>
  do i <- bind_actuals info caller entry actuals 0;
  (if default_param (signature info) i then phc_TODO else ret tt) >>
  broadcast (aggregate_results_call entry).

Definition backward_bind (info : Method_info) (caller : option Basic_block)
    (exit : Basic_block) (lhs : option string) : Eff Registry unit :=
  (match lhs with
   | Some lhs =>
       do ns <- ST_of caller;
       if return_by_ref (signature info)
       then assign_by_ref exit (P ns lhs) (P (ST exit) RETNAME)
       else assign_by_copy exit (P ns lhs) (P (ST exit) RETNAME)
   | None => ret tt
   end) >>
  broadcast (backward_bind_call caller exit).

(** ** The driver's state *)

(** Besides the registry: the analyses of the previous whole-program pass,
    the graph of every method analysed so far ([info->cfg], NULL when
    absent), whose edges carry the [is_executable] flags, the methods marked
    [side_effecting], and the statements written back by [run]. *)
Record World : Type := mk_World {
  registry : Registry;
  old_analyses : list WPA;
  cfgs : gmap string CFG;
  side_effecting : list string;
  statements : gmap string (list Statement) }.

Definition set_registry (r : Registry) (w : World) : World :=
  mk_World r (old_analyses w) (cfgs w) (side_effecting w) (statements w).

Definition set_cfgs (g : gmap string CFG) (w : World) : World :=
  mk_World (registry w) (old_analyses w) g (side_effecting w) (statements w).

(** Run an action of the analysis layer inside the driver. *)
Definition lift {A : Type} (m : Eff Registry A) : Eff World A :=
  fun w => match m (registry w) with
           | Done a r => Done a (set_registry r w)
           | Abort f r => Abort f (set_registry r w)
           end.

Definition from_option {S A : Type} (o : option A) : Eff S A :=
  match o with
  | Some a => ret a
  | None => fail null_dereference
  end.

(** *** Graph accessors

    Modelled from the spec: the accessors of [CFG], [Basic_block] and [Edge],
    on the representation above.  A graph has an Entry and an Exit block; the
    successor and predecessor edges of a block are the edges that leave and
    reach it, in the order of the edge list. *)

Definition is_entry (bb : Basic_block) : bool :=
  match kind bb with Entry_block => true | _ => false end.

Definition is_exit (bb : Basic_block) : bool :=
  match kind bb with Exit_block => true | _ => false end.

Definition get_entry_bb (g : CFG) : option Basic_block := find is_entry (all_bbs g).

Definition get_exit_bb (g : CFG) : option Basic_block := find is_exit (all_bbs g).

Definition get_bb (g : CFG) (id : nat) : option Basic_block :=
  find (fun bb => Nat.eqb (ID bb) id) (all_bbs g).

(** The positions, in the edge list, of the edges that satisfy [p]. *)
Fixpoint edge_positions (p : Edge -> bool) (es : list Edge) (i : nat) : list nat :=
  match es with
  | [] => []
  | e :: es' => if p e then i :: edge_positions p es' (S i) else edge_positions p es' (S i)
  end.

Definition get_successor_edges (g : CFG) (bb : Basic_block) : list Edge_ref :=
  map (fun i => (cfg bb, i))
      (edge_positions (fun e => Nat.eqb (source e) (ID bb)) (all_edges g) 0).

Definition get_predecessor_edges (g : CFG) (bb : Basic_block) : list Edge :=
  filter (fun e => Nat.eqb (edge_target e) (ID bb) = true) (all_edges g).

Definition get_entry_edge (g : CFG) : option Edge_ref :=
  match get_entry_bb g with
  | Some entry => head (get_successor_edges g entry)
  | None => None
  end.

Definition get_branch_edge (g : CFG) (bb : Basic_block) (d : bool) : option Edge_ref :=
  head (map (fun i => (cfg bb, i))
          (edge_positions
             (fun e => Nat.eqb (source e) (ID bb) &&
                       match direction e with Some d' => Bool.eqb d d' | None => false end)
             (all_edges g) 0)).

Definition get_true_successor_edge (g : CFG) (bb : Basic_block) : option Edge_ref :=
  get_branch_edge g bb true.

Definition get_false_successor_edge (g : CFG) (bb : Basic_block) : option Edge_ref :=
  get_branch_edge g bb false.

(** [info->cfg] and the edge behind an [Edge*]. *)
Definition cfg_of (name : string) : Eff World CFG :=
  fun w => match cfgs w !! name with
           | Some g => Done g w
           | None => Abort null_dereference w
           end.

Definition lookup_edge (w : World) (e : Edge_ref) : option Edge :=
  match cfgs w !! e.1 with
  | Some g => all_edges g !! e.2
  | None => None
  end.

(** [e->is_executable], false for an edge that does not exist. *)
Definition executable (w : World) (e : Edge_ref) : bool :=
  match lookup_edge w e with
  | Some ed => is_executable ed
  | None => false
  end.

Definition set_is_executable (b : bool) (e : Edge) : Edge :=
  mk_Edge (source e) (edge_target e) (direction e) b.

(** [e->is_executable = b]. *)
Definition mark (e : Edge_ref) (b : bool) : Eff World unit :=
  modify (fun w =>
            set_cfgs
              (alter (fun g => mk_CFG (all_bbs g) (alter (set_is_executable b) e.2 (all_edges g)))
                     e.1 (cfgs w))
              w).

(** [foreach (Edge* e, *cfg->get_all_edges ()) e->is_executable = false;] *)
Definition reset_edges (name : string) : Eff World unit :=
  modify (fun w =>
            set_cfgs
              (alter (fun g => mk_CFG (all_bbs g) (map (set_is_executable false) (all_edges g)))
                     name (cfgs w))
              w).

Definition get_target (e : Edge_ref) : Eff World Basic_block :=
  fun w => match cfgs w !! e.1 with
           | Some g =>
               match all_edges g !! e.2 with
               | Some ed => from_option (get_bb g (edge_target ed)) w
               | None => Abort null_dereference w
               end
           | None => Abort null_dereference w
           end.

(** ** Intraprocedural worklist engine *)

(** The loop of [pull_results] over the predecessor edges, for the [i]-th
    analysis; [g] is the graph of [bb]. *)
Fixpoint pull_preds (g : CFG) (i : nat) (bb : Basic_block) (preds : list Edge) (first : bool)
  : Eff Registry unit :=
  match preds with
  | [] => ret tt
  | pred :: preds' =>
      if negb (is_executable pred) then pull_preds g i bb preds' first
      else
        do src <- from_option (get_bb g (source pred));
        (if first
         then invoke i (pull_first_pred_call bb src)
         else invoke i (pull_pred_call bb src)) >>
        pull_preds g i bb preds' false
  end.

(** [pull_results] on the predecessor edges [preds] of [bb]. *)
Definition pull_from (g : CFG) (bb : Basic_block) (preds : list Edge) : Eff Registry unit :=
  foreach_wpa
    (fun i =>
       invoke i (pull_init_call bb) >>
       pull_preds g i bb preds true >>
       invoke i (pull_finish_call bb)).

Definition pull_results (bb : Basic_block) : Eff World unit :=
  do g <- cfg_of (cfg bb);
  lift (pull_from g bb (get_predecessor_edges g bb)).

Definition get_branch_successors (bb : Basic_block) (variable_name : string)
  : Eff World (list Edge_ref) :=
  let cond := Index_node_name (VN (ST bb) variable_name) in
  do g <- cfg_of (cfg bb);
  do c <- lift (the ccp);
  do on_false <-
    (if negb (branch_known_true c bb cond)
     then do e <- from_option (get_false_successor_edge g bb); ret [e]
     else ret []);
  do on_true <-
    (if negb (branch_known_false c bb cond)
     then do e <- from_option (get_true_successor_edge g bb); ret [e]
     else ret []);
  ret (on_false ++ on_true).

(** [analyse_block], over the block visitor. *)
Definition analyse_block (visit_block : Basic_block -> Eff World unit) (bb : Basic_block)
  : Eff World bool :=
  pull_results bb >>
  visit_block bb >>
  lift (broadcast (aggregate_results_call bb)) >>
  lift (do s <- get; ret (existsb (fun wpa => solution_changed wpa bb) (analyses s))).

(** The edges pushed after the target [bb] of a popped edge has changed. *)
Definition successors_to_push (bb : Basic_block) : Eff World (list Edge_ref) :=
  match kind bb with
  | Branch_block variable_name => get_branch_successors bb variable_name
  | Exit_block => ret []
  | _ =>
      do g <- cfg_of (cfg bb);
      do e <- from_option (head (get_successor_edges g bb));
      ret [e]
  end.

(** One iteration of the [while] loop of [analyse_function]: [e] is the front
    of the worklist and [cfg_wl] what is left after [pop_front]; the result
    is the pair of [changed] and the worklist at the end of the iteration. *)
Definition worklist_step (visit_block : Basic_block -> Eff World unit)
    (e : Edge_ref) (cfg_wl : list Edge_ref) : Eff World (bool * list Edge_ref) :=
  do w <- get;
  let first_pass := negb (executable w e) in
  mark e true >>
  do tgt <- get_target e;
  do block_changed <- analyse_block visit_block tgt;
  let changed := first_pass || block_changed in
  if changed
  then do pushed <- successors_to_push tgt; ret (changed, cfg_wl ++ pushed)
  else ret (changed, cfg_wl).

Fixpoint worklist_loop (visit_block : Basic_block -> Eff World unit) (fuel : nat)
    (cfg_wl : list Edge_ref) : Eff World unit :=
  match cfg_wl with
  | [] => ret tt
  | e :: rest =>
      match fuel with
      | 0 => fail out_of_fuel
      | S fuel' =>
          do '(_, cfg_wl') <- worklist_step visit_block e rest;
          worklist_loop visit_block fuel' cfg_wl'
      end
  end.

(** The first [k] iterations of the [while] loop of [analyse_function]; the
    result is the worklist they leave. *)
Fixpoint worklist_steps (visit_block : Basic_block -> Eff World unit) (k : nat)
    (cfg_wl : list Edge_ref) : Eff World (list Edge_ref) :=
  match k, cfg_wl with
  | S k', e :: rest =>
      do '(_, cfg_wl') <- worklist_step visit_block e rest;
      worklist_steps visit_block k' cfg_wl'
  | _, _ => ret cfg_wl
  end.

(** [analyse_function], over the block visitor. *)
Definition analyse_function (visit_block : Basic_block -> Eff World unit) (fuel : nat)
    (info : Method_info) (caller : option Basic_block) (actuals : list Actual_parameter)
    (lhs : option string) : Eff World unit :=
  let name := sig_name (signature info) in
  do g <- cfg_of name;
  do entry_edge <- from_option (get_entry_edge g);
  reset_edges name >>
  do entry <- from_option (get_entry_bb g);
  lift (forward_bind info caller entry actuals) >>
  worklist_loop visit_block fuel [entry_edge] >>
  do exit <- from_option (get_exit_bb g);
  lift (backward_bind info caller exit lhs).

(** ** Block visitors *)

(** [saved_plhs] is NULL outside [visit_assign_var]. *)
Definition the_path (saved_plhs : option Path) : Eff Registry Path :=
  match saved_plhs with
  | Some p => ret p
  | None => fail failed_cast
  end.

(** [get_abstract_value (bb, rval)]. *)
Definition get_abstract_value_of_rvalue (bb : Basic_block) (rval : Rvalue)
  : Eff Registry Abstract_value :=
  match rval with
  | Rvalue_Literal l => ret (from_literal l)
  | Rvalue_VARIABLE_NAME v =>
      do indices <- get_named_indices bb (P (ST bb) v) false;
      (if Nat.ltb 1 (length indices) then phc_TODO else ret tt) >>
      do n <- from_option (head indices);
      get_abstract_value bb (Index_node_name n)
  end.

Definition visit_bin_op (bb : Basic_block) (saved_plhs : option Path)
    (left : Rvalue) (op : string) (right : Rvalue) : Eff Registry unit :=
  do l <- get_abstract_value_of_rvalue bb left;
  do r <- get_abstract_value_of_rvalue bb right;
  match as_Literal_cell l, as_Literal_cell r with
  | Some a, Some b =>
      do plhs <- the_path saved_plhs;
      assign_scalar bb plhs (fold_bin_op a op b)
  | _, _ =>
      do t <- the type_inf;
      do plhs <- the_path saved_plhs;
      assign_typed bb plhs (get_bin_op_types t bb l r op)
  end.

Definition visit_cast (bb : Basic_block) (saved_plhs : option Path)
    (cast variable_name : string) : Eff Registry unit :=
  let operand := Index_node_name (VN (ST bb) variable_name) in
  do c <- the ccp;
  match
    match get_lit c bb operand with
    | Some l => cast_to cast l
    | None => None
    end
  with
  | Some result =>
      do plhs <- the_path saved_plhs;
      assign_scalar bb plhs result
  | None =>
      do plhs <- the_path saved_plhs;
      assign_typed bb plhs ["array"] >>
      phc_TODO
  end.

Definition visit_pre_op (bb : Basic_block) (op variable_name : string)
  : Eff Registry unit :=
  let path := P (ST bb) variable_name in
  let n := VN (ST bb) variable_name in
  do c <- the ccp;
  match get_lit c bb (Index_node_name n) with
  | Some value => assign_scalar bb path (fold_pre_op value op)
  | None =>
      do t <- the type_inf;
      match type_inf_get_value t bb (Index_node_name n) with
      | TOP => fail assertion_failure
      | BOTTOM => assign_unknown bb path
      | Type_cell types => assign_typed bb path types
      | Literal_cell _ => fail failed_cast
      end
  end.

Definition visit_branch_block (bb : Basic_block) (variable_name : string)
  : Eff Registry unit :=
  record_use bb (VN (ST bb) variable_name).

Section Visitors.

(** [invoke_method], as the visitors of a block call it back. *)
Variable invoke_method :
  Method_invocation -> option Basic_block -> option string -> Eff World unit.

(** The dispatch of [visit_expr] to the expression visitors, under the
    [saved_plhs] and [saved_lhs] that [visit_assign_var] and
    [visit_eval_expr] set.  A literal has no visitor in [Whole_program]. *)
Definition visit_expr (bb : Basic_block) (saved_plhs : option Path)
    (saved_lhs : option string) (e : Expr) : Eff World unit :=
  match e with
  | Bin_op l op r => lift (visit_bin_op bb saved_plhs l op r)
  | Cast cast variable_name => lift (visit_cast bb saved_plhs cast variable_name)
  | Expr_Method_invocation mi => invoke_method mi (Some bb) saved_lhs
  | VARIABLE_NAME value =>
      lift (do plhs <- the_path saved_plhs; assign_by_copy bb plhs (P (ST bb) value))
  | Expr_Literal _ => ret tt
  | Array_access | Constant | Field_access | Foreach_get_key | Foreach_get_val
  | Foreach_has_key | Instanceof | Isset | New | Param_is_ref | Unary_op
  | Variable_variable => phc_TODO
  end.

Definition visit_assign_var (bb : Basic_block) (lhs : string) (rhs : Expr)
  : Eff World unit :=
  let saved_plhs := P (ST bb) lhs in
  match rhs with
  | Expr_Literal l => lift (assign_scalar bb saved_plhs l)
  | _ => visit_expr bb (Some saved_plhs) (Some lhs) rhs
  end.

Definition visit_statement (bb : Basic_block) (s : Statement) : Eff World unit :=
  match s with
  | Assign_array lhs rhs is_ref =>
      lift (if is_ref then assign_by_ref bb lhs rhs else assign_by_copy bb lhs rhs)
  | Assign_var lhs rhs => visit_assign_var bb lhs rhs
  | Eval_expr expr => visit_expr bb None None expr
  | Foreach_reset array iter =>
      lift (record_use bb (VN (ST bb) array) >> phc_TODO)
  | Foreach_end array iter =>
      lift (record_use bb (VN (ST bb) array) >>
            record_use bb (ind (mk_Alias_name (ST bb) iter)) >>
            phc_TODO)
  | Global variable_name =>
      lift (assign_by_ref bb (P (ST bb) variable_name) (P "__MAIN__" variable_name))
  | Pre_op op variable_name => lift (visit_pre_op bb op variable_name)
  | Unset path => lift (assign_scalar bb path NIL)
  | Assign_field | Assign_next | Assign_var_var | Foreach_next | Return
  | Static_declaration | Throw | Try => phc_TODO
  end.

(** The dispatch of [visit_block] on the kind of the block. *)
Definition visit_block (bb : Basic_block) : Eff World unit :=
  match kind bb with
  | Entry_block => ret tt
  | Exit_block => ret tt
  | Statement_block statement => visit_statement bb statement
  | Branch_block variable_name => lift (visit_branch_block bb variable_name)
  end.

End Visitors.

(** ** Method invocation *)

Definition get_possible_receivers (mi : Method_invocation) : Eff World (list Method_info) :=
  (match target mi with Some _ => phc_TODO | None => ret tt end) >>
  match method_name mi with
  | Variable_method => phc_TODO
  | METHOD_NAME name =>
      match get_method_info name with
      | None => phc_TODO
      | Some info => ret [info]
      end
  end.

(** [if (info->cfg == NULL) info->cfg = ...]. *)
Definition ensure_cfg (name : string) (g : CFG) : Eff World unit :=
  modify (fun w =>
            match cfgs w !! name with
            | Some _ => w
            | None => set_cfgs (<[name := g]> (cfgs w)) w
            end).

Definition analyse_summary (info : Method_info) (summary_cfg : CFG) (fake : Basic_block)
    (caller : option Basic_block) (actuals : list Actual_parameter) (lhs : option string)
  : Eff World unit :=
  ensure_cfg (sig_name (signature info)) summary_cfg >>
  do g <- cfg_of (sig_name (signature info));
  do entry <- from_option (get_entry_bb g);
  lift (forward_bind info caller entry actuals) >>
  lift (broadcast (aggregate_results_call entry)) >>
  pull_results fake >>
  lift (apply_modelled_function info fake) >>
  lift (broadcast (aggregate_results_call fake)) >>
  do exit <- from_option (get_exit_bb g);
  pull_results exit >>
  lift (backward_bind info caller exit lhs).

(** [invoke_method], with [analyse_method_info] unfolded in its loop over
    the receivers.  [fuel] bounds the depth of nested invocations and the
    iterations of each worklist. *)
Fixpoint invoke_method (fuel : nat) (mi : Method_invocation)
    (context : option Basic_block) (lhs : option string) : Eff World unit :=
  match fuel with
  | 0 => fail out_of_fuel
  | S fuel' =>
      do receivers <- get_possible_receivers mi;
      (if Nat.ltb 1 (length receivers) then phc_TODO else ret tt) >>
      foreach receivers
        (fun receiver =>
           match receiver with
           | User_method_info sig method =>
               ensure_cfg (sig_name sig) method >>
               analyse_function (visit_block (invoke_method fuel')) fuel'
                 receiver context (actual_parameters mi) lhs
           | Summary_method_info sig summary_cfg fake =>
               analyse_summary receiver summary_cfg fake context (actual_parameters mi) lhs
           end)
  end.

Definition analyse_method_info (fuel : nat) (method_info : Method_info)
    (caller : option Basic_block) (actuals : list Actual_parameter) (lhs : option string)
  : Eff World unit :=
  match method_info with
  | User_method_info sig method =>
      ensure_cfg (sig_name sig) method >>
      analyse_function (visit_block (invoke_method fuel)) fuel method_info caller actuals lhs
  | Summary_method_info sig summary_cfg fake =>
      analyse_summary method_info summary_cfg fake caller actuals lhs
  end.

(** ** Whole-program driver *)

Definition register_analysis (analysis : WPA) : Eff World unit :=
  modify (fun w =>
            set_registry
              (mk_Registry (analyses (registry w) ++ [analysis]) (trace (registry w))) w).

Definition initialize : Eff World unit :=
  modify (fun w =>
            mk_World (mk_Registry [] (trace (registry w))) (analyses (registry w))
              (cfgs w) (side_effecting w) (statements w)) >>
  register_analysis new_Debug_WPA >>
  register_analysis new_Aliasing >>
  register_analysis new_Callgraph >>
  register_analysis new_CCP >>
  register_analysis new_Def_use >>
  register_analysis new_Type_inference.

(** The loop of [analyses_have_converged]: [i] walks [old_analyses] while
    [foreach_wpa] walks [analyses]. *)
Fixpoint all_equal (current old : list WPA) : option bool :=
  match current with
  | [] => Some true
  | wpa :: current' =>
      match old with
      | [] => None
      | i :: old' => if equals wpa i then all_equal current' old' else Some false
      end
  end.

Definition analyses_have_converged : Eff World bool :=
  do w <- get;
  if Nat.eqb (length (old_analyses w)) 0 then ret false
  else from_option (all_equal (analyses (registry w)) (old_analyses w)).

Definition generate_summary (name : string) : Eff World unit :=
  do g <- cfg_of name;
  if Nat.eqb (length (all_bbs g)) 2
  then modify (fun w =>
                 mk_World (registry w) (old_analyses w) (cfgs w)
                   (name :: side_effecting w) (statements w))
  else ret tt.

Definition merge_contexts (name : string) : Eff World unit := ret tt.

Definition is_statement_block (bb : Basic_block) : bool :=
  match kind bb with Statement_block _ => true | _ => false end.

(** Rewrite the graph of method [name] by [f], given the analyses. *)
Definition update_cfg (name : string) (f : list WPA -> CFG -> CFG) : Eff World unit :=
  do g <- cfg_of name;
  modify (fun w => set_cfgs (<[name := f (analyses (registry w)) g]> (cfgs w)) w).

Definition apply_results (name : string) : Eff World unit :=
  update_cfg name
    (fun wpas g =>
       mk_CFG (map (fun bb => if is_statement_block bb
                              then transformer_visit_block wpas bb else bb)
                   (all_bbs g))
              (all_edges g)).

Definition perform_local_optimizations (name : string) : Eff World unit :=
  update_cfg name run_local_optimization_passes.

Definition perform_interprocedural_optimizations (name : string) : Eff World unit :=
  update_cfg name run_ipa_passes.

(** The inner [for (int i = 0; i < 10; i++)] loop of [run], [n] iterations
    being left. *)
Fixpoint optimize_function (n : nat) (name : string) : Eff World unit :=
  match n with
  | 0 => ret tt
  | S n' =>
      do before <- cfg_of name;
      perform_local_optimizations name >>
      perform_interprocedural_optimizations name >>
      generate_summary name >>
      do after <- cfg_of name;
      if cfg_equals before after then ret tt else optimize_function n' name
  end.

(** [Oracle::get_user_method_info]. *)
Definition get_user_method_info (method : string) : option Method_info :=
  match get_method_info method with
  | Some (User_method_info sig m) => Some (User_method_info sig m)
  | _ => None
  end.

(** The loop "Optimize based on analysis results" of [run]. *)
Definition optimize_methods : Eff World unit :=
  do cg <- lift (the callgraph);
  foreach (bottom_up cg)
    (fun method =>
       match get_user_method_info method with
       | None => ret tt
       | Some info =>
           let name := sig_name (signature info) in
           merge_contexts name >>
           apply_results name >>
           generate_summary name >>
           optimize_function 10 name
       end).

Definition MAIN : Method_invocation :=
  mk_Method_invocation None (METHOD_NAME "__MAIN__") [].

(** One whole-program pass: the body of the outer loop of [run] up to the
    convergence test. *)
Definition whole_program_pass (fuel : nat) : Eff World unit :=
  initialize >>
  invoke_method fuel MAIN None None >>
  optimize_methods.

(** The outer [for (int w = 0; w < 10; w++)] loop of [run], [n] iterations
    being left; the result is the number of passes made when the loop is left
    (the [w+1] of "th Whole-program pass"). *)
Fixpoint whole_program_passes (fuel n w : nat) : Eff World nat :=
  match n with
  | 0 => ret w
  | S n' =>
      whole_program_pass fuel >>
      do converged <- analyses_have_converged;
      if converged then ret (S w)
      else
        (if Nat.eqb w 9 then phc_TODO else ret tt) >>
        whole_program_passes fuel n' (S w)
  end.

Definition annotate_results (name : string) : Eff World unit :=
  update_cfg name
    (fun wpas g => mk_CFG (map (annotator_visit_block wpas) (all_bbs g)) (all_edges g)).

(** [run], without the final [strip], which prunes the script and leaves the
    driver's state alone.  The result is the number of whole-program
    passes. *)
Definition run (fuel : nat) : Eff World nat :=
  do passes <- whole_program_passes fuel 10 0;
  do cg <- lift (the callgraph);
  foreach (bottom_up cg)
    (fun method =>
       do method_info <- from_option (get_method_info method);
       if negb (has_implementation method_info) then ret tt
       else
         let name := sig_name (signature method_info) in
         annotate_results name >>
         do g <- cfg_of name;
         modify (fun w =>
                   mk_World (registry w) (old_analyses w) (cfgs w) (side_effecting w)
                     (<[name := get_linear_statements g]> (statements w)))) >>
  ret passes.

(** The state of a [Whole_program] that has just been constructed. *)
Definition new_Whole_program : World :=
  mk_World (mk_Registry [] []) [] ∅ [] ∅.

End Whole_program.

Arguments Registry WPA : clear implicits.
Arguments World WPA : clear implicits.

(** ** A small instance

    A miniature constant propagation, used to run the driver on concrete
    programs.  Every analysis object keeps one lattice cell, the value last
    assigned to a variable named [n]; a branch on it is known when that value
    is an integer literal.  The call graph enumerates [order]; aliasing and
    typing answer from the two tables [values] and [types]. *)
Module Example.

Definition scalar_types : list string := ["int"; "bool"; "string"; "real"; "unset"].

Definition is_scalar_type (t : string) : bool := existsb (String.eqb t) scalar_types.

Definition type_of_literal (l : Literal) : string :=
  match l with
  | BOOL _ => "bool"
  | INT _ => "int"
  | NIL => "unset"
  | REAL _ => "real"
  | STRING _ => "string"
  end.

Definition tracked (c : Call) (cell : Lattice_cell) : Lattice_cell :=
  match c with
  | assign_scalar_call _ lhs _ val _ => if String.eqb (name lhs) "n" then lit val else cell
  | _ => cell
  end.

Definition Lattice_cell_eqb (a b : Lattice_cell) : bool :=
  match a, b with
  | TOP, TOP => true
  | BOTTOM, BOTTOM => true
  | Literal_cell (INT x), Literal_cell (INT y) => Z.eqb x y
  | _, _ => false
  end.

Definition mini_analysis (order : list string) (values : Index_node -> list Storage_node)
    (types : Alias_name -> Types) : Analysis Lattice_cell := {|
  apply := tracked;
  equals := Lattice_cell_eqb;
  solution_changed := fun _ _ => false;
  new_Debug_WPA := TOP;
  new_Aliasing := TOP;
  new_Callgraph := TOP;
  new_CCP := TOP;
  new_Def_use := TOP;
  new_Type_inference := TOP;
  get_references := fun _ _ _ _ => [];
  get_values := fun _ _ n => values n;
  bottom_up := fun _ => order;
  ccp_get_value := fun cell _ _ => cell;
  get_lit := fun cell _ _ => match cell with Literal_cell l => Some l | _ => None end;
  branch_known_true := fun cell _ _ =>
    match cell with Literal_cell (INT z) => negb (Z.eqb z 0) | _ => false end;
  branch_known_false := fun cell _ _ =>
    match cell with Literal_cell (INT z) => Z.eqb z 0 | _ => false end;
  get_types := fun _ _ a => types a;
  type_inf_get_value := fun _ _ a => Type_cell (types a);
  get_bin_op_types := fun _ _ _ _ _ => ["int"]
|}.

Definition mini_platform (methods : list (string * Method_info)) : Platform Lattice_cell := {|
  get_method_info := fun m => snd <$> find (fun p => String.eqb (fst p) m) methods;
  get_superglobals := ["GLOBALS"; "_SERVER"];
  MSN := "__MAIN__";
  UNKNOWN := "*";
  RETNAME := "__RETNAME__";
  ST := cfg;
  ABSVAL := fun a => mk_Alias_name (prefix a) (name a);
  BB_array_name := fun bb => mk_Alias_name "ST" (pretty (ID bb));
  BB_object_name := fun bb => mk_Alias_name "ST" (pretty (ID bb));
  Storage_node_name := fun st => mk_Alias_name "ST" (st_storage st);
  get_value_as_string := fun l =>
    match l with
    | BOOL b => if b then "1" else ""
    | INT z => pretty z
    | NIL => ""
    | REAL r => r
    | STRING s => s
    end;
  from_literal := fun l => mk_Abstract_value (Literal_cell l) (Type_cell [type_of_literal l]);
  from_types := fun t => mk_Abstract_value BOTTOM (Type_cell t);
  unknown := mk_Abstract_value BOTTOM BOTTOM;
  get_scalar_types := filter (fun t => is_scalar_type t = true);
  get_array_types := filter (fun t => String.eqb t "array" = true);
  get_object_types := filter (fun t => (is_scalar_type t || String.eqb t "array") = false);
  fold_pre_op := fun l _ => l;
  fold_bin_op := fun l _ _ => l;
  cast_to := fun _ l => Some l;
  as_Literal_cell := fun v => match lit v with Literal_cell l => Some l | _ => None end;
  transformer_visit_block := fun _ bb => bb;
  annotator_visit_block := fun _ bb => bb;
  get_linear_statements := fun _ => [];
  run_local_optimization_passes := fun _ g => g;
  run_ipa_passes := fun _ g => g;
  cfg_equals := fun _ _ => true
|}.

Definition no_values : Index_node -> list Storage_node := fun _ => [].
Definition no_types : Alias_name -> Types := fun _ => [].

Definition plain_signature (name : string) : Signature :=
  mk_Signature name false (fun _ => false) (fun _ => "n") (fun _ => false).

Definition call (name : string) (actuals : list Actual_parameter) : Statement :=
  Eval_expr (Expr_Method_invocation (mk_Method_invocation None (METHOD_NAME name) actuals)).

Definition edge (s t : nat) (d : option bool) : Edge := mk_Edge s t d false.

(** [function straight () { callee (); }], or an empty body. *)
Definition straight (name : string) (callee : option string) : Method_info :=
  User_method_info (plain_signature name)
    match callee with
    | Some c =>
        mk_CFG [mk_Basic_block 0 name Entry_block;
                mk_Basic_block 1 name (Statement_block (call c []));
                mk_Basic_block 2 name Exit_block]
               [edge 0 1 None; edge 1 2 None]
    | None =>
        mk_CFG [mk_Basic_block 0 name Entry_block; mk_Basic_block 1 name Exit_block]
               [edge 0 1 None]
    end.

(** [a (); function a () { b (); } function b () { c (); } function c () {}]:
    no recursion, no cycle. *)
Definition chain : list (string * Method_info) :=
  [("__MAIN__", straight "__MAIN__" (Some "a"));
   ("a", straight "a" (Some "b"));
   ("b", straight "b" (Some "c"));
   ("c", straight "c" None)].

(** [function f ($n) { if ($n) { $x = 7; f (0); } }]. *)
Definition f_cfg : CFG :=
  mk_CFG [mk_Basic_block 0 "f" Entry_block;
          mk_Basic_block 1 "f" (Branch_block "n");
          mk_Basic_block 2 "f" (Statement_block (Assign_var "x" (Expr_Literal (INT 7))));
          mk_Basic_block 3 "f" (Statement_block
                                  (call "f" [mk_Actual_parameter false (Rvalue_Literal (INT 0))]));
          mk_Basic_block 4 "f" Exit_block]
         [edge 0 1 None; edge 1 2 (Some true); edge 1 4 (Some false); edge 2 3 None;
          edge 3 4 None].

Definition f_info : Method_info := User_method_info (plain_signature "f") f_cfg.

(** [f (1);] with the recursive [f] above. *)
Definition recursive : list (string * Method_info) :=
  [("__MAIN__",
    User_method_info (plain_signature "__MAIN__")
      (mk_CFG [mk_Basic_block 0 "__MAIN__" Entry_block;
               mk_Basic_block 1 "__MAIN__"
                 (Statement_block
                    (call "f" [mk_Actual_parameter false (Rvalue_Literal (INT 1))]));
               mk_Basic_block 2 "__MAIN__" Exit_block]
              [edge 0 1 None; edge 1 2 None]));
   ("f", f_info)].

(** The methods called by the statements of a graph, and whether a method
    reaches itself through calls: the check that a program is free of
    recursion. *)
Definition callees (g : CFG) : list string :=
  flat_map (fun bb =>
              match kind bb with
              | Statement_block (Eval_expr (Expr_Method_invocation mi))
              | Statement_block (Assign_var _ (Expr_Method_invocation mi)) =>
                  match method_name mi with METHOD_NAME m => [m] | Variable_method => [] end
              | _ => []
              end) (all_bbs g).

Definition callees_of (prog : list (string * Method_info)) (m : string) : list string :=
  match snd <$> find (fun p => String.eqb (fst p) m) prog with
  | Some (User_method_info _ g) => callees g
  | _ => []
  end.

Fixpoint reaches (prog : list (string * Method_info)) (depth : nat) (from to : string) : bool :=
  match depth with
  | 0 => false
  | S d =>
      existsb (fun c => String.eqb c to || reaches prog d c to) (callees_of prog from)
  end.

Definition no_recursion (prog : list (string * Method_info)) : bool :=
  forallb (fun p => negb (reaches prog (length prog) (fst p) (fst p))) prog.

(** *** Concrete states of the driver *)

Section Chain_program.

#[local] Instance chain_analysis : Analysis Lattice_cell :=
  mini_analysis ["c"; "b"; "a"; "__MAIN__"] no_values no_types.

#[local] Instance chain_platform : Platform Lattice_cell := mini_platform chain.

(** The block visitor of the driver on the program [chain]. *)
Definition chain_visit : Basic_block -> Eff (World Lattice_cell) unit :=
  visit_block (invoke_method 20).

Definition b_cfg : CFG :=
  mk_CFG [mk_Basic_block 0 "b" Entry_block;
          mk_Basic_block 1 "b" (Statement_block (call "c" []));
          mk_Basic_block 2 "b" Exit_block]
         [edge 0 1 None; edge 1 2 None].

(** The analyses are fresh and the graph of [b] is in place, no edge being
    executable: the state in which the worklist of [b] starts. *)
Definition chain_ready : World Lattice_cell :=
  final_state ((initialize >> ensure_cfg "b" b_cfg) new_Whole_program).

(** The first whole-program pass over [chain], followed by the convergence
    test. *)
Definition chain_first_pass : Outcome (World Lattice_cell) bool :=
  (whole_program_pass 20 >> analyses_have_converged) new_Whole_program.

Definition chain_run : Outcome (World Lattice_cell) nat := run 20 new_Whole_program.

End Chain_program.

Section Recursive_program.

#[local] Instance recursive_analysis : Analysis Lattice_cell :=
  mini_analysis ["f"; "__MAIN__"] no_values no_types.

#[local] Instance recursive_platform : Platform Lattice_cell := mini_platform recursive.

Definition recursive_visit : Basic_block -> Eff (World Lattice_cell) unit :=
  visit_block (invoke_method 20).

(** The block of [__MAIN__] that calls [f (1)]. *)
Definition main_call : Basic_block :=
  mk_Basic_block 1 "__MAIN__"
    (Statement_block (call "f" [mk_Actual_parameter false (Rvalue_Literal (INT 1))])).

(** The analysis of [f], called with the literal 1 from [main_call], after
    the first two iterations of its worklist: the edges entry -> branch and
    branch -> [$x = 7] have been traversed, and the edge to the block that
    calls [f (0)] is next. *)
Definition f_midway : Outcome (World Lattice_cell) (list Edge_ref) :=
  (initialize >>
   ensure_cfg "f" f_cfg >>
   reset_edges "f" >>
   lift (forward_bind f_info (Some main_call) (mk_Basic_block 0 "f" Entry_block)
           [mk_Actual_parameter false (Rvalue_Literal (INT 1))]) >>
   worklist_steps recursive_visit 2 [("f", 0)])
    new_Whole_program.

End Recursive_program.

Section Mixed_value.

(** The variable [r] of any scope holds the value [v], whose types are at
    once a scalar type, the array type and a class. *)
Definition mixed_values (n : Index_node) : list Storage_node :=
  if String.eqb (index n) "r" then [mk_Storage_node "v"] else [].

Definition mixed_types (a : Alias_name) : Types := ["int"; "array"; "stdClass"].

#[local] Instance mixed_analysis : Analysis Lattice_cell :=
  mini_analysis [] mixed_values mixed_types.

#[local] Instance mixed_platform : Platform Lattice_cell := mini_platform [].

(** [$x = $r;] in the scope [g], evaluated at a statement block. *)
Definition copy_mixed : Outcome (Registry Lattice_cell) unit :=
  assign_by_copy (mk_Basic_block 1 "g" (Statement_block (Assign_var "x" (VARIABLE_NAME "r"))))
    (P "g" "x") (P "g" "r")
    (registry (final_state (initialize new_Whole_program))).

(** A callee that returns by reference. *)
Definition by_ref_info : Method_info :=
  User_method_info
    (mk_Signature "h" true (fun _ => false) (fun _ => "n") (fun _ => false))
    (mk_CFG [mk_Basic_block 0 "h" Entry_block; mk_Basic_block 1 "h" Exit_block]
            [edge 0 1 None]).

Definition fresh_registry : Registry Lattice_cell :=
  registry (final_state (initialize new_Whole_program)).

End Mixed_value.

Section Scalar_base.

(** The variable [r] of any scope holds the array [w], which the aliasing
    analysis reports twice, and a scalar; the variable [d] holds the arrays
    [w] and [v], the first reported twice. *)
Definition scalar_values (n : Index_node) : list Storage_node :=
  if String.eqb (index n) "r"
  then [mk_Storage_node "w"; mk_Storage_node "SCALAR"; mk_Storage_node "w"]
  else if String.eqb (index n) "d"
       then [mk_Storage_node "w"; mk_Storage_node "v"; mk_Storage_node "w"]
       else [].

#[local] Instance scalar_analysis : Analysis Lattice_cell :=
  mini_analysis [] scalar_values no_types.

#[local] Instance scalar_platform : Platform Lattice_cell := mini_platform [].

End Scalar_base.

End Example.

(** * Specification vocabulary *)

(** The events of one call received by the analyses at positions
    [k .. k+n-1]. *)
Definition events (k n : nat) (c : Call) : list (nat * Call) :=
  map (fun i => (i, c)) (seq k n).

(** The effect of a sequence of calls on one analysis object. *)
Definition apply_all {WPA : Type} `{!Analysis WPA} (cs : list Call) (a : WPA) : WPA :=
  fold_left (fun a c => apply c a) cs a.

(** The modelling table of the built-in functions, as the specification words
    it: a name is modelled by the type or by the literal assigned to the
    return slot. *)
Inductive Model : Type :=
  | Model_type (type : string)
  | Model_literal (l : Literal).

Definition modelling_table : list (string * Model) :=
  [("strlen", Model_type "int");
   ("dechex", Model_type "string");
   ("print", Model_literal (INT 1));
   ("is_array", Model_type "bool");
   ("is_object", Model_type "bool");
   ("trigger_error", Model_type "bool")].

Definition modelled (name : string) : option Model :=
  snd <$> find (fun p => String.eqb (fst p) name) modelling_table.

(** The invocations of a DEFINITE kill of [lhs]: the value of each of its
    DEFINITE references, then its own, [a] being the aliasing analysis. *)
Definition kill_calls {WPA : Type} `{!Analysis WPA} (a : WPA) (bb : Basic_block)
    (lhs : Index_node) : list Call :=
  map (fun ref => kill_value_call bb (Index_node_name ref))
      (get_references a bb lhs DEFINITE ++ [lhs]).

(** The registry after every analysis has received the calls [cs], one call
    after the other. *)
Definition after_calls {WPA : Type} `{!Analysis WPA} (cs : list Call) (s : Registry WPA)
  : Registry WPA :=
  mk_Registry (map (apply_all cs) (analyses s))
    (trace s ++ flat_map (events 0 (length (analyses s))) cs).

(** The calls of the pull phase of block [bb] on one analysis, [srcs] being
    the source blocks of the predecessor edges merged: the first one seeds
    the state, the following ones are merged into it. *)
Definition pred_calls (bb : Basic_block) (first : bool) (srcs : list Basic_block)
  : list Call :=
  match srcs with
  | [] => []
  | b :: bs =>
      (if first then pull_first_pred_call bb b else pull_pred_call bb b)
        :: map (pull_pred_call bb) bs
  end.

Definition pull_calls (bb : Basic_block) (srcs : list Basic_block) : list Call :=
  pull_init_call bb :: pred_calls bb true srcs ++ [pull_finish_call bb].

(** The registry after each analysis in turn has received the whole sequence
    of calls [cs]. *)
Definition after_sessions {WPA : Type} `{!Analysis WPA} (cs : list Call) (s : Registry WPA)
  : Registry WPA :=
  mk_Registry (map (apply_all cs) (analyses s))
    (trace s ++ flat_map (fun i => map (fun c => (i, c)) cs) (seq 0 (length (analyses s)))).

(** The source blocks of the executable edges among [preds]. *)
Definition executable_sources (g : CFG) (preds : list Edge) : option (list Basic_block) :=
  mapM (fun e => get_bb g (source e)) (filter (fun e => is_executable e = true) preds).

(** An action respects the relation [R] when the state it ends in, done or
    aborted, is [R]-related to the state it started in. *)
Definition respects {S A : Type} (R : S -> S -> Prop) (m : Eff S A) : Prop :=
  forall x : S, R x (final_state (m x)).

(** An action keeps the component [proj] of the state. *)
Definition keeps {S X A : Type} (proj : S -> X) (m : Eff S A) : Prop :=
  respects (fun x y => proj y = proj x) m.

(** The trace grows by calls that satisfy [Q] only. *)
Definition grows_by {WPA : Type} (Q : Call -> Prop) (s s' : Registry WPA) : Prop :=
  exists l, trace s' = trace s ++ l /\ Forall (fun ev => Q (snd ev)) l.

(** A call evaluated at block [bb] that is not a bind hook. *)
Definition assignment_at (bb : Basic_block) (c : Call) : Prop :=
  call_block c = bb /\ is_backward_bind c = false.

(** Every invocation the action makes is an assignment-side call evaluated
    at block [bb]. *)
Definition evaluated_at {WPA A : Type} (bb : Basic_block) (m : Eff (Registry WPA) A)
  : Prop :=
  respects (grows_by (assignment_at bb)) m.

(** The statement of the block, if any, invokes no method. *)
Definition calls_no_method (bb : Basic_block) : bool :=
  match kind bb with
  | Statement_block (Eval_expr (Expr_Method_invocation _))
  | Statement_block (Assign_var _ (Expr_Method_invocation _)) => false
  | _ => true
  end.

(** The claims about the worklist and the driver, as the specification
    states them. *)
Section Stated.

Context {WPA : Type} `{!Analysis WPA} `{!Platform WPA}.

(** "The successors are pushed if and only if some analysis reported that
    its OUT state at the target changed." *)
Definition pushed_iff_solution_changed (visit_block : Basic_block -> Eff (World WPA) unit)
    (e : Edge_ref) (cfg_wl : list Edge_ref) (w : World WPA) : Prop :=
  forall changed cfg_wl' w' tgt,
    worklist_step visit_block e cfg_wl w = Done (changed, cfg_wl') w' ->
    get_target e w = Done tgt w ->
    (changed = true <->
     existsb (fun wpa => solution_changed wpa tgt) (analyses (registry w')) = true).

(** "No step of the worklist loop ever clears the flag." *)
Definition step_keeps_executable (visit_block : Basic_block -> Eff (World WPA) unit)
    (e : Edge_ref) (cfg_wl : list Edge_ref) (w : World WPA) : Prop :=
  forall e0 : Edge_ref,
    executable w e0 = true ->
    executable (final_state (worklist_step visit_block e cfg_wl w)) e0 = true.

(** "The convergence test after the first iteration reports convergence and
    the loop exits." *)
Definition converges_in_first_pass (fuel : nat) : Prop :=
  exists w : World WPA,
    (whole_program_pass fuel >> analyses_have_converged) new_Whole_program = Done true w.

(** "Backward bind assigns the target, and only after this assignment is
    every analysis's hook invoked": the binder completes and the trace ends
    with the hook of every analysis. *)
Definition binds_then_hooks (info : Method_info) (caller exit : Basic_block)
    (lhs : string) (s : Registry WPA) : Prop :=
  exists s' l,
    backward_bind info (Some caller) exit (Some lhs) s = Done tt s' /\
    trace s' = l ++ events 0 (length (analyses s)) (backward_bind_call (Some caller) exit).

(** "A POSSIBLE kill performs no kill at all (no analysis's kill_value
    primitive is invoked)." *)
Definition possible_kill_performs_no_kill (bb : Basic_block) (plhs : Path)
    (s : Registry WPA) : Prop :=
  forall s',
    kill_value bb plhs s = Done POSSIBLE s' ->
    Forall (fun ev => is_kill_value (snd ev) = false) (drop (length (trace s)) (trace s')).

End Stated.

(** ** Vocabulary of the further properties *)

(** The calls an assignment may make on an analysis: kills of values, empty
    arrays, and scalars, storage edges and uses with certainty POSSIBLE. *)
Definition is_primitive (c : Call) : bool :=
  match c with
  | kill_value_call _ _ | assign_empty_array_call _ _ _ _ => true
  | assign_scalar_call _ _ _ _ POSSIBLE
  | assign_storage_call _ _ _ POSSIBLE
  | record_use_call _ _ POSSIBLE => true
  | _ => false
  end.

Definition primitive_at (bb : Basic_block) (c : Call) : Prop :=
  call_block c = bb /\ is_primitive c = true.

(** A call that is neither on references ([kill_reference],
    [create_reference]) nor a scalar, a storage edge or a use with certainty
    DEFINITE. *)
Definition never_strong (c : Call) : bool :=
  match c with
  | kill_reference_call _ _ | create_reference_call _ _ _ _ => false
  | assign_scalar_call _ _ _ _ DEFINITE
  | assign_storage_call _ _ _ DEFINITE
  | record_use_call _ _ DEFINITE => false
  | _ => true
  end.

(** The registry keeps its number of analyses and its trace grows by calls
    that satisfy [Q]. *)
Definition steps {WPA : Type} (Q : Call -> Prop) (s s' : Registry WPA) : Prop :=
  length (analyses s') = length (analyses s) /\ grows_by Q s s'.

(** What the analysis leaves of an edge and of a graph: everything but the
    [is_executable] flags. *)
Definition edge_skeleton (e : Edge) : nat * nat * option bool :=
  (source e, edge_target e, direction e).

Definition skeleton (g : CFG) : list Basic_block * list (nat * nat * option bool) :=
  (all_bbs g, map edge_skeleton (all_edges g)).

(** Every graph of [w] is still there in [w'], with the same blocks and the
    same edges up to their flags. *)
Definition graphs_kept {WPA : Type} (w w' : World WPA) : Prop :=
  forall (name : string) (g : CFG),
    cfgs w !! name = Some g ->
    exists g', cfgs w' !! name = Some g' /\ skeleton g' = skeleton g.

(** The frame of an analysis: only the registry and the flags of the graphs
    change, and the registry changes by [steps Q]. *)
Definition framed {WPA : Type} (Q : Call -> Prop) (w w' : World WPA) : Prop :=
  steps Q (registry w) (registry w')
  /\ old_analyses w' = old_analyses w
  /\ side_effecting w' = side_effecting w
  /\ statements w' = statements w
  /\ graphs_kept w w'.

(** Insertion into a list kept in increasing order of [cmp], without
    duplicates: the shape shared by [set_insert] and [names_insert]. *)
Fixpoint insert_by {A : Type} (cmp : A -> A -> comparison) (x : A) (l : list A) : list A :=
  match l with
  | [] => [x]
  | y :: l' =>
      match cmp x y with
      | Lt => x :: y :: l'
      | Eq => y :: l'
      | Gt => y :: insert_by cmp x l'
      end
  end.

(** The names that [get_all_referenced_names] collects for the resolved index
    nodes [lhss], [a] being the aliasing analysis. *)
Definition referenced_names {WPA : Type} `{!Analysis WPA} (a : WPA) (bb : Basic_block)
    (cert : certainty) (lhss : list Index_node) : list Alias_name :=
  fold_left
    (fun names lhs =>
       fold_left (fun ns ref => names_insert (Index_node_name ref) ns)
                 (get_references a bb lhs cert ++ [lhs]) names)
    lhss [].

(** The statements and expressions whose visitor is [phc_TODO ()], or reaches
    one on every path. *)
Definition unimplemented_expr (e : Expr) : bool :=
  match e with
  | Array_access | Constant | Field_access | Foreach_get_key | Foreach_get_val
  | Foreach_has_key | Instanceof | Isset | New | Param_is_ref | Unary_op
  | Variable_variable => true
  | _ => false
  end.

Definition unimplemented_statement (s : Statement) : bool :=
  match s with
  | Assign_field | Assign_next | Assign_var_var | Foreach_next | Return
  | Static_declaration | Throw | Try => true
  | Global _ | Foreach_reset _ _ | Foreach_end _ _ => true
  | Assign_array _ _ is_ref => is_ref
  | Eval_expr e | Assign_var _ e => unimplemented_expr e
  | _ => false
  end.


(** ** Vocabulary of the executable edges

    A function that does not call itself, directly or through others: [M]
    lists the methods that its body may reach by calls. *)

(** The method invocation that the statement of a block makes, if any. *)
Definition invoked_by (bb : Basic_block) : option Method_invocation :=
  match kind bb with
  | Statement_block (Eval_expr (Expr_Method_invocation mi))
  | Statement_block (Assign_var _ (Expr_Method_invocation mi)) => Some mi
  | _ => None
  end.

Definition listed (M : list string) (m : string) : bool := existsb (String.eqb m) M.

Definition invokes_within (M : list string) (mi : Method_invocation) : bool :=
  match method_name mi with
  | METHOD_NAME m => listed M m
  | Variable_method => true
  end.

Definition calls_within (M : list string) (bb : Basic_block) : bool :=
  match invoked_by bb with
  | Some mi => invokes_within M mi
  | None => true
  end.

(** The blocks of [g] point back to the method [owner] and call methods of
    [M] only. *)
Definition graph_within (M : list string) (owner : string) (g : CFG) : bool :=
  forallb (fun bb => String.eqb (cfg bb) owner && calls_within M bb) (all_bbs g).

Definition method_graph (info : Method_info) : CFG :=
  match info with
  | User_method_info _ method => method
  | Summary_method_info _ summary_cfg _ => summary_cfg
  end.

(** The oracle resolves every method of [M] to a method of [M] whose graph
    calls methods of [M] only. *)
Definition closed_under_calls {WPA : Type} `{!Platform WPA} (M : list string) : bool :=
  forallb
    (fun m =>
       match get_method_info m with
       | Some info =>
           listed M (sig_name (signature info))
           && graph_within M (sig_name (signature info)) (method_graph info)
       | None => true
       end)
    M.

(** The graphs that the driver holds for the methods of [M] call methods of
    [M] only. *)
Definition world_within {WPA : Type} (M : list string) (w : World WPA) : bool :=
  forallb
    (fun m =>
       match cfgs w !! m with
       | Some g => graph_within M m g
       | None => true
       end)
    M.

(** From a state that satisfies [J] the action ends, done or aborted, in a
    state that satisfies [J] and is [R]-related to the first, and a value it
    returns satisfies [post]. *)
Definition advances {S A : Type} (J : S -> Prop) (R : S -> S -> Prop) (post : A -> Prop)
    (m : Eff S A) : Prop :=
  forall x : S,
    J x ->
    J (final_state (m x))
    /\ R x (final_state (m x))
    /\ forall a, value_of (m x) = Some a -> post a.

(** ** Facts about the effect monad *)

Section Eff_facts.

Context {S A B : Type}.

Lemma bind_never_done (m : Eff S A) (k : A -> Eff S B) (x : S) :
  (forall a (y : S), is_done (k a y) = false) -> is_done (bind m k x) = false.
Proof. intros Hk. unfold bind. destruct (m x); [apply Hk|reflexivity]. Qed.

Lemma bind_not_done (m : Eff S A) (k : A -> Eff S B) (x : S) :
  is_done (m x) = false -> is_done (bind m k x) = false.
Proof. unfold bind. by destruct (m x). Qed.

Lemma bind_Done (m : Eff S A) (k : A -> Eff S B) (x y : S) (b : B) :
  bind m k x = Done b y -> exists a x', m x = Done a x' /\ k a x' = Done b y.
Proof. unfold bind. destruct (m x) as [a x'|]; [eauto|discriminate]. Qed.

Lemma bind_step (m : Eff S A) (k : A -> Eff S B) (x x' : S) (a : A) :
  m x = Done a x' -> bind m k x = k a x'.
Proof. unfold bind. by intros ->. Qed.

Lemma bind_abort (m : Eff S A) (k : A -> Eff S B) (x x' : S) (f : Failure) :
  m x = Abort f x' -> bind m k x = Abort f x'.
Proof. unfold bind. by intros ->. Qed.

End Eff_facts.

(** ** Actions that respect a preorder on states *)

Section Respects.

Context {S : Type} (R : S -> S -> Prop) `{!Reflexive R} `{!Transitive R}.

Lemma respects_ret {A : Type} (a : A) : respects R (ret a).
Proof. intros x. simpl. reflexivity. Qed.

Lemma respects_fail {A : Type} (f : Failure) : respects R (fail (A := A) f).
Proof. intros x. simpl. reflexivity. Qed.

Lemma respects_get : respects R get.
Proof. intros x. simpl. reflexivity. Qed.

Lemma respects_modify (g : S -> S) : (forall x, R x (g x)) -> respects R (modify g).
Proof. intros Hg x. apply Hg. Qed.

Lemma respects_bind {A B : Type} (m : Eff S A) (k : A -> Eff S B) :
  respects R m -> (forall a, respects R (k a)) -> respects R (bind m k).
Proof.
  intros Hm Hk x. unfold bind. specialize (Hm x).
  destruct (m x) as [a y|f y]; simpl in *; [|assumption].
  transitivity y; [assumption|apply Hk].
Qed.

Lemma respects_foreach {A : Type} (l : list A) (body : A -> Eff S unit) :
  (forall a, respects R (body a)) -> respects R (foreach l body).
Proof.
  intros Hbody. induction l as [|a l IH]; [apply respects_ret|].
  cbn [foreach]. apply respects_bind; [apply Hbody|intros _; apply IH].
Qed.

Lemma respects_fold_eff {A B : Type} (body : B -> A -> Eff S B) (l : list A) :
  (forall b a, respects R (body b a)) -> forall acc, respects R (fold_eff body l acc).
Proof.
  intros Hbody. induction l as [|a l IH]; intros acc; [apply respects_ret|].
  cbn [fold_eff]. apply respects_bind; [apply Hbody|intros b; apply IH].
Qed.

Lemma respects_from_option {A : Type} (o : option A) : respects R (from_option o).
Proof. destruct o; [apply respects_ret|apply respects_fail]. Qed.

Lemma respects_assert (c : bool) : respects R (assert c).
Proof. destruct c; [apply respects_ret|apply respects_fail]. Qed.

End Respects.

(** * Properties *)

Section Properties.

Context {WPA : Type} `{!Analysis WPA} `{!Platform WPA}.

Implicit Types (s : Registry WPA) (w : World WPA) (bb : Basic_block) (c : Call).

(** ** Invocations of all the analyses *)

Lemma foreach_invoke c n :
  forall k (pre l : list WPA) t,
    length pre = k -> length l = n ->
    foreach (seq k n) (fun i => invoke i c) (mk_Registry (pre ++ l) t)
    = Done tt (mk_Registry (pre ++ map (apply c) l) (t ++ events k n c)).
Proof.
  induction n as [|n IH]; intros k pre l t Hk Hl.
  - destruct l; [|discriminate]. unfold events. simpl.
    unfold ret. by rewrite !app_nil_r.
  - destruct l as [|x l]; [discriminate|]. simpl in Hl.
    cbn [seq foreach]. unfold bind at 1. unfold invoke at 1, modify. cbn [analyses trace].
    assert (Halter : alter (apply c) k (pre ++ x :: l) = (pre ++ [apply c x]) ++ l).
    { rewrite <- Hk. rewrite <- (Nat.add_0_r (length pre)) at 1.
      rewrite alter_app_r. simpl. by rewrite <- app_assoc. }
    rewrite Halter.
    rewrite (IH (S k) (pre ++ [apply c x]) l); [|rewrite length_app; simpl; lia|lia].
    unfold events. cbn [seq map]. rewrite <- !app_assoc. reflexivity.
Qed.

(** A call made on every analysis reaches each of them once, in order. *)
Lemma broadcast_spec c s :
  broadcast c s
  = Done tt (mk_Registry (map (apply c) (analyses s))
               (trace s ++ events 0 (length (analyses s)) c)).
Proof.
  unfold broadcast, foreach_wpa, bind, get.
  destruct s as [l t]. cbn [analyses trace].
  apply (foreach_invoke c (length l) 0 [] l t); reflexivity.
Qed.

Lemma record_use_spec bb n s :
  record_use bb n s
  = Done tt (mk_Registry
               (map (apply (record_use_call bb (Index_node_name n) POSSIBLE)) (analyses s))
               (trace s ++ events 0 (length (analyses s))
                             (record_use_call bb (Index_node_name n) POSSIBLE))).
Proof. apply broadcast_spec. Qed.

(** ** Resolution of string values (C10) *)

(** A path of the form [P (st, name)] resolves to its one index node, and
    resolving it invokes nothing unless uses are recorded. *)
Lemma get_named_indices_P bb st v s :
  get_named_indices bb (P st v) false s = Done [mk_Index_node st v] s.
Proof. reflexivity. Qed.

(** C10.  For every block and index node, [get_string_values] yields exactly
    one candidate string: the empty string when the constant-propagation
    cell is TOP, the wildcard [UNKNOWN] when it is BOTTOM, and the string
    rendering of the literal when it is a literal cell (any other cell fails
    the checked cast and nothing is returned).  Whenever a list is returned
    it has exactly one element and the analyses are left as they were; as a
    consequence an index given by a variable, under a statically named base,
    resolves to exactly one index node. *)
Theorem get_string_values_one_candidate bb (index : Index_node) s (cell : WPA) :
  analyses s !! ccp = Some cell ->
  get_string_values bb index s
  = match ccp_get_value cell bb (Index_node_name index) with
    | TOP => Done [""] s
    | BOTTOM => Done [UNKNOWN] s
    | Literal_cell value => Done [get_value_as_string value] s
    | Type_cell _ => Abort failed_cast s
    end
  /\ (forall l s', get_string_values bb index s = Done l s' -> length l = 1 /\ s' = s)
  /\ (forall st ns v l s',
        get_named_indices bb (Indexing (ST_path st) (P ns v)) false s = Done l s' ->
        length l = 1).
Proof.
  intros Hccp.
  assert (Hval : forall s0 (x : WPA), analyses s0 !! ccp = Some x ->
            get_string_values bb index s0
            = match ccp_get_value x bb (Index_node_name index) with
              | TOP => Done [""] s0
              | BOTTOM => Done [UNKNOWN] s0
              | Literal_cell value => Done [get_value_as_string value] s0
              | Type_cell _ => Abort failed_cast s0
              end).
  { intros s0 x H0. unfold get_string_values, bind, the. rewrite H0.
    destruct (ccp_get_value x bb (Index_node_name index)); reflexivity. }
  split; [by apply Hval|]. split.
  - intros l s' Hrun. rewrite (Hval _ _ Hccp) in Hrun.
    destruct (ccp_get_value cell bb (Index_node_name index));
      inversion Hrun; subst; auto.
  - intros st ns v l s' Hrun.
    repeat (progress (cbn -[record_use get_string_values set_insert] in Hrun;
                      unfold bind, ret, assert in Hrun)).
    rewrite record_use_spec in Hrun.
    unfold get_string_values, bind, the in Hrun.
    cbn [analyses] in Hrun.
    destruct (map _ (analyses s) !! ccp) as [x|]; [|discriminate].
    destruct (ccp_get_value x bb _);
      cbn in Hrun; try discriminate; inversion Hrun; reflexivity.
Qed.

Lemma lift_never_done {A : Type} (m : Eff (Registry WPA) A) w :
  is_done (m (registry w)) = false -> is_done (lift m w) = false.
Proof. unfold lift. by destruct (m (registry w)). Qed.

(** ** Modelled built-in functions (C9) *)

(** C9.  A method without a body is modelled by a fixed table keyed by its
    name, each entry assigning a type or a literal to the return slot
    [RETNAME] of the modelling block: [apply_modelled_function] does what the
    entry of the name in [modelling_table] says ([strlen] has the type int,
    [print] the literal 1), and a name without an entry is an unimplemented
    case, raised before any analysis is touched, so that the analysis of
    such a summary method never completes. *)
Theorem apply_modelled_function_table (info : Method_info) bb s :
  let ret_name := P (ST bb) RETNAME in
  let name := sig_name (signature info) in
  apply_modelled_function info bb s
  = match modelled name with
    | Some (Model_type t) => assign_typed bb ret_name [t] s
    | Some (Model_literal l) => assign_scalar bb ret_name l s
    | None => Abort TODO s
    end
  /\ modelled "strlen" = Some (Model_type "int")
  /\ modelled "print" = Some (Model_literal (INT 1))
  /\ match modelled name with
     | Some _ => True
     | None =>
         forall summary_cfg fake caller actuals lhs w,
           is_done (analyse_summary info summary_cfg fake caller actuals lhs w) = false
     end.
Proof.
  intros ret_name name.
  assert (Htable : forall b s0, apply_modelled_function info b s0
            = match modelled name with
              | Some (Model_type t) => assign_typed b (P (ST b) RETNAME) [t] s0
              | Some (Model_literal l) => assign_scalar b (P (ST b) RETNAME) l s0
              | None => Abort TODO s0
              end).
  { intros b s0. unfold apply_modelled_function, modelled, modelling_table.
    fold name. cbn [find fst snd].
    rewrite !(String.eqb_sym _ name).
    repeat (destruct (String.eqb name _); [reflexivity|]). reflexivity. }
  split; [apply Htable|]. split; [reflexivity|]. split; [reflexivity|].
  destruct (modelled name) eqn:Hm; [exact I|].
  intros summary_cfg fake caller actuals lhs w.
  unfold analyse_summary.
  do 6 (apply bind_never_done; intros).
  apply bind_not_done, lift_never_done. rewrite Htable. reflexivity.
Qed.

(** ** Successors of a branch (C7) *)

Lemma set_registry_id w : set_registry (registry w) w = w.
Proof. by destruct w. Qed.

Lemma lift_the i w (x : WPA) :
  analyses (registry w) !! i = Some x -> lift (the i) w = Done x w.
Proof. intros H. unfold lift, the. rewrite H. by rewrite set_registry_id. Qed.

Lemma cfg_of_Some name w g : cfgs w !! name = Some g -> cfg_of name w = Done g w.
Proof. intros H. unfold cfg_of. by rewrite H. Qed.

(** C7.  When the successors of a changed Branch block are pushed, exactly
    the feasible branch edges are pushed: the true edge alone when constant
    propagation knows the condition to be true, the false edge alone when it
    knows it to be false, and both (the false edge first) when it knows
    neither; nothing else changes. *)
Theorem get_branch_successors_feasible bb (v : string) w (g : CFG) (x : WPA)
    (te fe : Edge_ref) :
  cfgs w !! cfg bb = Some g ->
  analyses (registry w) !! ccp = Some x ->
  get_true_successor_edge g bb = Some te ->
  get_false_successor_edge g bb = Some fe ->
  let cond := Index_node_name (VN (ST bb) v) in
  get_branch_successors bb v w
  = Done (match branch_known_true x bb cond, branch_known_false x bb cond with
          | true, false => [te]
          | false, true => [fe]
          | false, false => [fe; te]
          | true, true => []
          end) w
  /\ (kind bb = Branch_block v -> successors_to_push bb w = get_branch_successors bb v w).
Proof.
  intros Hg Hccp Hte Hfe cond. split.
  - unfold get_branch_successors. fold cond.
    rewrite (bind_step _ _ _ _ _ (cfg_of_Some _ _ _ Hg)).
    rewrite (bind_step _ _ _ _ _ (lift_the _ _ _ Hccp)).
    rewrite Hte, Hfe.
    destruct (branch_known_true x bb cond), (branch_known_false x bb cond); reflexivity.
  - intros Hk. unfold successors_to_push. by rewrite Hk.
Qed.

(** ** Kill certainty (C3) *)

Lemma foreach_broadcast (cs : list Call) s :
  foreach cs broadcast s = Done tt (after_calls cs s).
Proof.
  revert s. induction cs as [|c0 cs IH]; intros s.
  - unfold after_calls. destruct s as [l t]. simpl. unfold ret. by rewrite map_id, app_nil_r.
  - cbn [foreach]. rewrite (bind_step _ _ _ _ _ (broadcast_spec c0 s)).
    rewrite IH. unfold after_calls. cbn [analyses trace flat_map apply_all fold_left].
    rewrite length_map, map_map, <- app_assoc. reflexivity.
Qed.

Lemma foreach_map {S X Y : Type} (g : X -> Y) (body : Y -> Eff S unit) (l : list X) :
  foreach (map g l) body = foreach l (fun x => body (g x)).
Proof. induction l as [|x l IH]; [reflexivity|]. cbn [map foreach]. by rewrite IH. Qed.

Lemma foreach_app {S X : Type} (body : X -> Eff S unit) (l1 l2 : list X) (x : S) :
  foreach (l1 ++ l2) body x = (foreach l1 body >> foreach l2 body) x.
Proof.
  revert x. induction l1 as [|y l1 IH]; intros x; [reflexivity|].
  cbn [app foreach]. unfold bind. destruct (body y x) as [[] x'|]; [|reflexivity].
  rewrite IH. reflexivity.
Qed.

Lemma is_must_spec (l : list Index_node) s :
  is_must l s
  = match l with
    | [] => Abort assertion_failure s
    | [_] => Done true s
    | _ :: _ :: _ => Done false s
    end.
Proof. by destruct l as [|? [|? ?]]. Qed.

Lemma the_Some i s (x : WPA) : analyses s !! i = Some x -> the i s = Done x s.
Proof. intros H. unfold the. by rewrite H. Qed.

Lemma kill_value_of_spec bb (resolve : Eff (Registry WPA) (list Index_node)) s
    (lhss : list Index_node) s1 :
  resolve s = Done lhss s1 ->
  kill_value_of bb resolve s
  = match lhss with
    | [] => Abort assertion_failure s1
    | [lhs] =>
        match analyses s1 !! aliasing with
        | Some a => Done DEFINITE (after_calls (kill_calls a bb lhs) s1)
        | None => Abort null_dereference s1
        end
    | _ :: _ :: _ => Done POSSIBLE s1
    end.
Proof.
  intros Hres. unfold kill_value_of.
  rewrite (bind_step _ _ _ _ _ Hres).
  destruct lhss as [|lhs [|n2 rest]].
  - apply bind_abort. apply is_must_spec.
  - rewrite (bind_step _ _ _ _ _ (is_must_spec [lhs] s1)). cbn [negb].
    destruct (analyses s1 !! aliasing) as [a|] eqn:Ha.
    + rewrite (bind_step _ _ _ _ _ (the_Some _ _ _ Ha)).
      pose proof (foreach_broadcast (kill_calls a bb lhs) s1) as Hall.
      unfold kill_calls in Hall. rewrite foreach_map, foreach_app in Hall.
      cbn [foreach] in Hall. unfold bind in Hall. unfold bind.
      destruct (foreach (get_references a bb lhs DEFINITE) _ s1) as [[] s2|]; [|discriminate].
      destruct (broadcast (kill_value_call bb (Index_node_name lhs)) s2) as [[] s3|];
        [|discriminate].
      unfold ret in *. unfold kill_calls. congruence.
    + apply bind_abort. unfold the. by rewrite Ha.
  - rewrite (bind_step _ _ _ _ _ (is_must_spec (lhs :: n2 :: rest) s1)). reflexivity.
Qed.

(** ** The pull phase (C4) *)

Lemma foreach_ext {S X : Type} (f g : X -> Eff S unit) (l : list X) (x : S) :
  (forall y (z : S), f y z = g y z) -> foreach l f x = foreach l g x.
Proof.
  intros Hfg. revert x. induction l as [|y l IH]; intros x; [reflexivity|].
  cbn [foreach]. unfold bind. rewrite Hfg. destruct (g y x); [apply IH|reflexivity].
Qed.

(** A loop over the analyses whose body, for the [i]-th analysis, applies
    [F] to it and emits [ev i]. *)
Lemma foreach_sessions (body : nat -> Eff (Registry WPA) unit) (F : WPA -> WPA)
    (ev : nat -> list (nat * Call)) :
  (forall i s, body i s = Done tt (mk_Registry (alter F i (analyses s)) (trace s ++ ev i))) ->
  forall n k (pre l : list WPA) t,
    length pre = k -> length l = n ->
    foreach (seq k n) body (mk_Registry (pre ++ l) t)
    = Done tt (mk_Registry (pre ++ map F l) (t ++ flat_map ev (seq k n))).
Proof.
  intros Hbody. induction n as [|n IH]; intros k pre l t Hk Hl.
  - destruct l; [|discriminate]. simpl. unfold ret. by rewrite !app_nil_r.
  - destruct l as [|x l]; [discriminate|]. simpl in Hl.
    cbn [seq foreach flat_map]. unfold bind at 1. rewrite Hbody. cbn [analyses trace].
    assert (Halter : alter F k (pre ++ x :: l) = (pre ++ [F x]) ++ l).
    { rewrite <- Hk. rewrite <- (Nat.add_0_r (length pre)) at 1.
      rewrite alter_app_r. simpl. by rewrite <- app_assoc. }
    rewrite Halter.
    rewrite (IH (S k) (pre ++ [F x]) l); [|rewrite length_app; simpl; lia|lia].
    cbn [map]. rewrite <- !app_assoc. reflexivity.
Qed.

Lemma foreach_wpa_sessions (body : nat -> Eff (Registry WPA) unit) (cs : list Call) s :
  (forall i s0, body i s0
     = Done tt (mk_Registry (alter (apply_all cs) i (analyses s0))
                  (trace s0 ++ map (fun c => (i, c)) cs))) ->
  foreach_wpa body s = Done tt (after_sessions cs s).
Proof.
  intros Hbody. unfold foreach_wpa, bind, get, after_sessions.
  destruct s as [l t]. cbn [analyses trace].
  apply (foreach_sessions body (apply_all cs) (fun i => map (fun c => (i, c)) cs) Hbody
           (length l) 0 [] l t); reflexivity.
Qed.

Lemma invoke_spec i c s :
  invoke i c s = Done tt (mk_Registry (alter (apply c) i (analyses s)) (trace s ++ [(i, c)])).
Proof. reflexivity. Qed.

Lemma alter_apply_all (cs : list Call) c i (l : list WPA) :
  alter (apply_all cs) i (alter (apply c) i l) = alter (apply_all (c :: cs)) i l.
Proof. rewrite list_alter_alter_eq. reflexivity. Qed.

Lemma alter_apply_nil i (l : list WPA) : alter (apply_all []) i l = l.
Proof. by apply list_alter_id. Qed.

(** Non-executable predecessor edges are skipped. *)
Lemma pull_preds_filter (g : CFG) i bb (preds : list Edge) :
  forall first s,
    pull_preds g i bb preds first s
    = pull_preds g i bb (filter (fun e => is_executable e = true) preds) first s.
Proof.
  induction preds as [|pred preds IH]; intros first s; [reflexivity|].
  rewrite filter_cons. cbn [pull_preds].
  destruct (is_executable pred) eqn:Hex; cbn [negb].
  - rewrite decide_True by reflexivity. cbn [pull_preds]. rewrite Hex. cbn [negb].
    unfold bind. destruct (from_option _ s); [|reflexivity].
    destruct first; (match goal with |- context [invoke ?i ?c ?x] =>
                       destruct (invoke i c x) end; [apply IH|reflexivity]).
  - rewrite decide_False by discriminate. apply IH.
Qed.

Lemma pull_preds_spec (g : CFG) i bb (preds : list Edge) :
  forall first (srcs : list Basic_block) s,
    executable_sources g preds = Some srcs ->
    pull_preds g i bb preds first s
    = Done tt (mk_Registry (alter (apply_all (pred_calls bb first srcs)) i (analyses s))
                 (trace s ++ map (fun c => (i, c)) (pred_calls bb first srcs))).
Proof.
  unfold executable_sources.
  induction preds as [|pred preds IH]; intros first srcs s Hsrcs.
  - simpl in Hsrcs. injection Hsrcs as <-. cbn [pull_preds pred_calls map].
    rewrite alter_apply_nil, app_nil_r. by destruct s.
  - rewrite filter_cons in Hsrcs. cbn [pull_preds].
    destruct (is_executable pred) eqn:Hex; cbn [negb].
    + rewrite decide_True in Hsrcs by reflexivity. cbn [mapM] in Hsrcs.
      destruct (get_bb g (source pred)) as [b|] eqn:Hb; [|discriminate].
      cbn in Hsrcs.
      destruct (mapM _ (filter _ preds)) as [bs|] eqn:Hbs; [|discriminate].
      cbn in Hsrcs. injection Hsrcs as <-.
      cbn [from_option]. unfold bind at 1. unfold ret at 1.
      assert (Hrest : forall c s0,
                (invoke i c >> pull_preds g i bb preds false) s0
                = Done tt (mk_Registry
                             (alter (apply_all (c :: map (pull_pred_call bb) bs)) i (analyses s0))
                             (trace s0 ++ (i, c) :: map (fun c => (i, c))
                                                        (map (pull_pred_call bb) bs)))).
      { intros c0 s0. unfold bind. rewrite invoke_spec.
        rewrite (IH false bs _ eq_refl). cbn [analyses trace].
        rewrite <- app_assoc.
        destruct bs as [|b' bs]; cbn [pred_calls map app].
        - rewrite alter_apply_nil. reflexivity.
        - rewrite alter_apply_all. reflexivity. }
      destruct first; cbn [pred_calls map]; apply Hrest.
    + rewrite decide_False in Hsrcs by discriminate. by apply IH.
Qed.

Lemma get_bb_ext (g g' : CFG) id : all_bbs g = all_bbs g' -> get_bb g id = get_bb g' id.
Proof. unfold get_bb. by intros ->. Qed.

Lemma pull_preds_ext (g g' : CFG) i bb (preds : list Edge) :
  all_bbs g = all_bbs g' ->
  forall first s, pull_preds g i bb preds first s = pull_preds g' i bb preds first s.
Proof.
  intros Hbbs. induction preds as [|pred preds IH]; intros first s; [reflexivity|].
  cbn [pull_preds]. destruct (negb (is_executable pred)); [apply IH|].
  rewrite (get_bb_ext g g' _ Hbbs). unfold bind.
  destruct (from_option _ s); [|reflexivity].
  destruct first; (match goal with |- context [invoke ?i ?c ?x] =>
                     destruct (invoke i c x) end; [apply IH|reflexivity]).
Qed.

Lemma pull_from_filter (g g' : CFG) bb (preds preds' : list Edge) s :
  all_bbs g = all_bbs g' ->
  filter (fun e => is_executable e = true) preds
  = filter (fun e => is_executable e = true) preds' ->
  pull_from g bb preds s = pull_from g' bb preds' s.
Proof.
  intros Hbbs Hf. unfold pull_from, foreach_wpa, bind at 1 3, get.
  apply foreach_ext. intros i z. unfold bind.
  destruct (invoke i (pull_init_call bb) z) as [[] z'|]; [|reflexivity].
  rewrite (pull_preds_filter g), Hf, <- (pull_preds_filter g), (pull_preds_ext g g' _ _ _ Hbbs).
  reflexivity.
Qed.

Lemma lift_registry {X : Type} (m : Eff (Registry WPA) X) w :
  registry (final_state (lift m w)) = final_state (m (registry w))
  /\ failure_of (lift m w) = failure_of (m (registry w)).
Proof. unfold lift. by destruct (m (registry w)), w. Qed.

(** An executable edge whose source block is not in the graph stops the
    phase. *)
Lemma pull_preds_dangling (g : CFG) i bb (preds : list Edge) :
  executable_sources g preds = None ->
  forall first s, failure_of (pull_preds g i bb preds first s) = Some null_dereference.
Proof.
  unfold executable_sources.
  induction preds as [|pred preds IH]; intros Hsrcs first s; [discriminate|].
  rewrite filter_cons in Hsrcs. cbn [pull_preds].
  destruct (is_executable pred) eqn:Hex; cbn [negb].
  - rewrite decide_True in Hsrcs by reflexivity. cbn [mapM] in Hsrcs.
    destruct (get_bb g (source pred)) as [b|] eqn:Hb; [|reflexivity].
    cbn in Hsrcs.
    destruct (mapM _ (filter _ preds)) as [bs|] eqn:Hbs; [discriminate|].
    cbn [from_option]. unfold bind at 1. unfold ret at 1.
    destruct first; unfold bind; rewrite invoke_spec; by apply IH.
  - rewrite decide_False in Hsrcs by discriminate. by apply IH.
Qed.

(** C4.  The pull phase of a block folds, for every analysis, exactly the
    executable predecessor edges: the analysis is initialised, the source of
    the first executable edge seeds the state, the source of every later
    executable edge is merged, and the analysis is finished.  Edges that are
    not executable contribute nothing: the phase is the same on the
    executable edges alone, and removing a non-executable edge from the graph
    leaves the outcome as it was.  [pull_results] runs this phase on the
    predecessor edges of the block in the graph that owns it, and changes
    nothing but the analyses: it completes in the state in which every
    analysis has received exactly these calls (it stops at once when the
    block has no graph, and in the first analysis when an executable edge
    has no source block). *)
Theorem pull_results_executable_predecessors bb (g : CFG) (preds : list Edge) s :
  pull_from g bb preds s
  = pull_from g bb (filter (fun e => is_executable e = true) preds) s
  /\ match executable_sources g preds with
     | Some srcs => pull_from g bb preds s = Done tt (after_sessions (pull_calls bb srcs) s)
     | None => True
     end
  /\ (forall w (bbs : list Basic_block) (es1 es2 : list Edge) (e : Edge),
       cfgs w !! cfg bb = Some (mk_CFG bbs (es1 ++ e :: es2)) ->
       is_executable e = false ->
       let w' := set_cfgs (<[cfg bb := mk_CFG bbs (es1 ++ es2)]> (cfgs w)) w in
       registry (final_state (pull_results bb w')) = registry (final_state (pull_results bb w))
       /\ failure_of (pull_results bb w') = failure_of (pull_results bb w))
  /\ forall w,
       match cfgs w !! cfg bb with
       | None => pull_results bb w = Abort null_dereference w
       | Some g0 =>
           match executable_sources g0 (get_predecessor_edges g0 bb) with
           | Some srcs =>
               pull_results bb w
               = Done tt (set_registry (after_sessions (pull_calls bb srcs) (registry w)) w)
           | None =>
               analyses (registry w) <> [] ->
               failure_of (pull_results bb w) = Some null_dereference
           end
       end.
Proof.
  assert (Hfold : forall (g0 : CFG) (preds0 : list Edge) s0 srcs,
            executable_sources g0 preds0 = Some srcs ->
            pull_from g0 bb preds0 s0 = Done tt (after_sessions (pull_calls bb srcs) s0)).
  { intros g0 preds0 s0 srcs Hsrcs.
    unfold pull_from, pull_calls. apply foreach_wpa_sessions. intros i s1.
    unfold bind. rewrite invoke_spec.
    rewrite (pull_preds_spec g0 i bb preds0 true srcs _ Hsrcs). rewrite invoke_spec.
    cbn [analyses trace]. f_equal. f_equal.
    + rewrite !list_alter_alter_eq. apply list_alter_ext; [|reflexivity].
      intros x _. unfold apply_all. cbn [fold_left]. rewrite fold_left_app. reflexivity.
    + rewrite <- !app_assoc. cbn [map app]. rewrite map_app. reflexivity. }
  split; [|split; [|split]].
  - apply pull_from_filter; [reflexivity|]. by rewrite list_filter_filter_l.
  - destruct (executable_sources g preds) as [srcs|] eqn:Hsrcs; [by apply Hfold|exact I].
  - intros w bbs es1 es2 e Hg Hex w'.
    set (g1 := mk_CFG bbs (es1 ++ e :: es2)) in *.
    set (g2 := mk_CFG bbs (es1 ++ es2)) in *.
    assert (Hw' : cfgs w' !! cfg bb = Some g2).
    { unfold w'. destruct w. cbn. apply lookup_insert_eq. }
    unfold pull_results.
    rewrite (bind_step _ _ _ _ _ (cfg_of_Some _ _ _ Hw')).
    rewrite (bind_step _ _ _ _ _ (cfg_of_Some _ _ _ Hg)).
    pose proof (lift_registry (pull_from g2 bb (get_predecessor_edges g2 bb)) w') as [-> ->].
    pose proof (lift_registry (pull_from g1 bb (get_predecessor_edges g1 bb)) w) as [-> ->].
    assert (Hreg : registry w' = registry w) by (unfold w'; by destruct w).
    rewrite Hreg.
    rewrite (pull_from_filter g2 g1 bb (get_predecessor_edges g2 bb)
               (get_predecessor_edges g1 bb));
      [split; reflexivity|reflexivity|].
    unfold get_predecessor_edges, g1, g2. cbn [all_edges].
    rewrite !filter_app, !filter_cons.
    destruct (decide (Nat.eqb (edge_target e) (ID bb) = true)); [|reflexivity].
    rewrite filter_cons, decide_False; [reflexivity|]. rewrite Hex. discriminate.
  - intros w. unfold pull_results. destruct (cfgs w !! cfg bb) as [g0|] eqn:Hg0.
    + rewrite (bind_step _ _ _ _ _ (cfg_of_Some _ _ _ Hg0)).
      destruct (executable_sources g0 (get_predecessor_edges g0 bb)) as [srcs|] eqn:Hsrcs.
      * unfold lift. by rewrite (Hfold _ _ _ _ Hsrcs).
      * intros Hne.
        rewrite (proj2 (lift_registry _ w)).
        unfold pull_from, foreach_wpa, bind at 1, get.
        destruct (analyses (registry w)) as [|a l]; [done|].
        cbn [length seq foreach]. unfold bind at 1. unfold bind at 1.
        rewrite invoke_spec. unfold bind at 1.
        pose proof (pull_preds_dangling g0 0 bb _ Hsrcs true) as Hd.
        match goal with |- context [pull_preds g0 0 bb ?p true ?x] =>
          specialize (Hd x); destruct (pull_preds g0 0 bb p true x) end;
          [discriminate|exact Hd].
    + apply bind_abort. unfold cfg_of. by rewrite Hg0.
Qed.

(** ** The category check of a copy (C2) *)

(** The check of [assign_by_copy] holds when exactly one category is
    inhabited, as intended, and also when all three are. *)
Lemma one_category_spec (scalars array objects : Types) :
  one_category scalars array objects
  = match nonempty scalars, nonempty array, nonempty objects with
    | true, false, false | false, true, false | false, false, true => true
    | true, true, true => true
    | _, _, _ => false
    end.
Proof.
  unfold one_category.
  by destruct (nonempty scalars), (nonempty array), (nonempty objects).
Qed.

(** ** One step of the worklist (C6) *)

Lemma cfg_of_inv name w (g : CFG) w1 :
  cfg_of name w = Done g w1 -> w1 = w /\ cfgs w !! name = Some g.
Proof. unfold cfg_of. destruct (cfgs w !! name); [|discriminate]. by intros [= -> ->]. Qed.

Lemma from_option_inv {S X : Type} (o : option X) (x y : S) (a : X) :
  from_option o x = Done a y -> y = x /\ o = Some a.
Proof. destruct o; [|discriminate]. by intros [= -> ->]. Qed.

Lemma lift_the_inv i w (x : WPA) w1 : lift (the i) w = Done x w1 -> w1 = w.
Proof.
  unfold lift, the. destruct (analyses (registry w) !! i); [|discriminate].
  intros [= _ <-]. apply set_registry_id.
Qed.

Lemma get_target_inv e w tgt w1 : get_target e w = Done tgt w1 -> w1 = w.
Proof.
  unfold get_target. destruct (cfgs w !! e.1) as [g|]; [|discriminate].
  destruct (all_edges g !! e.2) as [ed|]; [|discriminate].
  intros H. by apply from_option_inv in H as [-> _].
Qed.

(** Reading the successors of a block changes nothing. *)
Lemma get_branch_successors_reads bb v w l w1 :
  get_branch_successors bb v w = Done l w1 -> w1 = w.
Proof.
  unfold get_branch_successors. intros H.
  apply bind_Done in H as (g & x1 & Hg & H). apply cfg_of_inv in Hg as [-> _].
  apply bind_Done in H as (x & x2 & Hc & H). apply lift_the_inv in Hc as ->.
  apply bind_Done in H as (l1 & x3 & H1 & H).
  apply bind_Done in H as (l2 & x4 & H2 & H).
  injection H as _ <-.
  assert (Hx3 : x3 = w).
  { destruct (negb _); [|by injection H1].
    apply bind_Done in H1 as (? & ? & He & H1). apply from_option_inv in He as [-> _].
    by injection H1. }
  subst x3.
  destruct (negb (branch_known_false _ _ _)); [|by injection H2].
  apply bind_Done in H2 as (? & ? & He & H2). apply from_option_inv in He as [-> _].
  by injection H2.
Qed.

Lemma successors_to_push_reads bb w l w1 : successors_to_push bb w = Done l w1 -> w1 = w.
Proof.
  unfold successors_to_push. intros H.
  assert (Hplain :
            (do g <- cfg_of (cfg bb);
             do e <- from_option (head (get_successor_edges g bb)); ret [e]) w = Done l w1 ->
            w1 = w).
  { intros H0. apply bind_Done in H0 as (g & x1 & Hg & H0). apply cfg_of_inv in Hg as [-> _].
    apply bind_Done in H0 as (? & ? & He & H0). apply from_option_inv in He as [-> _].
    by injection H0. }
  destruct (kind bb); auto.
  - by injection H.
  - by apply get_branch_successors_reads in H.
Qed.

(** [analyse_block] reports whether some analysis says that its solution at
    the block has changed. *)
Lemma analyse_block_changed (visit : Basic_block -> Eff (World WPA) unit) bb w b w1 :
  analyse_block visit bb w = Done b w1 ->
  b = existsb (fun wpa => solution_changed wpa bb) (analyses (registry w1)).
Proof.
  unfold analyse_block. intros H.
  apply bind_Done in H as (? & x1 & _ & H).
  apply bind_Done in H as (? & x2 & _ & H).
  apply bind_Done in H as (? & x3 & _ & H).
  unfold lift, bind, get, ret in H. injection H as <- <-. by destruct x3.
Qed.

(** C6 (as amended).  After the target of a popped edge has been analysed,
    its successors are pushed if and only if the popped edge was not yet
    executable when it was popped (the first pass over it) or some analysis
    reports that its solution at the target has changed.  What is pushed is
    then what [successors_to_push] gives for the target, at the back of the
    worklist; otherwise the worklist is left as the pop left it. *)
Theorem worklist_step_pushes (visit : Basic_block -> Eff (World WPA) unit)
    (e : Edge_ref) (cfg_wl : list Edge_ref) w (changed : bool)
    (cfg_wl' : list Edge_ref) w' :
  worklist_step visit e cfg_wl w = Done (changed, cfg_wl') w' ->
  exists tgt,
    get_target e w = Done tgt w
    /\ changed
       = negb (executable w e)
         || existsb (fun wpa => solution_changed wpa tgt) (analyses (registry w'))
    /\ (changed = false -> cfg_wl' = cfg_wl)
    /\ (changed = true ->
        exists pushed, successors_to_push tgt w' = Done pushed w' /\ cfg_wl' = cfg_wl ++ pushed).
Proof.
  unfold worklist_step. intros H.
  unfold bind at 1, get in H.
  apply bind_Done in H as ([] & w1 & Hmark & H).
  apply bind_Done in H as (tgt & w1' & Htgt & H).
  pose proof (get_target_inv _ _ _ _ Htgt) as ->.
  apply bind_Done in H as (b & w2 & Hblock & H).
  pose proof (analyse_block_changed _ _ _ _ _ Hblock) as Hb.
  exists tgt. split.
  { unfold mark, modify in Hmark. injection Hmark as <-.
    revert Htgt. unfold get_target, set_cfgs. destruct w as [r o cs se st]. cbn [cfgs].
    rewrite lookup_alter. destruct e as [n i]. cbn [fst snd].
    case_decide; [|congruence].
    destruct (cs !! n) as [g|]; [|discriminate]. cbn [fmap option_fmap option_map all_edges].
    rewrite list_lookup_alter_eq. destruct (all_edges g !! i) as [ed|]; [|discriminate].
    cbn [fmap option_fmap option_map set_is_executable edge_target].
    unfold get_bb. cbn [all_bbs].
    destruct (find _ (all_bbs g)); [|discriminate]. by intros [= ->]. }
  destruct (negb (executable w e) || b) eqn:Hc.
  - apply bind_Done in H as (pushed & w3 & Hpush & H).
    pose proof (successors_to_push_reads _ _ _ _ Hpush) as ->.
    injection H as <- <- <-. subst b. repeat split; try done. eauto.
  - injection H as <- <- <-. subst b. repeat split; done.
Qed.

(** ** The first whole-program pass (C1) *)

#[local] Instance same_component_refl {S X : Type} (proj : S -> X) :
  Reflexive (fun x y : S => proj y = proj x).
Proof. intros x. reflexivity. Qed.

#[local] Instance same_component_trans {S X : Type} (proj : S -> X) :
  Transitive (fun x y : S => proj y = proj x).
Proof. intros x y z Hxy Hyz. congruence. Qed.

Lemma keeps_lift {X A : Type} (proj : World WPA -> X) (m : Eff (Registry WPA) A) :
  (forall r w, proj (set_registry r w) = proj w) -> keeps proj (lift m).
Proof. intros Hproj w. unfold lift. destruct (m (registry w)); apply Hproj. Qed.

Lemma keeps_cfg_of {X : Type} (proj : World WPA -> X) name : keeps proj (cfg_of name).
Proof. intros w. unfold cfg_of. by destruct (cfgs w !! name). Qed.

Lemma keeps_get_target {X : Type} (proj : World WPA -> X) e : keeps proj (get_target e).
Proof.
  intros w. unfold get_target. destruct (cfgs w !! e.1) as [g|]; [|reflexivity].
  destruct (all_edges g !! e.2) as [ed|]; [|reflexivity].
  by destruct (get_bb g (edge_target ed)).
Qed.

(** Decompose a goal [keeps proj m] along the structure of [m]. *)
Ltac keeps_tac :=
  repeat
    first
      [ progress intros
      | progress cbv zeta
      | match goal with H : _ |- _ => solve [apply H; assumption] end
      | apply (respects_ret _)
      | apply (respects_fail _)
      | apply (respects_get _)
      | apply (respects_from_option _)
      | apply (respects_assert _)
      | apply keeps_cfg_of
      | apply keeps_get_target
      | apply keeps_lift; intros ? ?; reflexivity
      | apply (respects_modify _); intros [? ? ? ? ?]; cbn;
        repeat match goal with |- context [match ?x with _ => _ end] => destruct x end;
        reflexivity
      | apply (respects_bind _)
      | apply (respects_foreach _)
      | match goal with
        | |- keeps _ (match ?x with _ => _ end) => destruct x
        | |- respects _ (match ?x with _ => _ end) => destruct x
        | |- keeps _ _ => unfold keeps
        end ].

Lemma keeps_old_pull_results bb : keeps old_analyses (pull_results bb).
Proof. unfold pull_results. keeps_tac. Qed.

Lemma keeps_old_get_branch_successors bb v :
  keeps old_analyses (get_branch_successors bb v).
Proof. unfold get_branch_successors. keeps_tac. Qed.

Lemma keeps_old_successors_to_push bb : keeps old_analyses (successors_to_push bb).
Proof.
  unfold successors_to_push. pose proof keeps_old_get_branch_successors. keeps_tac.
Qed.

Lemma keeps_old_worklist_step (visit : Basic_block -> Eff (World WPA) unit) e wl :
  (forall bb, keeps old_analyses (visit bb)) ->
  keeps old_analyses (worklist_step visit e wl).
Proof.
  intros Hvisit. unfold worklist_step, analyse_block, mark.
  pose proof keeps_old_pull_results. pose proof keeps_old_successors_to_push.
  keeps_tac.
Qed.

Lemma keeps_old_worklist_loop (visit : Basic_block -> Eff (World WPA) unit) fuel :
  (forall bb, keeps old_analyses (visit bb)) ->
  forall wl, keeps old_analyses (worklist_loop visit fuel wl).
Proof.
  intros Hvisit. induction fuel as [|fuel IH]; intros [|e wl]; cbn [worklist_loop];
    pose proof (keeps_old_worklist_step visit); keeps_tac.
Qed.

Lemma keeps_old_analyse_function (visit : Basic_block -> Eff (World WPA) unit) fuel info
    caller actuals lhs :
  (forall bb, keeps old_analyses (visit bb)) ->
  keeps old_analyses (analyse_function visit fuel info caller actuals lhs).
Proof.
  intros Hvisit. unfold analyse_function, reset_edges.
  pose proof (keeps_old_worklist_loop visit fuel Hvisit). keeps_tac.
Qed.

Lemma keeps_old_visit_block
    (cb : Method_invocation -> option Basic_block -> option string -> Eff (World WPA) unit) bb :
  (forall mi ctx lhs, keeps old_analyses (cb mi ctx lhs)) ->
  keeps old_analyses (visit_block cb bb).
Proof.
  intros Hcb. unfold visit_block, visit_statement, visit_assign_var, visit_expr.
  keeps_tac.
Qed.

Lemma keeps_old_analyse_summary info g fake caller actuals lhs :
  keeps old_analyses (analyse_summary info g fake caller actuals lhs).
Proof.
  unfold analyse_summary, ensure_cfg. pose proof keeps_old_pull_results. keeps_tac.
Qed.

Lemma keeps_old_invoke_method fuel :
  forall mi ctx lhs, keeps old_analyses (invoke_method fuel mi ctx lhs).
Proof.
  induction fuel as [|fuel IH]; intros mi ctx lhs; cbn [invoke_method]; [keeps_tac|].
  pose proof (fun bb => keeps_old_visit_block (invoke_method fuel) bb IH) as Hvisit.
  pose proof (fun info ctx0 acts l =>
                keeps_old_analyse_function (visit_block (invoke_method fuel)) fuel info
                  ctx0 acts l Hvisit).
  pose proof keeps_old_analyse_summary.
  unfold get_possible_receivers, ensure_cfg. keeps_tac.
Qed.

Lemma keeps_old_optimize_methods : keeps old_analyses optimize_methods.
Proof.
  assert (Hupd : forall name (f : list WPA -> CFG -> CFG),
            keeps old_analyses (update_cfg name f)).
  { intros. unfold update_cfg. keeps_tac. }
  assert (Hsum : forall name, keeps (@old_analyses WPA) (generate_summary name)).
  { intros. unfold generate_summary. keeps_tac. }
  assert (Hopt : forall n name, keeps (@old_analyses WPA) (optimize_function n name)).
  { induction n as [|n IH]; intros name; cbn [optimize_function];
      unfold perform_local_optimizations, perform_interprocedural_optimizations; keeps_tac. }
  unfold optimize_methods, merge_contexts, apply_results. keeps_tac.
Qed.

(** [initialize] saves the analyses of the previous pass. *)
Lemma initialize_spec w :
  initialize w
  = Done tt (mk_World
               (mk_Registry [new_Debug_WPA; new_Aliasing; new_Callgraph; new_CCP;
                             new_Def_use; new_Type_inference]
                            (trace (registry w)))
               (analyses (registry w)) (cfgs w) (side_effecting w) (statements w)).
Proof. reflexivity. Qed.

Lemma whole_program_pass_old fuel w :
  old_analyses (final_state (whole_program_pass fuel w)) = analyses (registry w).
Proof.
  unfold whole_program_pass.
  rewrite (bind_step _ _ _ _ _ (initialize_spec w)).
  match goal with |- old_analyses (final_state (?m ?x)) = _ =>
    assert (Hkeep : keeps old_analyses m) end.
  { pose proof keeps_old_invoke_method. pose proof keeps_old_optimize_methods. keeps_tac. }
  rewrite Hkeep. reflexivity.
Qed.

Lemma whole_program_passes_S fuel n k :
  whole_program_passes fuel (S n) k
  = (whole_program_pass fuel >>
     do converged <- analyses_have_converged;
     if converged then ret (S k)
     else (if Nat.eqb k 9 then phc_TODO else ret tt) >> whole_program_passes fuel n (S k)).
Proof. reflexivity. Qed.

Lemma whole_program_passes_count fuel n :
  forall k w passes w',
    whole_program_passes fuel n k w = Done passes w' -> k <= passes.
Proof.
  induction n as [|n IH]; intros k w passes w' H; cbn [whole_program_passes] in H.
  - injection H as <- _. lia.
  - apply bind_Done in H as (? & w1 & _ & H).
    apply bind_Done in H as (converged & w2 & _ & H).
    destruct converged.
    + injection H as <- _. lia.
    + apply bind_Done in H as (? & w3 & _ & H). apply IH in H. lia.
Qed.

Lemma whole_program_passes_count_S fuel n k w passes w' :
  whole_program_passes fuel (S n) k w = Done passes w' -> S k <= passes.
Proof.
  rewrite whole_program_passes_S. intros H.
  apply bind_Done in H as (? & w1 & _ & H).
  apply bind_Done in H as (converged & w2 & _ & H).
  destruct converged.
  - injection H as <- _. lia.
  - apply bind_Done in H as (? & w3 & _ & H).
    by apply whole_program_passes_count in H.
Qed.

(** C1 (as amended).  The convergence test that follows the first
    whole-program pass always reports that the analyses have not converged:
    there is no snapshot of a previous pass to compare with, whatever the
    program and its call graph.  A run that completes has therefore made at
    least two passes; from the second pass on the test compares every
    analysis with its snapshot, in order, and reports convergence exactly when
    all are equal. *)
Theorem first_pass_never_converges (fuel : nat) w :
  whole_program_pass fuel new_Whole_program = Done tt w ->
  analyses_have_converged w = Done false w
  /\ (forall passes w', run fuel new_Whole_program = Done passes w' -> 2 <= passes)
  /\ (forall w0 : World WPA,
        old_analyses w0 <> [] ->
        analyses_have_converged w0
        = from_option (all_equal (analyses (registry w0)) (old_analyses w0)) w0).
Proof.
  intros Hpass.
  assert (Hfirst : forall w1, whole_program_pass fuel new_Whole_program = Done tt w1 ->
                              analyses_have_converged w1 = Done false w1).
  { intros w1 H1. pose proof (whole_program_pass_old fuel new_Whole_program) as Hold.
    rewrite H1 in Hold. cbn in Hold.
    unfold analyses_have_converged, bind, get. by rewrite Hold. }
  split; [by apply Hfirst|]. split.
  - intros passes w' Hrun. unfold run in Hrun.
    apply bind_Done in Hrun as (n & w1 & Hloop & Hrun).
    apply bind_Done in Hrun as (? & w2 & _ & Hrun).
    apply bind_Done in Hrun as (? & w3 & _ & Hrun).
    injection Hrun as <- _.
    rewrite whole_program_passes_S in Hloop.
    apply bind_Done in Hloop as ([] & w4 & Hp & Hloop).
    rewrite (bind_step _ _ _ _ _ (Hfirst _ Hp)) in Hloop.
    apply bind_Done in Hloop as (? & w5 & _ & Hloop).
    by apply whole_program_passes_count_S in Hloop.
  - intros w0 Hold. unfold analyses_have_converged, bind, get.
    destruct (old_analyses w0); [done|reflexivity].
Qed.

(** ** Executable edges (C5) *)

Lemma executable_ext w w' (n : string) (i : nat) :
  cfgs w !! n = cfgs w' !! n -> executable w (n, i) = executable w' (n, i).
Proof. unfold executable, lookup_edge. cbn [fst snd]. by intros ->. Qed.

Lemma cfgs_mark e b w :
  cfgs (final_state (mark e b w))
  = alter (fun g => mk_CFG (all_bbs g) (alter (set_is_executable b) e.2 (all_edges g)))
          e.1 (cfgs w).
Proof. by destruct w. Qed.

(** Marking an edge executable clears no flag, and sets the flag of the
    edge. *)
Lemma executable_mark e w (e0 : Edge_ref) :
  executable w e0 = true -> executable (final_state (mark e true w)) e0 = true.
Proof.
  unfold executable, lookup_edge. rewrite cfgs_mark. rewrite lookup_alter.
  destruct e as [n i], e0 as [n0 i0]. cbn [fst snd].
  case_decide as Hn; [subst n0|done].
  destruct (cfgs w !! n) as [g|]; [|done]. cbn [fmap option_fmap option_map all_edges].
  rewrite list_lookup_alter. case_decide as Hi; [subst i0|done].
  destruct (all_edges g !! i) as [ed|]; [|done]. done.
Qed.

Lemma executable_mark_self e w (ed : Edge) :
  lookup_edge w e = Some ed -> executable (final_state (mark e true w)) e = true.
Proof.
  unfold executable, lookup_edge. rewrite cfgs_mark. rewrite lookup_alter.
  destruct e as [n i]. cbn [fst snd]. rewrite decide_True by reflexivity.
  destruct (cfgs w !! n) as [g|]; [|done]. cbn [fmap option_fmap option_map all_edges].
  rewrite list_lookup_alter_eq. by intros ->.
Qed.

Lemma get_target_mark e b w tgt :
  get_target e w = Done tgt w ->
  get_target e (final_state (mark e b w)) = Done tgt (final_state (mark e b w))
  /\ exists ed, lookup_edge w e = Some ed.
Proof.
  unfold get_target, lookup_edge. rewrite cfgs_mark, lookup_alter.
  destruct e as [n i]. cbn [fst snd]. rewrite decide_True by reflexivity.
  destruct (cfgs w !! n) as [g|]; [|discriminate]. cbn [fmap option_fmap option_map all_edges].
  rewrite list_lookup_alter_eq. destruct (all_edges g !! i) as [ed|]; [|discriminate].
  cbn [fmap option_fmap option_map set_is_executable edge_target].
  unfold get_bb. cbn [all_bbs]. destruct (find _ (all_bbs g)); [|discriminate].
  intros [= ->]. split; [reflexivity|eauto].
Qed.

(** The edges of a graph are all non-executable once they have been reset. *)
Lemma executable_reset_edges name w (i : nat) :
  executable (final_state (reset_edges name w)) (name, i) = false.
Proof.
  unfold executable, lookup_edge, reset_edges, modify. destruct w as [r o cs se st].
  cbn [final_state cfgs set_cfgs fst snd]. rewrite lookup_alter, decide_True by reflexivity.
  destruct (cs !! name) as [g|]; [|done]. cbn [fmap option_fmap option_map all_edges].
  rewrite list_lookup_fmap. by destruct (all_edges g !! i).
Qed.

Lemma keeps_cfgs_successors_to_push bb : keeps (@cfgs WPA) (successors_to_push bb).
Proof. unfold successors_to_push, get_branch_successors. keeps_tac. Qed.

(** The graphs at the end of a step are those the analysis of the target
    block ends with. *)
Lemma worklist_step_cfgs (visit : Basic_block -> Eff (World WPA) unit) e wl w tgt :
  get_target e w = Done tgt w ->
  cfgs (final_state (worklist_step visit e wl w))
  = cfgs (final_state (analyse_block visit tgt (final_state (mark e true w)))).
Proof.
  intros Htgt. apply (get_target_mark e true) in Htgt as [Htgt _].
  set (w1 := final_state (mark e true w)) in *.
  unfold worklist_step.
  rewrite (bind_step get _ w w w eq_refl).
  rewrite (bind_step (mark e true) _ w w1 tt eq_refl).
  rewrite (bind_step _ _ _ _ _ Htgt). unfold bind at 1.
  destruct (analyse_block visit tgt w1) as [b w2|f w2]; [|reflexivity].
  cbn [final_state]. destruct (negb (executable w e) || b); [|reflexivity].
  unfold bind. pose proof (keeps_cfgs_successors_to_push tgt w2) as Hk.
  by destruct (successors_to_push tgt w2).
Qed.

(** *** When the graph is handed back unchanged *)

(** A block that invokes no method is visited without any graph being
    touched, whatever [invoke_method] would do. *)
Lemma visit_block_keeps_cfgs
    (cb : Method_invocation -> option Basic_block -> option string -> Eff (World WPA) unit) bb :
  calls_no_method bb = true -> keeps (@cfgs WPA) (visit_block cb bb).
Proof.
  unfold calls_no_method, visit_block, visit_statement, visit_assign_var, visit_expr.
  intros Hno. destruct (kind bb) as [| |st|v]; [keeps_tac..| |keeps_tac].
  destruct st as [| | |l r| |ex| | | | | | | | | |]; try solve [keeps_tac].
  - destruct r; try discriminate; keeps_tac.
  - destruct ex; try discriminate; keeps_tac.
Qed.

Lemma analyse_block_keeps_cfgs (visit : Basic_block -> Eff (World WPA) unit) bb :
  keeps (@cfgs WPA) (visit bb) -> keeps (@cfgs WPA) (analyse_block visit bb).
Proof. intros Hvisit. unfold analyse_block, pull_results. keeps_tac. Qed.

(** If no visit touches the graphs, a step of the worklist marks the popped
    edge and changes no other flag. *)
Lemma worklist_step_monotone (visit : Basic_block -> Eff (World WPA) unit) e wl w
    (e0 : Edge_ref) :
  (forall bb, keeps (@cfgs WPA) (visit bb)) ->
  executable w e0 = true ->
  executable (final_state (worklist_step visit e wl w)) e0 = true.
Proof.
  intros Hvisit He0.
  assert (Hrest : forall tgt,
            keeps (@cfgs WPA)
              (do block_changed <- analyse_block visit tgt;
               if negb (executable w e) || block_changed
               then do pushed <- successors_to_push tgt;
                    ret (negb (executable w e) || block_changed, wl ++ pushed)
               else ret (negb (executable w e) || block_changed, wl))).
  { intros tgt. pose proof (analyse_block_keeps_cfgs visit tgt (Hvisit tgt)).
    pose proof keeps_cfgs_successors_to_push. keeps_tac. }
  pose proof (executable_mark e w e0 He0) as Hmark.
  set (w1 := final_state (mark e true w)) in *.
  unfold worklist_step.
  rewrite (bind_step get _ w w w eq_refl).
  rewrite (bind_step (mark e true) _ w w1 tt eq_refl).
  unfold bind at 1. pose proof (keeps_get_target (@cfgs WPA) e w1) as Htgt.
  destruct (get_target e w1) as [tgt w2|f w2]; cbn [final_state] in *.
  - specialize (Hrest tgt w2). unfold executable, lookup_edge in *.
    rewrite Hrest, Htgt. exact Hmark.
  - unfold executable, lookup_edge in *. rewrite Htgt. exact Hmark.
Qed.

(** Hence, as long as no visit touches the graphs, an executable edge stays
    executable until the worklist has drained. *)
Lemma worklist_loop_monotone (visit : Basic_block -> Eff (World WPA) unit) fuel
    (e0 : Edge_ref) :
  (forall bb, keeps (@cfgs WPA) (visit bb)) ->
  forall wl w,
    executable w e0 = true ->
    executable (final_state (worklist_loop visit fuel wl w)) e0 = true.
Proof.
  intros Hvisit. induction fuel as [|fuel IH]; intros [|e wl] w He0;
    cbn [worklist_loop]; try exact He0.
  unfold bind. pose proof (worklist_step_monotone visit e wl w e0 Hvisit He0) as Hstep.
  destruct (worklist_step visit e wl w) as [[changed wl'] w1|f w1]; cbn [final_state] in *;
    [by apply IH|exact Hstep].
Qed.

(** ** Backward bind (C8) *)

#[local] Instance grows_by_refl (Q : Call -> Prop) : Reflexive (grows_by (WPA := WPA) Q).
Proof. intros s. exists []. by rewrite app_nil_r. Qed.

#[local] Instance grows_by_trans (Q : Call -> Prop) : Transitive (grows_by (WPA := WPA) Q).
Proof.
  intros s1 s2 s3 (l1 & H1 & Q1) (l2 & H2 & Q2). exists (l1 ++ l2).
  split; [by rewrite H2, H1, app_assoc|by apply Forall_app].
Qed.

Lemma emits_invoke (Q : Call -> Prop) i c : Q c -> respects (grows_by Q) (invoke i c).
Proof. intros Hc s. exists [(i, c)]. split; [reflexivity|by repeat constructor]. Qed.

Lemma emits_the (Q : Call -> Prop) (i : nat) :
  respects (grows_by Q) (the i : Eff (Registry WPA) WPA).
Proof. intros s. unfold the. destruct (analyses s !! i); reflexivity. Qed.

Lemma emits_foreach_wpa (Q : Call -> Prop) (body : nat -> Eff (Registry WPA) unit) :
  (forall i, respects (grows_by Q) (body i)) -> respects (grows_by Q) (foreach_wpa body).
Proof.
  intros Hbody. unfold foreach_wpa. apply (respects_bind _); [apply (respects_get _)|].
  intros s. by apply (respects_foreach _).
Qed.

Lemma emits_broadcast (Q : Call -> Prop) c : Q c -> respects (grows_by Q) (broadcast c).
Proof. intros Hc. apply emits_foreach_wpa. intros i. by apply emits_invoke. Qed.

(** Decompose a goal [respects (grows_by Q) m] along the structure of [m]. *)
Ltac emits_tac :=
  repeat
    first
      [ progress intros
      | progress cbv zeta
      | match goal with H : _ |- _ => solve [apply H; assumption] end
      | apply (respects_ret _)
      | apply (respects_fail _)
      | apply (respects_get _)
      | apply (respects_from_option _)
      | apply (respects_assert _)
      | apply emits_the
      | apply emits_broadcast; split; reflexivity
      | apply emits_invoke; split; reflexivity
      | apply emits_foreach_wpa
      | apply (respects_bind _)
      | apply (respects_foreach _)
      | apply (respects_fold_eff _)
      | match goal with
        | |- respects _ (match ?x with _ => _ end) => destruct x
        end ].

Section Emits.

Variable bb : Basic_block.

#[local] Abbreviation at_bb := (evaluated_at (WPA := WPA) bb).

Lemma emits_is_must l : at_bb (is_must l).
Proof. unfold is_must. emits_tac. Qed.

Lemma emits_record_use n : at_bb (record_use bb n).
Proof. unfold record_use. emits_tac. Qed.

Lemma emits_get_string_values n : at_bb (get_string_values bb n).
Proof. unfold get_string_values. emits_tac. Qed.

Lemma emits_kill_value_of (resolve : Eff (Registry WPA) (list Index_node)) :
  at_bb resolve -> at_bb (kill_value_of bb resolve).
Proof. intros Hres. unfold kill_value_of. pose proof emits_is_must. emits_tac. Qed.

Lemma emits_get_all_referenced_names_of (resolve : Eff (Registry WPA) (list Index_node))
    cert :
  at_bb resolve -> at_bb (get_all_referenced_names_of bb resolve cert).
Proof. intros Hres. unfold get_all_referenced_names_of. emits_tac. Qed.

Lemma emits_assign_empty_array_of (resolve : Eff (Registry WPA) (list Index_node))
    unique_name :
  at_bb resolve -> at_bb (assign_empty_array_of bb resolve unique_name).
Proof.
  intros Hres. unfold assign_empty_array_of.
  pose proof (emits_kill_value_of resolve Hres).
  pose proof (fun cert => emits_get_all_referenced_names_of resolve cert Hres).
  emits_tac.
Qed.

(** Resolving a path at a block invokes the analyses at that block only. *)
Lemma emits_get_named_indices (path : Path) :
  forall record_uses, at_bb (get_named_indices bb path record_uses).
Proof.
  induction path as [st|st|plhs IHl prhs IHr]; intros record_uses;
    cbn [get_named_indices]; [emits_tac..|].
  pose proof emits_record_use. pose proof emits_get_string_values.
  pose proof (fun u => emits_assign_empty_array_of (get_named_indices bb plhs false) u
                         (IHl false)).
  apply (respects_bind _).
  { destruct plhs; emits_tac. }
  intros lhss. apply (respects_bind _).
  { destruct prhs; emits_tac. }
  emits_tac.
Qed.

Lemma emits_get_abstract_value n : at_bb (get_abstract_value bb n).
Proof. unfold get_abstract_value. emits_tac. Qed.

(** An assignment by copy at a block invokes the analyses at that block
    only, and never a bind hook. *)
Lemma emits_assign_by_copy plhs prhs : at_bb (assign_by_copy bb plhs prhs).
Proof.
  unfold assign_by_copy, kill_value, get_all_referenced_names, copy_value.
  pose proof emits_get_named_indices.
  pose proof (fun p => emits_kill_value_of _ (emits_get_named_indices p false)).
  pose proof (fun p u cert => emits_get_all_referenced_names_of _ cert
                                (emits_get_named_indices p u)).
  pose proof emits_get_abstract_value.
  emits_tac.
Qed.

End Emits.

(** C8 (as amended).  Without a target variable backward bind assigns nothing
    and invokes the [backward_bind] hook of every analysis.  With a target
    variable and a callee that does not return by reference, the target is
    assigned by copy from the return slot [RETNAME] of the callee; every
    invocation the assignment makes is evaluated at the callee's exit block,
    and only when it has completed is the hook of every analysis invoked,
    once each (if the assignment aborts, no hook is invoked).  With a callee
    that returns by reference the assignment by reference is an
    unimplemented case: backward bind aborts before anything is invoked. *)
Theorem backward_bind_protocol (info : Method_info) (caller : option Basic_block)
    (exit : Basic_block) s :
  backward_bind info caller exit None s
  = Done tt (after_calls [backward_bind_call caller exit] s)
  /\ forall (c : Basic_block) (v : string),
       if return_by_ref (signature info)
       then backward_bind info (Some c) exit (Some v) s = Abort TODO s
       else
         let assignment := assign_by_copy exit (P (ST c) v) (P (ST exit) RETNAME) in
         grows_by (assignment_at exit) s (final_state (assignment s))
         /\ backward_bind info (Some c) exit (Some v) s
            = match assignment s with
              | Done _ s1 => Done tt (after_calls [backward_bind_call (Some c) exit] s1)
              | Abort f s1 => Abort f s1
              end.
Proof.
  assert (Hhook : forall cl s0,
            broadcast (backward_bind_call cl exit) s0
            = Done tt (after_calls [backward_bind_call cl exit] s0)).
  { intros cl s0. rewrite broadcast_spec. unfold after_calls.
    cbn [flat_map apply_all fold_left]. by rewrite app_nil_r. }
  split.
  - unfold backward_bind. rewrite (bind_step (ret tt) _ s s tt eq_refl). apply Hhook.
  - intros c v. unfold backward_bind. cbn [ST_of].
    destruct (return_by_ref (signature info)).
    + reflexivity.
    + split; [apply emits_assign_by_copy|].
      unfold bind, ret. destruct (assign_by_copy exit _ _ s) as [[] s1|f s1];
        [apply Hhook|reflexivity].
Qed.

End Properties.
(** * Concrete instances *)

Section Chain_checks.

#[local] Existing Instance Example.chain_analysis.
#[local] Existing Instance Example.chain_platform.

(** C1, counterexample.  The program [chain] ([__MAIN__] calls [a], [a] calls
    [b], [b] calls [c]) has no recursion and no call-graph cycle, yet the
    convergence test after its first whole-program pass does not report
    convergence, and the run makes two passes. *)
Lemma chain_needs_second_pass :
  Example.no_recursion Example.chain = true
  /\ ~ converges_in_first_pass 20
  /\ value_of Example.chain_run = Some 2.
Proof.
  split; [reflexivity|]. split; [|by vm_compute].
  intros [w Hw].
  assert (Hv : value_of Example.chain_first_pass = Some true)
    by (unfold Example.chain_first_pass; by rewrite Hw).
  vm_compute in Hv. discriminate.
Qed.

(** C1, witness of [first_pass_never_converges]: the first pass over [chain]. *)
Lemma first_pass_never_converges_witness :
  let w := final_state (whole_program_pass 20 new_Whole_program) in
  analyses_have_converged w = Done false w.
Proof.
  intros w. refine (proj1 (first_pass_never_converges 20 w _)).
  vm_compute. reflexivity.
Defined.

(** C6, counterexample.  In the first iteration of the worklist of [b] no
    analysis reports a changed solution at the target block, and yet the
    successor edge of the target is pushed: the popped edge was not
    executable before. *)
Lemma successors_pushed_without_change :
  let step := worklist_step Example.chain_visit ("b", 0) [] Example.chain_ready in
  let tgt := mk_Basic_block 1 "b" (Statement_block (Example.call "c" [])) in
  value_of step = Some (true, [("b", 1)])
  /\ existsb (fun wpa => solution_changed wpa tgt) (analyses (registry (final_state step)))
     = false
  /\ ~ pushed_iff_solution_changed Example.chain_visit ("b", 0) [] Example.chain_ready.
Proof.
  intros step tgt. split; [by vm_compute|]. split; [by vm_compute|].
  intros Hiff. specialize (Hiff true [("b", 1)] (final_state step) tgt).
  assert (H1 : forall P Q : Prop, P -> Q -> (P -> Q -> (true = true <-> false = true)) -> False).
  { intros P Q p q H. destruct (H p q) as [H' _]. specialize (H' eq_refl). discriminate. }
  eapply H1; [| |exact Hiff]; vm_compute; reflexivity.
Qed.

(** C6, witness of [worklist_step_pushes]: the same iteration. *)
Lemma worklist_step_pushes_witness :
  let w' := final_state (worklist_step Example.chain_visit ("b", 0) [] Example.chain_ready) in
  exists tgt,
    get_target ("b", 0) Example.chain_ready = Done tgt Example.chain_ready
    /\ true
       = negb (executable Example.chain_ready ("b", 0))
         || existsb (fun wpa => solution_changed wpa tgt) (analyses (registry w'))
    /\ (true = false -> [("b", 1)] = @nil Edge_ref)
    /\ (true = true ->
        exists pushed,
          successors_to_push tgt w' = Done pushed w' /\ [("b", 1)] = [] ++ pushed).
Proof.
  intros w'.
  refine (worklist_step_pushes Example.chain_visit ("b", 0) [] Example.chain_ready
            true [("b", 1)] w' _).
  vm_compute. reflexivity.
Defined.

End Chain_checks.

Section Recursive_checks.

#[local] Existing Instance Example.recursive_analysis.
#[local] Existing Instance Example.recursive_platform.

(** C7, witness of [get_branch_successors_feasible]: the branch of [f] when
    nothing is known of [$n]. *)
Lemma get_branch_successors_feasible_witness :
  let bb := mk_Basic_block 1 "f" (Branch_block "n") in
  let w := final_state ((initialize >> ensure_cfg "f" Example.f_cfg) new_Whole_program) in
  get_branch_successors bb "n" w = Done [("f", 2); ("f", 1)] w.
Proof.
  intros bb w.
  refine (proj1 (get_branch_successors_feasible bb "n" w Example.f_cfg TOP
                   ("f", 1) ("f", 2) _ _ _ _));
    vm_compute; reflexivity.
Defined.

(** C10, witness of [get_string_values_one_candidate]: a cell that is still
    TOP. *)
Lemma get_string_values_one_candidate_witness :
  let bb := mk_Basic_block 1 "f" (Branch_block "n") in
  get_string_values bb (mk_Index_node "f" "n") Example.fresh_registry
  = Done [""] Example.fresh_registry.
Proof.
  intros bb.
  refine (proj1 (get_string_values_one_candidate bb (mk_Index_node "f" "n")
                   Example.fresh_registry TOP _)).
  reflexivity.
Defined.

(** C5, counterexample.  In the analysis of the recursive [f], called with 1,
    the third iteration of the worklist pops the edge into the block that
    calls [f (0)].  The edge branch -> [$x = 7] is executable before that
    iteration and is not after it: the nested analysis of [f] has reset the
    flags of the shared graph and, its condition being false, has not
    traversed that edge. *)
Lemma recursion_reverts_executable_edge :
  value_of Example.f_midway = Some [("f", 3)]
  /\ ~ step_keeps_executable Example.recursive_visit ("f", 3) []
         (final_state Example.f_midway).
Proof.
  split; [by vm_compute|].
  intros Hkeep. specialize (Hkeep ("f", 1)).
  assert (Hbefore : executable (final_state Example.f_midway) ("f", 1) = true)
    by (by vm_compute).
  specialize (Hkeep Hbefore). vm_compute in Hkeep. discriminate.
Qed.

End Recursive_checks.

Section Mixed_checks.

#[local] Existing Instance Example.mixed_analysis.
#[local] Existing Instance Example.mixed_platform.

(** C2, the failing input.  A value whose types fall in all three categories
    passes the check of [assign_by_copy]: the three-way exclusive or is true,
    the scalar is copied, and the run stops in the unimplemented copy of an
    array, not in an invariant violation. *)
Lemma assign_by_copy_accepts_three_categories :
  one_category ["int"] ["array"] ["stdClass"] = true
  /\ failure_of Example.copy_mixed = Some TODO
  /\ existsb (fun ev => is_assign_scalar (snd ev)) (trace (final_state Example.copy_mixed))
     = true.
Proof. by vm_compute. Qed.

(** C8, counterexample.  For a callee that returns by reference and a call
    with a target variable, backward bind does not complete and no hook is
    invoked: the assignment by reference is unimplemented. *)
Lemma backward_bind_by_reference_aborts :
  let caller := mk_Basic_block 1 "g" (Statement_block (Assign_var "y" (VARIABLE_NAME "r"))) in
  let exit := mk_Basic_block 1 "h" Exit_block in
  ~ binds_then_hooks Example.by_ref_info caller exit "y" Example.fresh_registry
  /\ backward_bind Example.by_ref_info (Some caller) exit (Some "y") Example.fresh_registry
     = Abort TODO Example.fresh_registry.
Proof.
  intros caller exit. split; [|reflexivity].
  intros (s' & l & Hdone & _). vm_compute in Hdone. discriminate.
Qed.

End Mixed_checks.

Section Further_checks.

#[local] Existing Instance Example.recursive_analysis.
#[local] Existing Instance Example.recursive_platform.

(** The pull phase at a join with one executable and one non-executable
    predecessor edge: each analysis is initialised, seeded from the source of
    the executable edge and finished; the other source is never pulled. *)
Lemma pull_skips_non_executable_predecessor :
  let b1 := mk_Basic_block 1 "j" (Statement_block (Assign_var "x" (Expr_Literal (INT 1)))) in
  let b2 := mk_Basic_block 2 "j" (Statement_block (Assign_var "x" (Expr_Literal (INT 2)))) in
  let b3 := mk_Basic_block 3 "j" Exit_block in
  let g := mk_CFG [b1; b2; b3] [mk_Edge 2 3 None false; mk_Edge 1 3 None true] in
  pull_from g b3 (get_predecessor_edges g b3) Example.fresh_registry
  = Done tt (after_sessions [pull_init_call b3; pull_first_pred_call b3 b1; pull_finish_call b3]
               Example.fresh_registry).
Proof. by vm_compute. Qed.

(** The built-in [strlen] assigns an unknown integer to the return slot of
    its modelling block, on every analysis. *)
Lemma strlen_returns_int :
  let fake := mk_Basic_block 1 "strlen" (Statement_block Return) in
  let info := Summary_method_info (Example.plain_signature "strlen") (mk_CFG [] []) fake in
  apply_modelled_function info fake Example.fresh_registry
  = Done tt
      (after_calls
         [kill_value_call fake (mk_Alias_name "strlen" "__RETNAME__");
          assign_scalar_call fake (mk_Alias_name "strlen" "__RETNAME__")
            (mk_Alias_name "strlen" "__RETNAME__")
            (mk_Abstract_value BOTTOM (Type_cell ["int"])) POSSIBLE]
         Example.fresh_registry).
Proof. by vm_compute. Qed.

End Further_checks.

(** * Further properties *)

(** ** Ordered sets *)

Section Insert_by.

Context {A : Type} (cmp : A -> A -> comparison).

Hypothesis cmp_eq : forall x y, cmp x y = Eq -> x = y.
Hypothesis cmp_refl : forall x, cmp x x = Eq.
Hypothesis cmp_antisym : forall x y, cmp x y = CompOpp (cmp y x).
Hypothesis cmp_trans : forall x y z, cmp x y = Lt -> cmp y z = Lt -> cmp x z = Lt.

Lemma elem_of_insert_by (x y : A) (l : list A) :
  x ∈ insert_by cmp y l <-> x = y \/ x ∈ l.
Proof.
  induction l as [|z l IH]; cbn [insert_by].
  - rewrite list_elem_of_singleton, elem_of_nil. tauto.
  - destruct (cmp y z) eqn:Hc.
    + apply cmp_eq in Hc as ->. rewrite !elem_of_cons. tauto.
    + rewrite !elem_of_cons. tauto.
    + rewrite !elem_of_cons, IH. tauto.
Qed.

Lemma insert_by_sorted (y : A) (l : list A) :
  StronglySorted (fun a b => cmp a b = Lt) l ->
  StronglySorted (fun a b => cmp a b = Lt) (insert_by cmp y l).
Proof.
  induction l as [|z l IH]; intros Hs; cbn [insert_by].
  - repeat constructor.
  - apply StronglySorted_inv in Hs as [Hl Hz].
    destruct (cmp y z) eqn:Hc.
    + by constructor.
    + constructor; [by constructor|].
      constructor; [exact Hc|].
      eapply Forall_impl; [exact Hz|]. intros b Hb. by eapply cmp_trans.
    + constructor; [by apply IH|].
      apply Forall_forall. intros b Hb. apply elem_of_insert_by in Hb as [->|Hb].
      * rewrite cmp_antisym, Hc. reflexivity.
      * by eapply Forall_forall in Hz.
Qed.

Lemma sorted_NoDup (l : list A) :
  StronglySorted (fun a b => cmp a b = Lt) l -> NoDup l.
Proof.
  induction 1 as [|z l Hl IH Hz]; constructor; [|exact IH].
  intros Hin. eapply Forall_forall in Hz; [|exact Hin].
  rewrite cmp_refl in Hz. discriminate.
Qed.

End Insert_by.

Lemma set_insert_insert_by x l : set_insert x l = insert_by String.compare x l.
Proof. induction l as [|y l IH]; [reflexivity|]. cbn. by rewrite IH. Qed.

Lemma names_insert_insert_by x l : names_insert x l = insert_by Alias_name_compare x l.
Proof. induction l as [|y l IH]; [reflexivity|]. cbn. by rewrite IH. Qed.

Lemma string_compare_eq x y : String.compare x y = Eq -> x = y.
Proof. apply OrderedTypeEx.String_as_OT.cmp_eq. Qed.

Lemma string_compare_refl x : String.compare x x = Eq.
Proof. by apply OrderedTypeEx.String_as_OT.cmp_eq. Qed.

Lemma string_compare_trans x y z :
  String.compare x y = Lt -> String.compare y z = Lt -> String.compare x z = Lt.
Proof.
  intros H1 H2. apply OrderedTypeEx.String_as_OT.cmp_lt.
  eapply OrderedTypeEx.String_as_OT.lt_trans;
    by apply OrderedTypeEx.String_as_OT.cmp_lt.
Qed.

Lemma Alias_name_compare_eq x y : Alias_name_compare x y = Eq -> x = y.
Proof.
  unfold Alias_name_compare. destruct x as [p n], y as [p' n']. cbn.
  destruct (String.compare p p') eqn:Hp; try discriminate.
  intros Hn. apply string_compare_eq in Hp, Hn. congruence.
Qed.

Lemma Alias_name_compare_refl x : Alias_name_compare x x = Eq.
Proof. unfold Alias_name_compare. by rewrite !string_compare_refl. Qed.

Lemma Alias_name_compare_antisym x y :
  Alias_name_compare x y = CompOpp (Alias_name_compare y x).
Proof.
  unfold Alias_name_compare.
  rewrite (String.compare_antisym (prefix x)), (String.compare_antisym (name x)).
  destruct (String.compare (prefix y) (prefix x)); cbn;
    by rewrite ?CompOpp_involutive.
Qed.

Lemma Alias_name_compare_trans x y z :
  Alias_name_compare x y = Lt -> Alias_name_compare y z = Lt -> Alias_name_compare x z = Lt.
Proof.
  unfold Alias_name_compare.
  destruct (String.compare (prefix x) (prefix y)) eqn:H1; try discriminate;
    destruct (String.compare (prefix y) (prefix z)) eqn:H2; try discriminate; intros H3 H4.
  - apply string_compare_eq in H1, H2. rewrite H1, H2, string_compare_refl.
    by eapply string_compare_trans.
  - apply string_compare_eq in H1. by rewrite H1, H2.
  - apply string_compare_eq in H2. by rewrite <- H2, H1.
  - by rewrite (string_compare_trans _ _ _ H1 H2).
Qed.

(** ** Registry frames *)

Section Steps.

Context {WPA : Type} `{!Analysis WPA} `{!Platform WPA}.

Lemma grows_by_mono (Q Q' : Call -> Prop) (s s' : Registry WPA) :
  (forall c, Q c -> Q' c) -> grows_by Q s s' -> grows_by Q' s s'.
Proof.
  intros HQ (l & Hl & Hall). exists l. split; [exact Hl|].
  eapply Forall_impl; [exact Hall|]. intros ev. apply HQ.
Qed.

Lemma steps_mono (Q Q' : Call -> Prop) (s s' : Registry WPA) :
  (forall c, Q c -> Q' c) -> steps Q s s' -> steps Q' s s'.
Proof. intros HQ [Hlen Hg]. split; [exact Hlen|by eapply grows_by_mono]. Qed.

#[local] Instance steps_refl (Q : Call -> Prop) : Reflexive (steps (WPA := WPA) Q).
Proof. intros s. split; [reflexivity|]. exists []. by rewrite app_nil_r. Qed.

#[local] Instance steps_trans (Q : Call -> Prop) : Transitive (steps (WPA := WPA) Q).
Proof.
  intros s1 s2 s3 [L1 (l1 & H1 & Q1)] [L2 (l2 & H2 & Q2)]. split; [congruence|].
  exists (l1 ++ l2). split; [by rewrite H2, H1, app_assoc|by apply Forall_app].
Qed.

Lemma steps_invoke (Q : Call -> Prop) i c : Q c -> respects (steps Q) (invoke i c).
Proof.
  intros Hc s. split; [cbn; apply length_alter|].
  exists [(i, c)]. split; [reflexivity|by repeat constructor].
Qed.

Lemma steps_the (Q : Call -> Prop) (i : nat) :
  respects (steps Q) (the i : Eff (Registry WPA) WPA).
Proof. intros s. unfold the. destruct (analyses s !! i); reflexivity. Qed.

Lemma steps_foreach_wpa (Q : Call -> Prop) (body : nat -> Eff (Registry WPA) unit) :
  (forall i, respects (steps Q) (body i)) -> respects (steps Q) (foreach_wpa body).
Proof.
  intros Hbody. unfold foreach_wpa. apply (respects_bind _); [apply (respects_get _)|].
  intros s. by apply (respects_foreach _).
Qed.

Lemma steps_broadcast (Q : Call -> Prop) c : Q c -> respects (steps Q) (broadcast c).
Proof. intros Hc. apply steps_foreach_wpa. intros i. by apply steps_invoke. Qed.

Lemma respects_assign_by_ref (R : Registry WPA -> Registry WPA -> Prop) `{!Reflexive R}
    bb plhs prhs :
  respects R (assign_by_ref bb plhs prhs).
Proof. intros s. cbn. reflexivity. Qed.

End Steps.

(** Decompose a goal [respects (steps Q) m] along the structure of [m];
    [side] proves that the calls invoked satisfy [Q]. *)
Ltac steps_tac side :=
  repeat
    first
      [ progress intros
      | progress cbv zeta
      | match goal with H : _ |- _ => solve [apply H; assumption] end
      | apply (respects_ret _)
      | apply (respects_fail _)
      | apply (respects_get _)
      | apply (respects_from_option _)
      | apply (respects_assert _)
      | apply (respects_assign_by_ref _)
      | apply steps_the
      | apply steps_broadcast; solve [side]
      | apply steps_invoke; solve [side]
      | apply steps_foreach_wpa
      | apply (respects_bind _)
      | apply (respects_foreach _)
      | apply (respects_fold_eff _)
      | match goal with
        | |- respects _ (match ?x with _ => _ end) => destruct x
        end ].

Section Weak_updates.

Context {WPA : Type} `{!Analysis WPA} `{!Platform WPA}.

Variable bb : Basic_block.
Variable Q : Call -> Prop.
Hypothesis HQ : forall c, primitive_at bb c -> Q c.

#[local] Existing Instance steps_refl.
#[local] Existing Instance steps_trans.

#[local] Abbreviation weak := (respects (steps (WPA := WPA) Q)).

#[local] Ltac weak_tac := steps_tac ltac:(apply HQ; split; reflexivity).

Lemma steps_is_must l : weak (is_must l).
Proof. unfold is_must. weak_tac. Qed.

Lemma steps_record_use n : weak (record_use bb n).
Proof. unfold record_use. weak_tac. Qed.

Lemma steps_get_string_values n : weak (get_string_values bb n).
Proof. unfold get_string_values. weak_tac. Qed.

Lemma steps_get_abstract_value n : weak (get_abstract_value bb n).
Proof. unfold get_abstract_value. weak_tac. Qed.

Lemma steps_kill_value_of (resolve : Eff (Registry WPA) (list Index_node)) :
  weak resolve -> weak (kill_value_of bb resolve).
Proof. intros Hres. unfold kill_value_of. pose proof steps_is_must. weak_tac. Qed.

Lemma steps_get_all_referenced_names_of (resolve : Eff (Registry WPA) (list Index_node))
    cert :
  weak resolve -> weak (get_all_referenced_names_of bb resolve cert).
Proof. intros Hres. unfold get_all_referenced_names_of. weak_tac. Qed.

Lemma steps_assign_empty_array_of (resolve : Eff (Registry WPA) (list Index_node))
    unique_name :
  weak resolve -> weak (assign_empty_array_of bb resolve unique_name).
Proof.
  intros Hres. unfold assign_empty_array_of.
  pose proof (steps_kill_value_of resolve Hres).
  pose proof (fun cert => steps_get_all_referenced_names_of resolve cert Hres).
  weak_tac.
Qed.

Lemma steps_get_named_indices (path : Path) :
  forall record_uses, weak (get_named_indices bb path record_uses).
Proof.
  induction path as [st|st|plhs IHl prhs IHr]; intros record_uses;
    cbn [get_named_indices]; [weak_tac..|].
  pose proof steps_record_use. pose proof steps_get_string_values.
  pose proof (fun u => steps_assign_empty_array_of (get_named_indices bb plhs false) u
                         (IHl false)).
  apply (respects_bind _).
  { destruct plhs; weak_tac. }
  intros lhss. apply (respects_bind _).
  { destruct prhs; weak_tac. }
  weak_tac.
Qed.

Lemma steps_kill_value plhs : weak (kill_value bb plhs).
Proof. apply steps_kill_value_of, steps_get_named_indices. Qed.

Lemma steps_get_all_referenced_names path cert u :
  weak (get_all_referenced_names bb path cert u).
Proof. apply steps_get_all_referenced_names_of, steps_get_named_indices. Qed.

Lemma steps_get_named_index path u : weak (get_named_index bb path u).
Proof. unfold get_named_index. pose proof steps_get_named_indices. weak_tac. Qed.

Lemma steps_assign_scalar plhs l : weak (assign_scalar bb plhs l).
Proof.
  unfold assign_scalar. pose proof steps_kill_value.
  pose proof steps_get_all_referenced_names. weak_tac.
Qed.

Lemma steps_assign_typed plhs types : weak (assign_typed bb plhs types).
Proof.
  unfold assign_typed. pose proof steps_kill_value.
  pose proof steps_get_all_referenced_names. weak_tac.
Qed.

Lemma steps_assign_empty_array plhs u : weak (assign_empty_array bb plhs u).
Proof. apply steps_assign_empty_array_of, steps_get_named_indices. Qed.

Lemma steps_assign_unknown plhs : weak (assign_unknown bb plhs).
Proof.
  unfold assign_unknown. pose proof steps_kill_value.
  pose proof steps_get_all_referenced_names. weak_tac.
Qed.

Lemma steps_assign_by_copy plhs prhs : weak (assign_by_copy bb plhs prhs).
Proof.
  unfold assign_by_copy, copy_value. pose proof steps_kill_value.
  pose proof steps_get_all_referenced_names. pose proof steps_get_named_indices.
  pose proof steps_get_abstract_value. weak_tac.
Qed.

Lemma steps_ruin_everything plhs : weak (ruin_everything bb plhs).
Proof. unfold ruin_everything. weak_tac. Qed.

Lemma steps_apply_modelled_function info : weak (apply_modelled_function info bb).
Proof.
  unfold apply_modelled_function. pose proof steps_assign_typed.
  pose proof steps_assign_scalar. weak_tac.
Qed.

Lemma steps_the_path (o : option Path) : weak (the_path o).
Proof. unfold the_path. weak_tac. Qed.

Lemma steps_get_abstract_value_of_rvalue rval :
  weak (get_abstract_value_of_rvalue bb rval).
Proof.
  unfold get_abstract_value_of_rvalue. pose proof steps_get_named_indices.
  pose proof steps_get_abstract_value. weak_tac.
Qed.

Lemma steps_visit_bin_op saved l op r : weak (visit_bin_op bb saved l op r).
Proof.
  unfold visit_bin_op. pose proof steps_get_abstract_value_of_rvalue.
  pose proof steps_the_path. pose proof steps_assign_scalar.
  pose proof steps_assign_typed. weak_tac.
Qed.

Lemma steps_visit_cast saved cast v : weak (visit_cast bb saved cast v).
Proof.
  unfold visit_cast. pose proof steps_the_path. pose proof steps_assign_scalar.
  pose proof steps_assign_typed. weak_tac.
Qed.

Lemma steps_visit_pre_op op v : weak (visit_pre_op bb op v).
Proof.
  unfold visit_pre_op. pose proof steps_assign_scalar. pose proof steps_assign_typed.
  pose proof steps_assign_unknown. weak_tac.
Qed.

Lemma steps_visit_branch_block v : weak (visit_branch_block bb v).
Proof. apply steps_record_use. Qed.

Lemma steps_init_superglobals : weak (init_superglobals bb).
Proof.
  unfold init_superglobals. pose proof steps_assign_empty_array.
  pose proof steps_assign_typed. pose proof steps_assign_unknown. weak_tac.
Qed.

Lemma steps_bind_actuals info caller actuals :
  forall i, weak (bind_actuals info caller bb actuals i).
Proof.
  induction actuals as [|ap actuals IH]; intros i; cbn [bind_actuals].
  - weak_tac.
  - pose proof steps_assign_by_copy. pose proof steps_assign_scalar.
    unfold ST_of. weak_tac.
Qed.

End Weak_updates.

(** ** Frames of the driver *)

Section Frames.

Context {WPA : Type} `{!Analysis WPA} `{!Platform WPA}.

#[local] Existing Instance steps_refl.
#[local] Existing Instance steps_trans.

#[local] Abbreviation NS := (fun c : Call => never_strong c = true).

Lemma primitive_never_strong bb (c : Call) : primitive_at bb c -> never_strong c = true.
Proof. intros [_ Hc]. by destruct c as [| | | | | | | | | | ? ? ? ? []| ? ? ? []| |? ? []]. Qed.

Lemma steps_forward_bind (Q : Call -> Prop) info caller entry actuals :
  (forall c, primitive_at entry c -> Q c) ->
  Q (forward_bind_call caller entry) -> Q (aggregate_results_call entry) ->
  respects (steps (WPA := WPA) Q) (forward_bind info caller entry actuals).
Proof.
  intros HQ Hf Ha. unfold forward_bind.
  pose proof (steps_init_superglobals entry Q HQ).
  pose proof (steps_bind_actuals entry Q HQ).
  steps_tac ltac:(assumption).
Qed.

Lemma steps_backward_bind (Q : Call -> Prop) info caller exit lhs :
  (forall c, primitive_at exit c -> Q c) ->
  Q (backward_bind_call caller exit) ->
  respects (steps (WPA := WPA) Q) (backward_bind info caller exit lhs).
Proof.
  intros HQ Hb. unfold backward_bind, ST_of.
  pose proof (steps_assign_by_copy exit Q HQ).
  steps_tac ltac:(assumption).
Qed.

Lemma never_strong_forward_bind info caller entry actuals :
  respects (steps (WPA := WPA) NS) (forward_bind info caller entry actuals).
Proof. apply steps_forward_bind; [apply primitive_never_strong|reflexivity..]. Qed.

Lemma never_strong_backward_bind info caller exit lhs :
  respects (steps (WPA := WPA) NS) (backward_bind info caller exit lhs).
Proof. apply steps_backward_bind; [apply primitive_never_strong|reflexivity]. Qed.

Lemma never_strong_pull_preds g i bb preds :
  forall first, respects (steps (WPA := WPA) NS) (pull_preds g i bb preds first).
Proof.
  induction preds as [|p preds IH]; intros first; cbn [pull_preds]; steps_tac ltac:(reflexivity).
Qed.

Lemma never_strong_pull_from g bb preds :
  respects (steps (WPA := WPA) NS) (pull_from g bb preds).
Proof. unfold pull_from. pose proof never_strong_pull_preds. steps_tac ltac:(reflexivity). Qed.

(** *** The frame is a preorder *)

Lemma graphs_kept_same (w w' : World WPA) : cfgs w' = cfgs w -> graphs_kept w w'.
Proof. intros Hw name g Hg. rewrite Hw. eauto. Qed.

Lemma graphs_kept_trans (w1 w2 w3 : World WPA) :
  graphs_kept w1 w2 -> graphs_kept w2 w3 -> graphs_kept w1 w3.
Proof.
  intros H12 H23 name g Hg. destruct (H12 _ _ Hg) as (g2 & Hg2 & E2).
  destruct (H23 _ _ Hg2) as (g3 & Hg3 & E3). exists g3. split; [exact Hg3|congruence].
Qed.

#[local] Instance framed_refl (Q : Call -> Prop) : Reflexive (framed (WPA := WPA) Q).
Proof. intros w. do 4 (split; [reflexivity|]). by apply graphs_kept_same. Qed.

#[local] Instance framed_trans (Q : Call -> Prop) : Transitive (framed (WPA := WPA) Q).
Proof.
  intros w1 w2 w3 (S1 & O1 & E1 & T1 & G1) (S2 & O2 & E2 & T2 & G2).
  split; [by transitivity (registry w2)|].
  do 3 (split; [congruence|]). by eapply graphs_kept_trans.
Qed.

Lemma framed_lift (Q : Call -> Prop) {A : Type} (m : Eff (Registry WPA) A) :
  respects (steps Q) m -> respects (framed Q) (lift m).
Proof.
  intros Hm w. specialize (Hm (registry w)). unfold lift.
  destruct (m (registry w)); cbn in *;
    (split; [exact Hm|]; do 3 (split; [reflexivity|]); by apply graphs_kept_same).
Qed.

Lemma framed_cfg_of (Q : Call -> Prop) name : respects (framed (WPA := WPA) Q) (cfg_of name).
Proof. intros w. unfold cfg_of. destruct (cfgs w !! name); reflexivity. Qed.

Lemma framed_get_target (Q : Call -> Prop) e :
  respects (framed (WPA := WPA) Q) (get_target e).
Proof.
  intros w. unfold get_target. destruct (cfgs w !! e.1) as [g|]; [|reflexivity].
  destruct (all_edges g !! e.2) as [ed|]; [|reflexivity].
  destruct (get_bb g (edge_target ed)); reflexivity.
Qed.

Lemma framed_set_cfgs (Q : Call -> Prop) (w : World WPA) (f : CFG -> CFG) name :
  (forall g, skeleton (f g) = skeleton g) ->
  framed Q w (set_cfgs (alter f name (cfgs w)) w).
Proof.
  intros Hf. do 4 (split; [reflexivity|]). intros n g Hg. cbn.
  destruct (decide (n = name)) as [->|Hn].
  - exists (f g). split; [by rewrite lookup_alter_eq, Hg|apply Hf].
  - exists g. split; [by rewrite lookup_alter_ne|reflexivity].
Qed.

Lemma skeleton_flags (g : CFG) (es : list Edge) :
  map edge_skeleton es = map edge_skeleton (all_edges g) ->
  skeleton (mk_CFG (all_bbs g) es) = skeleton g.
Proof. intros Hes. unfold skeleton. cbn. by rewrite Hes. Qed.

Lemma framed_mark (Q : Call -> Prop) e b : respects (framed (WPA := WPA) Q) (mark e b).
Proof.
  intros w. cbn. apply framed_set_cfgs. intros g. apply skeleton_flags.
  apply list_eq. intros i. rewrite !list_lookup_fmap.
  destruct (decide (i = e.2)) as [->|Hi].
  - rewrite list_lookup_alter_eq. by destruct (all_edges g !! e.2).
  - by rewrite list_lookup_alter_ne.
Qed.

Lemma framed_reset_edges (Q : Call -> Prop) name :
  respects (framed (WPA := WPA) Q) (reset_edges name).
Proof.
  intros w. cbn. apply framed_set_cfgs. intros g. apply skeleton_flags.
  rewrite map_map. reflexivity.
Qed.

Lemma framed_ensure_cfg (Q : Call -> Prop) name g :
  respects (framed (WPA := WPA) Q) (ensure_cfg name g).
Proof.
  intros w. cbn. destruct (cfgs w !! name) eqn:Hname; [reflexivity|].
  do 4 (split; [reflexivity|]). intros n g0 Hg0. cbn. exists g0.
  split; [|reflexivity]. rewrite lookup_insert_ne; [exact Hg0|]. congruence.
Qed.

End Frames.

(** Decompose a goal [respects (framed Q) m] along the structure of [m]. *)
Ltac framed_tac :=
  repeat
    first
      [ progress intros
      | progress cbv zeta
      | match goal with H : _ |- _ => solve [apply H; assumption] end
      | apply (respects_ret _)
      | apply (respects_fail _)
      | apply (respects_get _)
      | apply (respects_from_option _)
      | apply (respects_assert _)
      | apply framed_cfg_of
      | apply framed_get_target
      | apply framed_mark
      | apply framed_reset_edges
      | apply framed_ensure_cfg
      | apply (respects_bind _)
      | apply (respects_foreach _)
      | apply (respects_fold_eff _)
      | match goal with
        | |- respects _ (match ?x with _ => _ end) => destruct x
        | |- respects _ (let '(_, _) := ?x in _) => destruct x
        end ].

Section Analysis_frame.

Context {WPA : Type} `{!Analysis WPA} `{!Platform WPA}.

#[local] Existing Instance steps_refl.
#[local] Existing Instance steps_trans.
#[local] Existing Instance framed_refl.
#[local] Existing Instance framed_trans.

#[local] Abbreviation NS := (fun c : Call => never_strong c = true).
#[local] Abbreviation frame := (respects (framed (WPA := WPA) NS)).

Lemma framed_weak {A : Type} bb (m : Eff (Registry WPA) A) :
  (forall Q : Call -> Prop, (forall c, primitive_at bb c -> Q c) -> respects (steps Q) m) ->
  frame (lift m).
Proof. intros Hm. apply framed_lift, Hm, primitive_never_strong. Qed.

Lemma framed_pull_results bb : frame (pull_results bb).
Proof.
  unfold pull_results. pose proof (fun g => framed_lift NS _ (never_strong_pull_from g bb
    (get_predecessor_edges g bb))). framed_tac.
Qed.

Lemma framed_the i : frame (lift (the i)).
Proof. apply framed_lift, steps_the. Qed.

Lemma framed_broadcast c : never_strong c = true -> frame (lift (broadcast c)).
Proof. intros Hc. by apply framed_lift, steps_broadcast. Qed.

Lemma framed_get_branch_successors bb v : frame (get_branch_successors bb v).
Proof. unfold get_branch_successors. pose proof framed_the. framed_tac. Qed.

Lemma framed_successors_to_push bb : frame (successors_to_push bb).
Proof. unfold successors_to_push. pose proof framed_get_branch_successors. framed_tac. Qed.

Section Visit.

Variable visit : Basic_block -> Eff (World WPA) unit.
Hypothesis Hvisit : forall bb, frame (visit bb).

Lemma framed_analyse_block bb : frame (analyse_block visit bb).
Proof.
  unfold analyse_block. pose proof framed_pull_results.
  pose proof (framed_broadcast (aggregate_results_call bb) eq_refl).
  assert (frame (lift (do s <- get; ret (existsb (fun wpa => solution_changed wpa bb)
                                           (analyses s))))).
  { apply framed_lift. steps_tac ltac:(reflexivity). }
  framed_tac.
Qed.

Lemma framed_worklist_step e wl : frame (worklist_step visit e wl).
Proof.
  unfold worklist_step. pose proof framed_analyse_block.
  pose proof framed_successors_to_push. framed_tac.
Qed.

Lemma framed_worklist_loop fuel : forall wl, frame (worklist_loop visit fuel wl).
Proof.
  induction fuel as [|fuel IH]; intros [|e wl]; cbn [worklist_loop]; try solve [framed_tac].
  apply (respects_bind _); [apply framed_worklist_step|]. intros [b wl']. apply IH.
Qed.

Lemma framed_analyse_function fuel info caller actuals lhs :
  frame (analyse_function visit fuel info caller actuals lhs).
Proof.
  unfold analyse_function. pose proof framed_worklist_loop.
  pose proof (fun entry => framed_lift NS _
                (never_strong_forward_bind info caller entry actuals)).
  pose proof (fun exit => framed_lift NS _
                (never_strong_backward_bind info caller exit lhs)).
  framed_tac.
Qed.

End Visit.

Section Invoke.

Variable invoke : Method_invocation -> option Basic_block -> option string
                  -> Eff (World WPA) unit.
Hypothesis Hinvoke : forall mi ctx lhs, frame (invoke mi ctx lhs).

Lemma framed_visit_expr bb saved_plhs saved_lhs e :
  frame (visit_expr invoke bb saved_plhs saved_lhs e).
Proof.
  destruct e; cbn [visit_expr]; try solve [framed_tac].
  - apply (framed_weak bb). intros Q HQ. by apply steps_visit_bin_op.
  - apply (framed_weak bb). intros Q HQ. by apply steps_visit_cast.
  - apply (framed_weak bb). intros Q HQ. pose proof (steps_the_path (WPA := WPA) Q).
    pose proof (steps_assign_by_copy bb Q HQ). steps_tac ltac:(fail).
Qed.

Lemma framed_visit_assign_var bb lhs rhs : frame (visit_assign_var invoke bb lhs rhs).
Proof.
  unfold visit_assign_var. pose proof framed_visit_expr.
  destruct rhs; try solve [framed_tac].
  apply (framed_weak bb). intros Q HQ. by apply steps_assign_scalar.
Qed.

Lemma framed_visit_statement bb s : frame (visit_statement invoke bb s).
Proof.
  destruct s as [lhs rhs by_ref| | |lhs rhs| |e|a i| |a i|v|op v| | | | |p];
    cbn [visit_statement]; try solve [framed_tac].
  - apply (framed_weak bb). intros Q HQ. destruct by_ref.
    + apply (respects_assign_by_ref _).
    + by apply steps_assign_by_copy.
  - apply framed_visit_assign_var.
  - apply framed_visit_expr.
  - apply (framed_weak bb). intros Q HQ. pose proof (steps_record_use bb Q HQ).
    steps_tac ltac:(fail).
  - apply (framed_weak bb). intros Q HQ. pose proof (steps_record_use bb Q HQ).
    steps_tac ltac:(fail).
  - apply (framed_weak bb). intros Q HQ. apply (respects_assign_by_ref _).
  - apply (framed_weak bb). intros Q HQ. by apply steps_visit_pre_op.
  - apply (framed_weak bb). intros Q HQ. by apply steps_assign_scalar.
Qed.

Lemma framed_visit_block bb : frame (visit_block invoke bb).
Proof.
  unfold visit_block. pose proof framed_visit_statement.
  destruct (kind bb); try solve [framed_tac].
  apply (framed_weak bb). intros Q HQ. by apply steps_visit_branch_block.
Qed.

End Invoke.

Lemma framed_get_possible_receivers mi : frame (get_possible_receivers mi).
Proof. unfold get_possible_receivers. framed_tac. Qed.

Lemma framed_analyse_summary info g fake caller actuals lhs :
  frame (analyse_summary info g fake caller actuals lhs).
Proof.
  unfold analyse_summary. pose proof framed_pull_results.
  pose proof (fun entry => framed_lift NS _
                (never_strong_forward_bind info caller entry actuals)).
  pose proof (fun exit => framed_lift NS _
                (never_strong_backward_bind info caller exit lhs)).
  pose proof (fun bb => framed_broadcast (aggregate_results_call bb) eq_refl).
  assert (frame (lift (apply_modelled_function info fake))).
  { apply (framed_weak fake). intros Q HQ. by apply steps_apply_modelled_function. }
  framed_tac.
Qed.

Lemma framed_invoke_method fuel : forall mi ctx lhs, frame (invoke_method fuel mi ctx lhs).
Proof.
  induction fuel as [|fuel IH]; intros mi ctx lhs; cbn [invoke_method]; [framed_tac|].
  pose proof framed_get_possible_receivers. pose proof framed_analyse_summary.
  pose proof (framed_analyse_function _ (framed_visit_block _ IH)).
  framed_tac.
Qed.

Lemma framed_analyse_method_info fuel info caller actuals lhs :
  frame (analyse_method_info fuel info caller actuals lhs).
Proof.
  unfold analyse_method_info. pose proof framed_analyse_summary.
  pose proof (framed_analyse_function _ (framed_visit_block _ (framed_invoke_method fuel))).
  framed_tac.
Qed.

End Analysis_frame.

(** ** What a method invocation leaves alone *)

Section Invocation_frame.

Context {WPA : Type} `{!Analysis WPA} `{!Platform WPA}.

(** X1.  Whatever a method invocation does, at any depth of nested
    invocations and whether it completes or aborts, every call it makes on
    an analysis is a weak one: it never kills or creates a reference, and it
    passes values, storage edges and uses with the certainty POSSIBLE only
    (the certainty DEFINITE reaches the analyses through [kill_value] and
    [assign_empty_array] alone). *)
Theorem invoke_method_never_strong (fuel : nat) (mi : Method_invocation)
    (ctx : option Basic_block) (lhs : option string) (w : World WPA) :
  grows_by (fun c => never_strong c = true)
    (registry w) (registry (final_state (invoke_method fuel mi ctx lhs w))).
Proof. apply (framed_invoke_method fuel mi ctx lhs w). Qed.

(** X2.  A method invocation does not update the block structure: every
    graph known before it is still known after it, with the same blocks and
    the same edges between the same blocks in the same directions; only the
    [is_executable] flags of the edges may differ, and graphs of methods
    analysed for the first time are added. *)
Theorem invoke_method_keeps_graph_structure (fuel : nat) (mi : Method_invocation)
    (ctx : option Basic_block) (lhs : option string) (w : World WPA) :
  graphs_kept w (final_state (invoke_method fuel mi ctx lhs w)).
Proof. apply (framed_invoke_method fuel mi ctx lhs w). Qed.

(** X3.  A method invocation registers and drops no analysis, and leaves
    the analyses of the previous pass, the methods marked side-effecting and
    the statements written back as they were. *)
Theorem invoke_method_frame (fuel : nat) (mi : Method_invocation)
    (ctx : option Basic_block) (lhs : option string) (w : World WPA) :
  let w' := final_state (invoke_method fuel mi ctx lhs w) in
  length (analyses (registry w')) = length (analyses (registry w))
  /\ old_analyses w' = old_analyses w
  /\ side_effecting w' = side_effecting w
  /\ statements w' = statements w.
Proof.
  destruct (framed_invoke_method fuel mi ctx lhs w) as ([Hlen _] & Ho & He & Hs & _).
  cbv zeta. auto.
Qed.

(** X4.  Each assignment primitive of the driver, on any path and whether it
    completes or aborts, keeps the number of analyses and invokes them only
    at the block it is given and only with kills of values, empty arrays,
    and scalars, storage edges and uses of certainty POSSIBLE. *)
Theorem assignments_are_weak_updates (bb : Basic_block) (plhs prhs : Path) (s : Registry WPA) :
  (forall l, steps (primitive_at bb) s (final_state (assign_scalar bb plhs l s)))
  /\ (forall types, steps (primitive_at bb) s (final_state (assign_typed bb plhs types s)))
  /\ (forall unique_name,
        steps (primitive_at bb) s (final_state (assign_empty_array bb plhs unique_name s)))
  /\ steps (primitive_at bb) s (final_state (assign_unknown bb plhs s))
  /\ steps (primitive_at bb) s (final_state (assign_by_copy bb plhs prhs s)).
Proof.
  assert (HQ : forall c, primitive_at bb c -> primitive_at bb c) by auto.
  repeat split; intros;
    first [ apply (steps_assign_scalar bb _ HQ) | apply (steps_assign_typed bb _ HQ)
          | apply (steps_assign_empty_array bb _ HQ) | apply (steps_assign_unknown bb _ HQ)
          | apply (steps_assign_by_copy bb _ HQ) ].
Qed.

End Invocation_frame.

(** ** Forward bind *)

Section Forward_bind.

Context {WPA : Type} `{!Analysis WPA} `{!Platform WPA}.

#[local] Existing Instance steps_refl.
#[local] Existing Instance steps_trans.

Lemma bind_actuals_index info caller entry actuals :
  forall i (s : Registry WPA) j s',
    bind_actuals info caller entry actuals i s = Done j s' -> j = i + length actuals.
Proof.
  induction actuals as [|ap actuals IH]; intros i s j s'; cbn [bind_actuals length].
  - intros [= <- _]. lia.
  - intros Hb. apply bind_Done in Hb as (? & s1 & _ & Hb). apply IH in Hb. lia.
Qed.

Lemma bind_actuals_by_ref info caller entry actuals :
  forall i (s : Registry WPA) k ap,
    actuals !! k = Some ap ->
    is_ref ap || param_by_ref (signature info) (i + k) = true ->
    is_done (bind_actuals info caller entry actuals i s) = false.
Proof.
  induction actuals as [|ap0 actuals IH]; intros i s k ap Hk Href; [discriminate|].
  cbn [bind_actuals]. destruct k as [|k].
  - injection Hk as ->. rewrite Nat.add_0_r in Href. rewrite Href.
    apply bind_not_done. unfold ST_of.
    destruct caller; [|reflexivity]. cbn.
    by destruct (rvalue ap).
  - apply bind_never_done. intros _ s1. apply (IH (S i) s1 k ap Hk).
    by replace (S i + k) with (i + S k) by lia.
Qed.

(** X5.  Forward bind invokes the [forward_bind] hook of every analysis
    first, once each and before it assigns anything; all the calls that
    follow are assignment primitives evaluated at the entry block of the
    callee; and when it completes, it ends by asking every analysis to
    aggregate its results at that block. *)
Theorem forward_bind_protocol (info : Method_info) (caller : option Basic_block)
    (entry : Basic_block) (actuals : list Actual_parameter) (s : Registry WPA) :
  let n := length (analyses s) in
  let hooks := events 0 n (forward_bind_call caller entry) in
  match forward_bind info caller entry actuals s with
  | Done _ s' =>
      exists l, trace s' = trace s ++ hooks ++ l ++ events 0 n (aggregate_results_call entry)
                /\ Forall (fun ev => primitive_at entry (snd ev)) l
  | Abort _ s' =>
      exists l, trace s' = trace s ++ hooks ++ l
                /\ Forall (fun ev => primitive_at entry (snd ev)) l
  end.
Proof.
  cbv zeta. unfold forward_bind.
  rewrite (bind_step _ _ _ _ _ (broadcast_spec (forward_bind_call caller entry) s)).
  set (s0 := mk_Registry _ _).
  assert (HQ : forall c, primitive_at entry c -> primitive_at entry c) by auto.
  assert (H0 : length (analyses s0) = length (analyses s)) by apply length_map.
  cbv beta.
  match goal with |- context [bind ?m _ s0] => set (pre := m) end.
  assert (H1 : steps (primitive_at entry) s0 (final_state (pre s0))).
  { subst pre. destruct caller; [reflexivity|apply (steps_init_superglobals entry _ HQ)]. }
  unfold bind at 1.
  destruct (pre s0) as [[] s1|f s1];
    cbn [final_state] in H1; destruct H1 as [L1 (l1 & T1 & Q1)].
  2:{ exists l1. split; [|exact Q1]. rewrite T1. cbn. by rewrite <- app_assoc. }
  pose proof (steps_bind_actuals entry _ HQ info caller actuals 0 s1) as H2.
  unfold bind at 1.
  destruct (bind_actuals info caller entry actuals 0 s1) as [i s2|f s2];
    cbn [final_state] in H2; destruct H2 as [L2 (l2 & T2 & Q2)].
  2:{ exists (l1 ++ l2). split; [|by apply Forall_app].
      rewrite T2, T1. cbn. by rewrite <- !app_assoc. }
  destruct (default_param (signature info) i).
  { exists (l1 ++ l2). split; [|by apply Forall_app].
    cbn. rewrite T2, T1. cbn. by rewrite <- !app_assoc. }
  rewrite (bind_step (ret tt) _ s2 s2 tt eq_refl), broadcast_spec.
  exists (l1 ++ l2). split; [|by apply Forall_app].
  cbn [trace]. rewrite T2, T1, L2, L1, H0. cbn. by rewrite <- !app_assoc.
Qed.

(** X6.  Two cases of forward bind are not implemented, and no call in which
    one of them arises completes: an actual parameter passed by reference,
    whether the call or the signature of the callee says so, and a formal
    parameter with a default value that the call gives no actual for. *)
Theorem forward_bind_unimplemented (info : Method_info) (caller : option Basic_block)
    (entry : Basic_block) (actuals : list Actual_parameter) (s : Registry WPA) :
  (forall k ap,
     actuals !! k = Some ap ->
     is_ref ap || param_by_ref (signature info) k = true ->
     is_done (forward_bind info caller entry actuals s) = false)
  /\ (default_param (signature info) (length actuals) = true ->
      is_done (forward_bind info caller entry actuals s) = false).
Proof.
  split.
  - intros k ap Hk Href. unfold forward_bind.
    do 2 (apply bind_never_done; intros). apply bind_not_done.
    by apply (bind_actuals_by_ref _ _ _ _ 0 _ k ap).
  - intros Hdef. unfold forward_bind.
    do 2 (apply bind_never_done; intros).
    unfold bind at 1.
    destruct (bind_actuals info caller entry actuals 0 y0) as [i s2|] eqn:Hb; [|reflexivity].
    apply bind_actuals_index in Hb as ->. cbn [Nat.add]. by rewrite Hdef.
Qed.

End Forward_bind.

(** ** The resolver *)

Section Fold_facts.

Context {S A B : Type}.

(** An invariant of the accumulator of a loop holds of its result. *)
Lemma fold_eff_invariant (I : B -> Prop) (body : B -> A -> Eff S B) (l : list A) :
  (forall b a x b' x', I b -> body b a x = Done b' x' -> I b') ->
  forall acc x r x', I acc -> fold_eff body l acc x = Done r x' -> I r.
Proof.
  intros Hbody. induction l as [|a l IH]; intros acc x r x' Hacc; cbn [fold_eff].
  - by intros [= <- _].
  - intros Hf. apply bind_Done in Hf as (b & x1 & Hb & Hf).
    eapply IH; [|exact Hf]. by eapply Hbody.
Qed.

End Fold_facts.

Section Resolver.

Context {WPA : Type} `{!Analysis WPA} `{!Platform WPA}.

#[local] Abbreviation increasing := (StronglySorted (fun a b => String.compare a b = Lt)).

Lemma set_insert_increasing x l : increasing l -> increasing (set_insert x l).
Proof.
  rewrite set_insert_insert_by.
  apply insert_by_sorted;
    [apply string_compare_eq|apply String.compare_antisym|apply string_compare_trans].
Qed.

Lemma increasing_NoDup l : increasing l -> NoDup l.
Proof. apply sorted_NoDup, string_compare_refl. Qed.

(** The final loop of [get_named_indices] pairs every storage with every
    index, in order. *)
Lemma pairs_spec bb (record_uses : bool) (pairs : list (string * string)) :
  forall (acc : list Index_node) (s : Registry WPA) r s',
    fold_eff
      (fun result '(lhs, rhs) =>
         (if record_uses then record_use bb (mk_Index_node lhs rhs) else ret tt) >>
         ret (result ++ [mk_Index_node lhs rhs]))
      pairs acc s = Done r s' ->
    r = acc ++ map (fun p => mk_Index_node p.1 p.2) pairs.
Proof.
  induction pairs as [|[lhs rhs] pairs IH]; intros acc s r s'; cbn [fold_eff map].
  - intros [= <- _]. by rewrite app_nil_r.
  - intros Hf. apply bind_Done in Hf as (b & s1 & Hb & Hf).
    apply bind_Done in Hb as (? & s0 & _ & [= <- _]).
    apply IH in Hf as ->. by rewrite <- app_assoc.
Qed.

(** What [get_named_indices] returns for a path [Indexing plhs prhs]: the
    product of two ordered sets, the storages and the indices. *)
Lemma get_named_indices_product bb plhs prhs record_uses (s : Registry WPA) l s' :
  get_named_indices bb (Indexing plhs prhs) record_uses s = Done l s' ->
  exists lhss rhss,
    l = map (fun p => mk_Index_node p.1 p.2) (list_prod lhss rhss)
    /\ increasing lhss /\ increasing rhss /\ rhss <> []
    /\ (forall st, plhs = ST_path st -> lhss = [st]).
Proof.
  cbn [get_named_indices]. intros Hg.
  apply bind_Done in Hg as (lhss & s1 & Hl & Hg).
  apply bind_Done in Hg as (rhss & s2 & Hr & Hg).
  apply bind_Done in Hg as ([] & s3 & Ha & Hg).
  apply pairs_spec in Hg. exists lhss, rhss. split; [exact Hg|].
  assert (Hone : forall x : string, increasing [x]) by (intros; repeat constructor).
  repeat split.
  - destruct plhs as [st|st|p q]; try (injection Hl as <- _; apply Hone).
    all: apply bind_Done in Hl as (st_indices & s0 & _ & Hl).
    all: revert Hl; apply fold_eff_invariant; [|constructor].
    all: intros b a0 x b' x' Hb Hbody.
    all: apply bind_Done in Hbody as (al & ? & _ & Hbody).
    all: revert Hbody; apply fold_eff_invariant; [|exact Hb].
    all: intros b0 pt y b1 y' Hb0 Hpt.
    all: destruct (String.eqb (st_storage pt) "SCALAR").
    all: try (apply bind_Done in Hpt as (? & ? & _ & Hpt)).
    all: injection Hpt as <- _; by apply set_insert_increasing.
  - destruct prhs as [st|st|p q]; try (injection Hr as <- _; apply Hone).
    all: apply bind_Done in Hr as (field_indices & s0 & _ & Hr).
    all: revert Hr; apply fold_eff_invariant; [|constructor].
    all: intros b a0 x b' x' Hb Hbody.
    all: apply bind_Done in Hbody as (? & ? & _ & Hbody).
    all: apply bind_Done in Hbody as (values & ? & _ & Hbody).
    all: injection Hbody as <- _.
    all: clear -Hb; revert b Hb; induction values as [|v values IH]; intros b Hb;
      [exact Hb|].
    all: cbn [fold_left]; apply IH; by apply set_insert_increasing.
  - intros ->. discriminate Ha.
  - intros st ->. by injection Hl as <- _.
Qed.

Lemma NoDup_pairs (lhss rhss : list string) :
  NoDup lhss -> NoDup rhss ->
  NoDup (map (fun p => mk_Index_node p.1 p.2) (list_prod lhss rhss)).
Proof.
  intros Hl Hr. apply NoDup_fmap_2.
  - intros [a b] [c d] [= -> ->]. reflexivity.
  - induction Hl as [|x lhss Hx Hl IH]; cbn [list_prod]; [constructor|].
    apply NoDup_app. split; [|split; [|exact IH]].
    + apply NoDup_fmap_2; [|exact Hr]. by intros b d [= ->].
    + intros [a b] Hin Hin'. apply list_elem_of_fmap in Hin as (b' & [= -> ->] & _).
      apply list_elem_of_In, in_prod_iff in Hin' as [Hin' _].
      by apply list_elem_of_In in Hin'.
Qed.

Lemma static_base_nonempty bb st prhs record_uses (s : Registry WPA) l s' :
  get_named_indices bb (Indexing (ST_path st) prhs) record_uses s = Done l s' ->
  exists n rest, l = n :: rest.
Proof.
  intros Hg.
  apply get_named_indices_product in Hg as (lhss & rhss & -> & _ & _ & Hne & Hst).
  rewrite (Hst st eq_refl). destruct rhss as [|r rhss]; [done|]. cbn. eauto.
Qed.

(** X7.  The index nodes a path resolves to are pairwise distinct: the
    resolver collects the storages and the indices in two ordered sets and
    returns their product. *)
Theorem get_named_indices_distinct (bb : Basic_block) (path : Path) (record_uses : bool)
    (s : Registry WPA) (l : list Index_node) (s' : Registry WPA) :
  get_named_indices bb path record_uses s = Done l s' -> NoDup l.
Proof.
  destruct path as [st|st|plhs prhs]; try discriminate. intros Hg.
  apply get_named_indices_product in Hg as (lhss & rhss & -> & Hl & Hr & _).
  apply NoDup_pairs; by apply increasing_NoDup.
Qed.

(** X8.  Under a statically named storage the resolver never returns an
    empty list, whatever the index path is, and every node it returns lies
    in that storage; so the assertion of [is_must] holds of the result. *)
Theorem get_named_indices_static_base (bb : Basic_block) (st : string) (prhs : Path)
    (record_uses : bool) (s : Registry WPA) (l : list Index_node) (s' : Registry WPA) :
  get_named_indices bb (Indexing (ST_path st) prhs) record_uses s = Done l s' ->
  l <> []
  /\ Forall (fun n => storage n = st) l
  /\ is_must l s' = Done (Nat.eqb (length l) 1) s'.
Proof.
  intros Hg.
  apply get_named_indices_product in Hg as (lhss & rhss & -> & _ & _ & Hne & Hst).
  rewrite (Hst st eq_refl). cbn [list_prod]. rewrite app_nil_r, map_map. cbn.
  destruct rhss as [|r rhss]; [done|].
  split; [done|]. split; [|reflexivity].
  apply Forall_forall. intros n Hn. by apply list_elem_of_fmap in Hn as (? & -> & _).
Qed.

End Resolver.

(** ** The names an assignment writes to *)

Section Referenced_names.

Context {WPA : Type} `{!Analysis WPA} `{!Platform WPA}.

#[local] Abbreviation ordered := (StronglySorted (fun a b => Alias_name_compare a b = Lt)).

Lemma names_fold_ordered (refs : list Index_node) :
  forall acc, ordered acc ->
    ordered (fold_left (fun ns ref => names_insert (Index_node_name ref) ns) refs acc).
Proof.
  induction refs as [|ref refs IH]; intros acc Hacc; [exact Hacc|].
  cbn [fold_left]. apply IH. rewrite names_insert_insert_by.
  apply insert_by_sorted;
    [apply Alias_name_compare_eq|apply Alias_name_compare_antisym
    |apply Alias_name_compare_trans|exact Hacc].
Qed.

Lemma elem_of_names_fold (refs : list Index_node) (n : Alias_name) :
  forall acc,
    n ∈ fold_left (fun ns ref => names_insert (Index_node_name ref) ns) refs acc
    <-> n ∈ acc \/ exists ref, ref ∈ refs /\ n = Index_node_name ref.
Proof.
  induction refs as [|ref refs IH]; intros acc; cbn [fold_left].
  - split; [auto|]. intros [Hn|(ref & Href & _)]; [exact Hn|]. by apply elem_of_nil in Href.
  - rewrite IH, names_insert_insert_by,
      (elem_of_insert_by _ Alias_name_compare_eq). split.
    + intros [[->|Hn]|(r & Hr & ->)]; [right|by left|right].
      * exists ref. split; [left|reflexivity].
      * exists r. split; [by right|reflexivity].
    + intros [Hn|(r & Hr & ->)]; [left; by right|].
      apply elem_of_cons in Hr as [->|Hr]; [left; by left|right; eauto].
Qed.

Lemma referenced_names_ordered (a : WPA) bb cert (lhss : list Index_node) :
  ordered (referenced_names a bb cert lhss).
Proof.
  unfold referenced_names. generalize (@nil Alias_name) (SSorted_nil
    (fun a b => Alias_name_compare a b = Lt)).
  induction lhss as [|lhs lhss IH]; intros acc Hacc; [exact Hacc|].
  cbn [fold_left]. apply IH. by apply names_fold_ordered.
Qed.

Lemma elem_of_referenced_names (a : WPA) bb cert (lhss : list Index_node) (n : Alias_name) :
  n ∈ referenced_names a bb cert lhss
  <-> exists lhs, lhs ∈ lhss
        /\ (n = Index_node_name lhs
            \/ exists ref, ref ∈ get_references a bb lhs cert /\ n = Index_node_name ref).
Proof.
  unfold referenced_names.
  assert (Hgen : forall acc,
            n ∈ fold_left
                  (fun names lhs =>
                     fold_left (fun ns ref => names_insert (Index_node_name ref) ns)
                       (get_references a bb lhs cert ++ [lhs]) names) lhss acc
            <-> n ∈ acc
                \/ exists lhs, lhs ∈ lhss
                     /\ (n = Index_node_name lhs
                         \/ exists ref, ref ∈ get_references a bb lhs cert
                                        /\ n = Index_node_name ref)).
  { induction lhss as [|lhs lhss IH]; intros acc; cbn [fold_left].
    - split; [auto|]. intros [Hn|(lhs & Hl & _)]; [exact Hn|]. by apply elem_of_nil in Hl.
    - rewrite IH, elem_of_names_fold. split.
      + intros [[Hn|(ref & Hr & ->)]|(l & Hl & Hn)]; [by left|right..].
        * exists lhs. split; [left|].
          apply elem_of_app in Hr as [Hr|Hr]; [right; eauto|].
          apply list_elem_of_singleton in Hr as ->. by left.
        * exists l. split; [by right|exact Hn].
      + intros [Hn|(l & Hl & Hn)]; [left; by left|].
        apply elem_of_cons in Hl as [->|Hl]; [left; right|right; eauto].
        destruct Hn as [->|(ref & Hr & ->)].
        * exists lhs. split; [|reflexivity]. apply elem_of_app. right. left.
        * exists ref. split; [|reflexivity]. apply elem_of_app. by left. }
  rewrite Hgen. split; [|auto]. intros [Hn|Hn]; [|exact Hn]. by apply elem_of_nil in Hn.
Qed.

(** The loop of [get_all_referenced_names] queries the aliasing analysis and
    invokes nothing. *)
Lemma referenced_names_loop (a : WPA) bb cert (lhss : list Index_node) :
  forall acc (s : Registry WPA),
    analyses s !! aliasing = Some a ->
    fold_eff
      (fun names lhs =>
         do a <- the aliasing;
         let refs := get_references a bb lhs cert ++ [lhs] in
         ret (fold_left (fun ns ref => names_insert (Index_node_name ref) ns) refs names))
      lhss acc s
    = Done (fold_left
              (fun names lhs =>
                 fold_left (fun ns ref => names_insert (Index_node_name ref) ns)
                   (get_references a bb lhs cert ++ [lhs]) names)
              lhss acc) s.
Proof.
  induction lhss as [|lhs lhss IH]; intros acc s Ha; cbn [fold_eff fold_left];
    [reflexivity|].
  unfold bind at 1. unfold bind at 1. rewrite (the_Some _ _ _ Ha). cbn. by apply IH.
Qed.

Lemma get_all_referenced_names_of_spec bb (resolve : Eff (Registry WPA) (list Index_node))
    cert (s : Registry WPA) lhss s1 :
  resolve s = Done lhss s1 ->
  get_all_referenced_names_of bb resolve cert s
  = match lhss, analyses s1 !! aliasing with
    | [], _ => Done [] s1
    | _ :: _, Some a => Done (referenced_names a bb cert lhss) s1
    | _ :: _, None => Abort null_dereference s1
    end.
Proof.
  intros Hres. unfold get_all_referenced_names_of. rewrite (bind_step _ _ _ _ _ Hres).
  destruct lhss as [|lhs lhss]; [reflexivity|].
  destruct (analyses s1 !! aliasing) as [a|] eqn:Ha.
  - by apply referenced_names_loop.
  - cbn [fold_eff]. unfold bind, the. by rewrite Ha.
Qed.

(** X9.  [get_all_referenced_names] invokes no analysis of its own: it
    leaves the registry as the resolution of the path left it.  The names it
    returns are pairwise distinct; they are the names of the resolved index
    nodes and of the references that the aliasing analysis reports for them
    with the given certainty, and no others. *)
Theorem get_all_referenced_names_spec (bb : Basic_block) (path : Path) (cert : certainty)
    (record_uses : bool) (s : Registry WPA) (names : list Alias_name) (s' : Registry WPA) :
  get_all_referenced_names bb path cert record_uses s = Done names s' ->
  exists lhss,
    get_named_indices bb path record_uses s = Done lhss s'
    /\ NoDup names
    /\ forall n,
         n ∈ names
         <-> exists lhs, lhs ∈ lhss
               /\ (n = Index_node_name lhs
                   \/ exists a ref, analyses s' !! aliasing = Some a
                                    /\ ref ∈ get_references a bb lhs cert
                                    /\ n = Index_node_name ref).
Proof.
  unfold get_all_referenced_names. intros Hg.
  destruct (get_named_indices bb path record_uses s) as [lhss s1|f s1] eqn:Hres.
  2:{ unfold get_all_referenced_names_of in Hg.
      by rewrite (bind_abort _ _ _ _ _ Hres) in Hg. }
  rewrite (get_all_referenced_names_of_spec _ _ _ _ _ _ Hres) in Hg.
  destruct lhss as [|lhs lhss].
  - injection Hg as <- <-. exists []. split; [reflexivity|]. split; [constructor|].
    intros n. split; [intros Hn; by apply elem_of_nil in Hn|].
    intros (l & Hl & _). by apply elem_of_nil in Hl.
  - destruct (analyses s1 !! aliasing) as [a|] eqn:Ha; [|discriminate].
    injection Hg as <- <-. exists (lhs :: lhss). split; [reflexivity|]. split.
    + eapply (sorted_NoDup _ Alias_name_compare_refl), referenced_names_ordered.
    + intros n. rewrite elem_of_referenced_names. rewrite Ha. split.
      * intros (l & Hl & [->|(ref & Hr & ->)]); exists l; (split; [exact Hl|]);
          [by left|right; exists a, ref; auto].
      * intros (l & Hl & [->|(a' & ref & [= <-] & Hr & ->)]); exists l;
          (split; [exact Hl|]); [by left|right; exists ref; auto].
Qed.

End Referenced_names.

(** ** Assignments to a named variable *)

Section Named_variable.

Context {WPA : Type} `{!Analysis WPA} `{!Platform WPA}.

Lemma after_calls_lookup (cs : list Call) (s : Registry WPA) i :
  analyses (after_calls cs s) !! i = apply_all cs <$> analyses s !! i.
Proof. unfold after_calls. cbn [analyses]. apply list_lookup_fmap. Qed.

(** X10.  Assigning a literal to a named variable [$v] of the scope [st] is
    a strong update that always completes once the aliasing analysis is
    registered: every analysis is first told to kill the value of each
    DEFINITE reference of the variable and then of the variable itself; the
    references are then asked again, of the aliasing analysis as the kills
    have left it, and every analysis is given the literal for each name,
    with the certainty POSSIBLE. *)
Theorem assign_scalar_named_variable (bb : Basic_block) (st v : string) (l : Literal)
    (s : Registry WPA) (a : WPA) :
  analyses s !! aliasing = Some a ->
  let kills := kill_calls a bb (VN st v) in
  let names := referenced_names (apply_all kills a) bb DEFINITE [VN st v] in
  assign_scalar bb (P st v) l s
  = Done tt
      (after_calls
         (map (fun name => assign_scalar_call bb name (ABSVAL name) (from_literal l) POSSIBLE)
              names)
         (after_calls kills s)).
Proof.
  intros Ha kills names. unfold assign_scalar, kill_value, get_all_referenced_names.
  rewrite (bind_step _ _ s (after_calls kills s) DEFINITE).
  2:{ rewrite (kill_value_of_spec bb _ s [VN st v] s (get_named_indices_P bb st v s)).
      by rewrite Ha. }
  rewrite (bind_step _ _ _ (after_calls kills s) names).
  2:{ rewrite (get_all_referenced_names_of_spec bb _ DEFINITE _ [VN st v] _
                 (get_named_indices_P bb st v _)).
      by rewrite after_calls_lookup, Ha. }
  rewrite <- (foreach_map
                (fun name => assign_scalar_call bb name (ABSVAL name) (from_literal l) POSSIBLE)
                broadcast names).
  apply foreach_broadcast.
Qed.

(** X11.  Typed assignments of arrays and objects are not implemented: under
    a statically named storage, an [assign_typed] whose types include an
    array type or a class never completes. *)
Theorem assign_typed_array_or_object (bb : Basic_block) (st : string) (prhs : Path)
    (types : Types) (s : Registry WPA) :
  nonempty (get_array_types types) || nonempty (get_object_types types) = true ->
  is_done (assign_typed bb (Indexing (ST_path st) prhs) types s) = false.
Proof.
  intros Htypes. unfold assign_typed. cbv zeta.
  apply bind_never_done. intros cert s1. unfold bind at 1.
  destruct (get_all_referenced_names bb _ cert false s1) as [names s2|] eqn:Hnames;
    [|reflexivity].
  unfold get_all_referenced_names in Hnames.
  destruct (get_named_indices bb (Indexing (ST_path st) prhs) false s1)
    as [lhss s1'|] eqn:Hres.
  2:{ unfold get_all_referenced_names_of in Hnames.
      by rewrite (bind_abort _ _ _ _ _ Hres) in Hnames. }
  rewrite (get_all_referenced_names_of_spec _ _ _ _ _ _ Hres) in Hnames.
  destruct (static_base_nonempty _ _ _ _ _ _ _ Hres) as (lhs & rest & ->).
  destruct (analyses s1' !! aliasing) as [a|] eqn:Ha; [|discriminate].
  injection Hnames as <- <-.
  assert (Hin : Index_node_name lhs ∈ referenced_names a bb cert (lhs :: rest)).
  { apply elem_of_referenced_names. exists lhs. split; [left|by left]. }
  destruct (referenced_names a bb cert (lhs :: rest)) as [|name names];
    [by apply elem_of_nil in Hin|].
  cbn [foreach]. apply bind_not_done. unfold foreach_wpa, bind at 1, get.
  destruct (analyses s1') as [|a0 l0]; [discriminate|].
  cbn [length seq foreach]. apply bind_not_done.
  apply bind_never_done. intros _ s3.
  destruct (nonempty (get_array_types types)); [reflexivity|].
  cbn in Htypes. rewrite Htypes. reflexivity.
Qed.

End Named_variable.

(** ** The whole-program loop *)

Section Driver_facts.

Context {WPA : Type} `{!Analysis WPA} `{!Platform WPA}.

#[local] Existing Instance same_component_refl.
#[local] Existing Instance same_component_trans.

(** The results of the analyses: the registry and the snapshot of the
    previous pass. *)
#[local] Abbreviation results := (fun w : World WPA => (registry w, old_analyses w)).

Lemma keeps_lift_the {X : Type} (proj : World WPA -> X) i : keeps proj (lift (the i)).
Proof.
  intros w. unfold lift, the. destruct (analyses (registry w) !! i); cbn;
    by rewrite set_registry_id.
Qed.

Lemma keeps_results_update_cfg name (f : list WPA -> CFG -> CFG) :
  keeps results (update_cfg name f).
Proof.
  unfold update_cfg, keeps. apply (respects_bind _); [apply keeps_cfg_of|].
  intros g. apply (respects_modify _). by intros [].
Qed.

Lemma keeps_results_generate_summary name : keeps results (generate_summary name).
Proof.
  unfold generate_summary, keeps. apply (respects_bind _); [apply keeps_cfg_of|].
  intros g. destruct (Nat.eqb _ _); [|apply (respects_ret _)].
  apply (respects_modify _). by intros [].
Qed.

Lemma keeps_results_optimize_function n :
  forall name, keeps results (optimize_function n name).
Proof.
  induction n as [|n IH]; intros name; cbn [optimize_function]; [apply (respects_ret _)|].
  unfold keeps, perform_local_optimizations, perform_interprocedural_optimizations.
  apply (respects_bind _); [apply keeps_cfg_of|]. intros before.
  apply (respects_bind _); [apply keeps_results_update_cfg|]. intros _.
  apply (respects_bind _); [apply keeps_results_update_cfg|]. intros _.
  apply (respects_bind _); [apply keeps_results_generate_summary|]. intros _.
  apply (respects_bind _); [apply keeps_cfg_of|]. intros after.
  destruct (cfg_equals before after); [apply (respects_ret _)|apply IH].
Qed.

Lemma keeps_results_optimize_methods : keeps results optimize_methods.
Proof.
  unfold optimize_methods, keeps.
  apply (respects_bind _); [apply keeps_lift_the|]. intros cg.
  apply (respects_foreach _). intros method.
  destruct (get_user_method_info method) as [info|]; [|apply (respects_ret _)].
  cbv zeta. unfold merge_contexts, apply_results.
  apply (respects_bind _); [apply (respects_ret _)|]. intros _.
  apply (respects_bind _); [apply keeps_results_update_cfg|]. intros _.
  apply (respects_bind _); [apply keeps_results_generate_summary|]. intros _.
  apply keeps_results_optimize_function.
Qed.

(** The loop of [run] that annotates the graphs and writes the statements
    back. *)
Lemma keeps_results_write_back (cg : WPA) :
  keeps results
    (foreach (bottom_up cg)
       (fun method =>
          do method_info <- from_option (get_method_info method);
          if negb (has_implementation method_info) then ret tt
          else
            let name := sig_name (signature method_info) in
            annotate_results name >>
            do g <- cfg_of name;
            modify (fun w : World WPA =>
                      mk_World (registry w) (old_analyses w) (cfgs w) (side_effecting w)
                        (<[name := get_linear_statements g]> (statements w))))).
Proof.
  unfold keeps. apply (respects_foreach _). intros method.
  apply (respects_bind _); [apply (respects_from_option _)|]. intros info.
  destruct (negb (has_implementation info)); [apply (respects_ret _)|]. cbv zeta.
  apply (respects_bind _); [apply keeps_results_update_cfg|]. intros _.
  apply (respects_bind _); [apply keeps_cfg_of|]. intros g.
  apply (respects_modify _). by intros [].
Qed.

Lemma all_equal_true (current : list WPA) :
  forall old,
    all_equal current old = Some true
    <-> forall i a, current !! i = Some a -> exists o, old !! i = Some o /\ equals a o = true.
Proof.
  induction current as [|a current IH]; intros old; cbn [all_equal].
  - split; [|reflexivity]. intros _ i a. by rewrite lookup_nil.
  - destruct old as [|o old].
    + split; [discriminate|]. intros Hall. by destruct (Hall 0 a eq_refl) as (? & ? & _).
    + destruct (equals a o) eqn:Heq.
      * rewrite IH. split.
        -- intros Hall [|i] x; [intros [= <-]; eauto|apply (Hall i)].
        -- intros Hall i x. apply (Hall (S i)).
      * split; [discriminate|]. intros Hall.
        destruct (Hall 0 a eq_refl) as (? & [= <-] & Heq'). congruence.
Qed.

Lemma all_equal_None (current : list WPA) :
  forall old,
    all_equal current old = None
    <-> length old < length current
        /\ forall i o, old !! i = Some o ->
             exists a, current !! i = Some a /\ equals a o = true.
Proof.
  induction current as [|a current IH]; intros old; cbn [all_equal length].
  - split; [discriminate|]. intros [Hlt _]. lia.
  - destruct old as [|o old]; cbn [length].
    + split; [|reflexivity]. intros _. split; [lia|]. intros i o. by rewrite lookup_nil.
    + destruct (equals a o) eqn:Heq.
      * rewrite IH. split.
        -- intros [Hlt Hall]. split; [lia|].
           intros [|i] x; [intros [= <-]; eauto|apply (Hall i)].
        -- intros [Hlt Hall]. split; [lia|]. intros i x. apply (Hall (S i)).
      * split; [discriminate|]. intros [_ Hall].
        destruct (Hall 0 o eq_refl) as (? & [= <-] & Heq'). congruence.
Qed.

Lemma analyses_have_converged_inv (w : World WPA) b w' :
  analyses_have_converged w = Done b w' ->
  w' = w
  /\ (b = true ->
      old_analyses w <> [] /\ all_equal (analyses (registry w)) (old_analyses w) = Some true).
Proof.
  unfold analyses_have_converged, bind, get.
  destruct (old_analyses w) as [|o old]; cbn.
  - intros [= <- <-]. split; [reflexivity|discriminate].
  - destruct (all_equal _ _) as [c|]; [|discriminate].
    intros [= <- <-]. split; [reflexivity|]. by intros ->.
Qed.

Lemma whole_program_passes_converged fuel n :
  forall k (w : World WPA) passes w',
    k + n = 10 ->
    whole_program_passes fuel n k w = Done passes w' ->
    (n = 0 /\ passes = k)
    \/ (k < passes <= 10
        /\ old_analyses w' <> []
        /\ all_equal (analyses (registry w')) (old_analyses w') = Some true).
Proof.
  induction n as [|n IH]; intros k w passes w' Hkn Hp.
  - left. by injection Hp as <- _.
  - right. rewrite whole_program_passes_S in Hp.
    apply bind_Done in Hp as (? & w1 & _ & Hp).
    apply bind_Done in Hp as (converged & w2 & Hc & Hp).
    apply analyses_have_converged_inv in Hc as [-> Hc].
    destruct converged.
    + injection Hp as <- <-. destruct (Hc eq_refl) as [Hold Heq].
      split; [lia|]. done.
    + apply bind_Done in Hp as (? & w3 & Ht & Hp).
      destruct (Nat.eqb k 9) eqn:Hk; [discriminate|]. injection Ht as <-.
      apply Nat.eqb_neq in Hk.
      apply IH in Hp; [|lia].
      destruct Hp as [[-> ->]|(Hlt & Hold & Heq)]; [lia|].
      split; [lia|]. done.
Qed.

(** X12.  A run that completes has made between one and ten whole-program
    passes and ends converged: the snapshot of the previous pass is not
    empty and every analysis equals the snapshot at its position.  (When the
    tenth pass has not converged the run stops at an unimplemented case; the
    loop never runs out normally.) *)
Theorem run_ends_converged (fuel : nat) (w : World WPA) (passes : nat) (w' : World WPA) :
  run fuel w = Done passes w' ->
  1 <= passes <= 10
  /\ old_analyses w' <> []
  /\ forall i a,
       analyses (registry w') !! i = Some a ->
       exists o, old_analyses w' !! i = Some o /\ equals a o = true.
Proof.
  unfold run. intros Hrun.
  apply bind_Done in Hrun as (n & w1 & Hloop & Hrun).
  apply bind_Done in Hrun as (cg & w2 & Hcg & Hrun).
  apply bind_Done in Hrun as ([] & w3 & Hback & Hrun).
  injection Hrun as <- <-.
  pose proof (keeps_lift_the results callgraph w1) as H2. rewrite Hcg in H2.
  pose proof (keeps_results_write_back cg w2) as H3.
  cbv beta zeta in H3, Hback. rewrite Hback in H3.
  cbn [final_state] in H2, H3. injection H2 as Hr2 Ho2. injection H3 as Hr3 Ho3.
  apply whole_program_passes_converged in Hloop; [|reflexivity].
  destruct Hloop as [[? _]|(Hlt & Hold & Heq)]; [discriminate|].
  rewrite Hr3, Ho3, Hr2, Ho2. split; [lia|]. split; [exact Hold|].
  by apply all_equal_true.
Qed.

(** X14.  The convergence test changes nothing.  It reports convergence
    exactly when there is a snapshot and every analysis equals the snapshot
    at its own position (the snapshot may be longer); and it fails, reading
    the snapshot out of range, exactly when there are snapshots, fewer than
    analyses, and each of them equals the analysis at its position. *)
Theorem analyses_have_converged_spec (w : World WPA) :
  (forall b w', analyses_have_converged w = Done b w' -> w' = w)
  /\ (analyses_have_converged w = Done true w
      <-> old_analyses w <> []
          /\ forall i a,
               analyses (registry w) !! i = Some a ->
               exists o, old_analyses w !! i = Some o /\ equals a o = true)
  /\ (is_done (analyses_have_converged w) = false
      <-> 0 < length (old_analyses w) < length (analyses (registry w))
          /\ forall i o,
               old_analyses w !! i = Some o ->
               exists a, analyses (registry w) !! i = Some a /\ equals a o = true).
Proof.
  split; [intros b w' Hc; by apply analyses_have_converged_inv in Hc as [-> _]|].
  pose proof (all_equal_true (analyses (registry w)) (old_analyses w)) as HT.
  pose proof (all_equal_None (analyses (registry w)) (old_analyses w)) as HN.
  unfold analyses_have_converged, bind, get.
  destruct (old_analyses w) as [|o old]; cbn [length Nat.eqb].
  - split; (split; [discriminate|]); [by intros [? _]|]. intros [Hlt _]. lia.
  - cbn [length] in HN.
    destruct (all_equal (analyses (registry w)) (o :: old)) as [[]|]; cbn; split; split.
    + intros _. split; [done|by apply HT].
    + done.
    + discriminate.
    + intros [[_ Hlt] Hall]. destruct HN as [_ HN]. by discriminate HN.
    + discriminate.
    + intros [_ Hall]. apply HT in Hall. discriminate.
    + discriminate.
    + intros [[_ Hlt] Hall]. destruct HN as [_ HN]. by discriminate HN.
    + discriminate.
    + intros [_ Hall]. apply HT in Hall. discriminate.
    + intros _. destruct HN as [HN _]. destruct (HN eq_refl) as [Hlt Hall].
      split; [lia|done].
    + done.
Qed.

End Driver_facts.

(** ** One whole-program pass *)

Section Pass_facts.

Context {WPA : Type} `{!Analysis WPA} `{!Platform WPA}.

Lemma whole_program_pass_inv fuel (w : World WPA) :
  let w' := final_state (whole_program_pass fuel w) in
  length (analyses (registry w')) = 6
  /\ old_analyses w' = analyses (registry w)
  /\ grows_by (fun c => never_strong c = true) (registry w) (registry w').
Proof.
  cbv zeta. unfold whole_program_pass.
  rewrite (bind_step _ _ _ _ _ (initialize_spec w)).
  set (w0 := mk_World _ _ _ _ _).
  destruct (framed_invoke_method fuel MAIN None None w0) as ([Hlen Hgrow] & Hold & _).
  assert (Hfin : final_state ((invoke_method fuel MAIN None None >> optimize_methods) w0)
                 = match invoke_method fuel MAIN None None w0 with
                   | Done _ w1 => final_state (optimize_methods w1)
                   | Abort _ w1 => w1
                   end).
  { unfold bind. by destruct (invoke_method fuel MAIN None None w0). }
  rewrite Hfin. clear Hfin.
  destruct (invoke_method fuel MAIN None None w0) as [[] w1|f w1]; cbn [final_state] in *.
  - pose proof (keeps_results_optimize_methods w1) as Hk. injection Hk as Hr Ho.
    rewrite Hr, Ho. auto.
  - auto.
Qed.

(** X15.  Every whole-program pass starts afresh: [initialize] keeps the
    analyses of the pass before only as the snapshot that the convergence
    test compares with, and registers six newly constructed analyses, in the
    order Debug, Aliasing, Callgraph, CCP, Def-use, Type inference, without
    invoking any of them; the analysis of [__MAIN__] that follows keeps
    their number and the snapshot, whether it completes or aborts. *)
Theorem whole_program_pass_starts_afresh (fuel : nat) (w : World WPA) :
  let w0 := final_state (initialize w) in
  let w1 := final_state ((initialize >> invoke_method fuel MAIN None None) w) in
  is_done (initialize w) = true
  /\ analyses (registry w0)
     = [new_Debug_WPA; new_Aliasing; new_Callgraph; new_CCP; new_Def_use;
        new_Type_inference]
  /\ trace (registry w0) = trace (registry w)
  /\ old_analyses w0 = analyses (registry w)
  /\ length (analyses (registry w1)) = 6
  /\ old_analyses w1 = analyses (registry w).
Proof.
  cbv zeta. rewrite (bind_step _ _ _ _ _ (initialize_spec w)), initialize_spec.
  do 4 (split; [reflexivity|]).
  match goal with |- context [invoke_method fuel MAIN None None ?x] =>
    destruct (framed_invoke_method fuel MAIN None None x) as ([Hlen _] & Hold & _) end.
  split; [exact Hlen|exact Hold].
Qed.

(** X16.  On a driver that has just been constructed, or that has made a
    pass before, the convergence test that follows a pass always returns:
    the snapshot is then empty or has an entry for every analysis, so the
    comparison never reads it out of range. *)
Theorem convergence_test_returns (fuel : nat) (w : World WPA) :
  length (analyses (registry w)) = 0 \/ 6 <= length (analyses (registry w)) ->
  is_done (analyses_have_converged (final_state (whole_program_pass fuel w))) = true.
Proof.
  intros Hw. destruct (whole_program_pass_inv fuel w) as (Hlen & Hold & _).
  set (w' := final_state _) in *.
  destruct (is_done (analyses_have_converged w')) eqn:Hd; [reflexivity|].
  unfold analyses_have_converged, bind, get in Hd. rewrite Hold in Hd.
  destruct (analyses (registry w)) as [|a l] eqn:Hw0; [discriminate|].
  cbn [length Nat.eqb] in Hd.
  destruct (all_equal (analyses (registry w')) (a :: l)) eqn:Heq; [discriminate|].
  apply all_equal_None in Heq as [Hlt _]. cbn [length] in *. lia.
Qed.

End Pass_facts.

(** ** The visitors *)

Section Visitor_facts.

Context {WPA : Type} `{!Analysis WPA} `{!Platform WPA}.

Lemma lift_failure {A : Type} (m : Eff (Registry WPA) A) (w : World WPA) :
  failure_of (lift m w) = failure_of (m (registry w)).
Proof. unfold lift. by destruct (m (registry w)). Qed.

(** X17.  The statements and expressions that [Whole_program] does not
    implement stop the analysis: visiting a block whose statement is one of
    them ends in the unimplemented case, whatever the state.  They are the
    statements with no visitor of their own, [global], the two [foreach]
    statements, an array assignment by reference, and an expression
    statement or a variable assignment whose expression has no visitor. *)
Theorem unimplemented_statement_stops
    (invoke_method : Method_invocation -> option Basic_block -> option string
                     -> Eff (World WPA) unit)
    (bb : Basic_block) (st : Statement) (w : World WPA) :
  kind bb = Statement_block st ->
  unimplemented_statement st = true ->
  failure_of (visit_block invoke_method bb w) = Some TODO.
Proof.
  intros Hkind Hst. unfold visit_block. rewrite Hkind.
  destruct st as [lhs rhs by_ref| | |lhs rhs| |e|a i| |a i|v|op v| | | | |p];
    cbn in Hst; try discriminate; cbn [visit_statement]; try reflexivity.
  - subst by_ref. reflexivity.
  - unfold visit_assign_var. by destruct rhs.
  - by destruct e.
  - rewrite lift_failure. unfold bind.
    by rewrite !record_use_spec.
  - rewrite lift_failure. unfold bind.
    by rewrite record_use_spec.
Qed.

(** X18.  A cast completes only when constant propagation knows the operand
    as a literal and the literal can be cast; it then assigns the result of
    the cast to the target of the enclosing assignment.  (Otherwise the
    visitor assigns the type and stops at the unimplemented case.) *)
Theorem visit_cast_needs_literal (bb : Basic_block) (saved_plhs : option Path)
    (cast variable_name : string) (s s' : Registry WPA) :
  visit_cast bb saved_plhs cast variable_name s = Done tt s' ->
  exists c l result plhs,
    analyses s !! ccp = Some c
    /\ get_lit c bb (Index_node_name (VN (ST bb) variable_name)) = Some l
    /\ cast_to cast l = Some result
    /\ saved_plhs = Some plhs
    /\ assign_scalar bb plhs result s = Done tt s'.
Proof.
  unfold visit_cast. cbv zeta. intros Hv.
  apply bind_Done in Hv as (c & s0 & Hc & Hv).
  unfold the in Hc. destruct (analyses s !! ccp) as [c0|] eqn:Hccp; [|discriminate].
  injection Hc as -> <-.
  destruct (get_lit c bb _) as [l|] eqn:Hl.
  - destruct (cast_to cast l) as [result|] eqn:Hcast.
    + destruct saved_plhs as [plhs|]; [|discriminate].
      exists c, l, result, plhs. auto.
    + apply bind_Done in Hv as (? & ? & _ & Hv).
      apply bind_Done in Hv as (? & ? & _ & Hv). discriminate.
  - apply bind_Done in Hv as (? & ? & _ & Hv).
    apply bind_Done in Hv as (? & ? & _ & Hv). discriminate.
Qed.

(** X19.  The receivers of a method invocation: only a call of a named
    function that the oracle knows is resolved, to its one receiver, and
    nothing is changed; a call on an object, a call through a variable and a
    call of an unknown function are unimplemented.  The check of
    [invoke_method] for more than one receiver therefore never fires. *)
Theorem get_possible_receivers_single (mi : Method_invocation) (w : World WPA)
    (receivers : list Method_info) (w' : World WPA) :
  get_possible_receivers mi w = Done receivers w' ->
  w' = w
  /\ target mi = None
  /\ exists name info,
       method_name mi = METHOD_NAME name
       /\ get_method_info name = Some info
       /\ receivers = [info].
Proof.
  unfold get_possible_receivers. intros Hr.
  apply bind_Done in Hr as ([] & w1 & Ht & Hr).
  destruct (target mi); [discriminate|]. injection Ht as <-.
  destruct (method_name mi) as [name|]; [|discriminate].
  destruct (get_method_info name) as [info|] eqn:Hinfo; [|discriminate].
  injection Hr as <- <-. eauto 10.
Qed.

(** X20.  Reading the abstract value of an rvalue changes nothing and never
    reaches the unimplemented case for several index nodes: a literal is its
    own value, and a variable of the block's scope names one index node,
    whose value is the pair of what constant propagation and type inference
    know of it. *)
Theorem get_abstract_value_of_rvalue_reads (bb : Basic_block) (rval : Rvalue)
    (s : Registry WPA) :
  final_state (get_abstract_value_of_rvalue bb rval s) = s
  /\ failure_of (get_abstract_value_of_rvalue bb rval s) <> Some TODO
  /\ forall c t,
       analyses s !! ccp = Some c -> analyses s !! type_inf = Some t ->
       get_abstract_value_of_rvalue bb rval s
       = Done match rval with
              | Rvalue_Literal l => from_literal l
              | Rvalue_VARIABLE_NAME v =>
                  let n := Index_node_name (VN (ST bb) v) in
                  mk_Abstract_value (ccp_get_value c bb n) (type_inf_get_value t bb n)
              end s.
Proof.
  destruct rval as [l|v]; cbn [get_abstract_value_of_rvalue].
  - repeat split; done.
  - rewrite (bind_step _ _ _ _ _ (get_named_indices_P bb (ST bb) v s)). cbn [length Nat.ltb].
    change (Nat.ltb 1 1) with false. cbv iota.
    rewrite (bind_step (ret tt) _ s s tt eq_refl). cbn [head from_option].
    rewrite (bind_step (ret _) _ s s _ eq_refl).
    unfold get_abstract_value, bind, the.
    destruct (analyses s !! ccp) as [c|]; [|repeat split; done].
    destruct (analyses s !! type_inf) as [t|]; [|repeat split; done].
    repeat split; try done. by intros ? ? [= <-] [= <-].
Qed.

(** X21.  [get_named_index] returns a node exactly when the path resolves to
    that one node, and NULL when it resolves to several; it never returns
    for a path that resolves to none. *)
Theorem get_named_index_spec (bb : Basic_block) (path : Path) (record_uses : bool)
    (s : Registry WPA) (o : option Index_node) (s' : Registry WPA) :
  get_named_index bb path record_uses s = Done o s' ->
  exists l,
    get_named_indices bb path record_uses s = Done l s'
    /\ l <> []
    /\ forall n, o = Some n <-> l = [n].
Proof.
  unfold get_named_index. intros Hg.
  apply bind_Done in Hg as (l & s1 & Hl & Hg).
  apply bind_Done in Hg as ([] & s2 & Ha & Hg).
  destruct l as [|n [|n' l]]; [discriminate|..]; injection Ha as <-;
    injection Hg as <- <-; eexists; (split; [exact Hl|]); (split; [done|]);
    intros m; split; congruence.
Qed.

End Visitor_facts.

(** ** Receivers *)

Section Receiver_facts.

Context {WPA : Type} `{!Analysis WPA} `{!Platform WPA}.

Lemma foreach_one {S X : Type} (body : X -> Eff S unit) (x : X) (s : S) :
  foreach [x] body s = body x s.
Proof. cbn [foreach]. unfold bind, ret. by destruct (body x s) as [[] ?|]. Qed.

(** X22.  Invoking a named function that the oracle knows is analysing its
    one receiver with [analyse_method_info], in the context of the call,
    with the actual parameters of the call and its target variable. *)
Theorem invoke_method_single_receiver (fuel : nat) (mi : Method_invocation)
    (name : string) (info : Method_info) (context : option Basic_block)
    (lhs : option string) (w : World WPA) :
  target mi = None ->
  method_name mi = METHOD_NAME name ->
  get_method_info name = Some info ->
  invoke_method (S fuel) mi context lhs w
  = analyse_method_info fuel info context (actual_parameters mi) lhs w.
Proof.
  intros Ht Hm Hinfo. cbn [invoke_method].
  rewrite (bind_step _ _ w w [info]).
  2:{ unfold get_possible_receivers. by rewrite Ht, Hm, Hinfo. }
  cbn [length Nat.ltb]. change (Nat.ltb 1 1) with false. cbv iota.
  rewrite (bind_step (ret tt) _ w w tt eq_refl), foreach_one.
  by destruct info.
Qed.

End Receiver_facts.

(** ** Concrete instances of the further properties *)

Section Resolver_checks.

#[local] Existing Instance Example.mixed_analysis.
#[local] Existing Instance Example.mixed_platform.

(** X6, an instance of [forward_bind_unimplemented]: a call that passes its
    one actual parameter by reference. *)
Lemma forward_bind_unimplemented_witness :
  is_done (forward_bind Example.by_ref_info
             (Some (mk_Basic_block 1 "g" (Statement_block (Example.call "h" []))))
             (mk_Basic_block 0 "h" Entry_block)
             [mk_Actual_parameter true (Rvalue_VARIABLE_NAME "x")]
             Example.fresh_registry) = false.
Proof.
  refine (proj1 (forward_bind_unimplemented _ _ _ _ _) 0
            (mk_Actual_parameter true (Rvalue_VARIABLE_NAME "x")) _ _); reflexivity.
Defined.

(** X8, witness of [get_named_indices_static_base]: the same path. *)
Lemma get_named_indices_static_base_witness :
  let bb := mk_Basic_block 1 "g" (Statement_block (Unset (P "g" "x"))) in
  let r := get_named_indices bb (Indexing (ST_path "x") (P "g" "i")) false
             Example.fresh_registry in
  default [] (value_of r) <> []
  /\ Forall (fun n => storage n = "x") (default [] (value_of r))
  /\ is_must (default [] (value_of r)) (final_state r)
     = Done (Nat.eqb (length (default [] (value_of r))) 1) (final_state r).
Proof.
  intros bb r.
  refine (get_named_indices_static_base bb "x" (P "g" "i") false Example.fresh_registry
            _ (final_state r) _).
  vm_compute. reflexivity.
Defined.

(** X9, witness of [get_all_referenced_names_spec]: the names of [$x] in the
    scope [g]. *)
Lemma get_all_referenced_names_spec_witness :
  let bb := mk_Basic_block 1 "g" (Statement_block (Unset (P "g" "x"))) in
  exists lhss,
    get_named_indices bb (P "g" "x") false Example.fresh_registry
    = Done lhss Example.fresh_registry
    /\ NoDup [mk_Alias_name "g" "x"]
    /\ forall n,
         n ∈ [mk_Alias_name "g" "x"]
         <-> exists lhs, lhs ∈ lhss
               /\ (n = Index_node_name lhs
                   \/ exists a ref, analyses Example.fresh_registry !! aliasing = Some a
                                    /\ ref ∈ get_references a bb lhs DEFINITE
                                    /\ n = Index_node_name ref).
Proof.
  intros bb.
  refine (get_all_referenced_names_spec bb (P "g" "x") DEFINITE false Example.fresh_registry
            [mk_Alias_name "g" "x"] Example.fresh_registry _).
  vm_compute. reflexivity.
Defined.

(** X10, witness of [assign_scalar_named_variable]: [$x = 7] in the scope
    [g], on fresh analyses. *)
Lemma assign_scalar_named_variable_witness :
  let bb := mk_Basic_block 1 "g" (Statement_block (Assign_var "x" (Expr_Literal (INT 7)))) in
  let kills := kill_calls TOP bb (VN "g" "x") in
  let names := referenced_names (apply_all kills TOP) bb DEFINITE [VN "g" "x"] in
  assign_scalar bb (P "g" "x") (INT 7) Example.fresh_registry
  = Done tt
      (after_calls
         (map (fun name =>
                 assign_scalar_call bb name (ABSVAL name) (from_literal (INT 7)) POSSIBLE)
              names)
         (after_calls kills Example.fresh_registry)).
Proof.
  intros bb.
  refine (assign_scalar_named_variable bb "g" "x" (INT 7) Example.fresh_registry TOP _).
  reflexivity.
Defined.

(** X11, witness of [assign_typed_array_or_object]: the type [array]. *)
Lemma assign_typed_array_or_object_witness :
  is_done (assign_typed (mk_Basic_block 1 "g" (Statement_block (Unset (P "g" "x"))))
             (Indexing (ST_path "g") (Index_path "x")) ["array"] Example.fresh_registry)
  = false.
Proof.
  refine (assign_typed_array_or_object _ "g" (Index_path "x") ["array"]
            Example.fresh_registry _).
  reflexivity.
Defined.

(** X17, witness of [unimplemented_statement_stops]: [global $x;]. *)
Lemma unimplemented_statement_stops_witness :
  failure_of (visit_block (invoke_method 20)
                (mk_Basic_block 1 "g" (Statement_block (Global "x")))
                (final_state (initialize new_Whole_program)))
  = Some TODO.
Proof.
  refine (unimplemented_statement_stops _ _ (Global "x") _ _ _); reflexivity.
Defined.

(** X18, witness of [visit_cast_needs_literal]: [$x = (int) $n] once [$n]
    is known to be 1. *)
Lemma visit_cast_needs_literal_witness :
  let bb := mk_Basic_block 1 "g" (Statement_block (Assign_var "x" (Cast "int" "n"))) in
  let s := final_state (assign_scalar bb (P "g" "n") (INT 1) Example.fresh_registry) in
  let s' := final_state (visit_cast bb (Some (P "g" "x")) "int" "n" s) in
  exists c l result plhs,
    analyses s !! ccp = Some c
    /\ get_lit c bb (Index_node_name (VN (ST bb) "n")) = Some l
    /\ cast_to "int" l = Some result
    /\ Some (P "g" "x") = Some plhs
    /\ assign_scalar bb plhs result s = Done tt s'.
Proof.
  intros bb s s'.
  refine (visit_cast_needs_literal bb (Some (P "g" "x")) "int" "n" s s' _).
  vm_compute. reflexivity.
Defined.

(** X21, witness of [get_named_index_spec]: the variable [$x] of the scope
    [g]. *)
Lemma get_named_index_spec_witness :
  let bb := mk_Basic_block 1 "g" (Statement_block (Unset (P "g" "x"))) in
  exists l,
    get_named_indices bb (P "g" "x") false Example.fresh_registry
    = Done l Example.fresh_registry
    /\ l <> []
    /\ forall n, Some (VN "g" "x") = Some n <-> l = [n].
Proof.
  intros bb.
  refine (get_named_index_spec bb (P "g" "x") false Example.fresh_registry
            (Some (VN "g" "x")) Example.fresh_registry _).
  reflexivity.
Defined.

End Resolver_checks.

Section Driver_checks.

#[local] Existing Instance Example.chain_analysis.
#[local] Existing Instance Example.chain_platform.

(** X12, witness of [run_ends_converged]: the run over [chain], which makes
    two passes. *)
Lemma run_ends_converged_witness :
  let w' := final_state Example.chain_run in
  1 <= 2 <= 10
  /\ old_analyses w' <> []
  /\ forall i a,
       analyses (registry w') !! i = Some a ->
       exists o, old_analyses w' !! i = Some o /\ equals a o = true.
Proof.
  intros w'. refine (run_ends_converged 20 new_Whole_program 2 w' _).
  vm_compute. reflexivity.
Defined.

(** X16, witness of [convergence_test_returns]: the first pass over
    [chain], on a driver that has just been constructed. *)
Lemma convergence_test_returns_witness :
  is_done (analyses_have_converged
             (final_state (whole_program_pass 20 new_Whole_program))) = true.
Proof.
  refine (convergence_test_returns 20 new_Whole_program _). left. reflexivity.
Defined.

(** X19, witness of [get_possible_receivers_single]: the invocation of
    [__MAIN__]. *)
Lemma get_possible_receivers_single_witness :
  (new_Whole_program : World Lattice_cell) = new_Whole_program
  /\ target MAIN = None
  /\ exists name info,
       method_name MAIN = METHOD_NAME name
       /\ get_method_info name = Some info
       /\ [Example.straight "__MAIN__" (Some "a")] = [info].
Proof.
  refine (get_possible_receivers_single MAIN new_Whole_program
            [Example.straight "__MAIN__" (Some "a")] new_Whole_program _).
  reflexivity.
Defined.

End Driver_checks.

Section Receiver_checks.

#[local] Existing Instance Example.chain_analysis.
#[local] Existing Instance Example.chain_platform.

(** X22, witness of [invoke_method_single_receiver]: the invocation of
    [__MAIN__] in the program [chain]. *)
Lemma invoke_method_single_receiver_witness :
  invoke_method 20 MAIN None None (final_state (initialize new_Whole_program))
  = analyse_method_info 19 (Example.straight "__MAIN__" (Some "a")) None [] None
      (final_state (initialize new_Whole_program)).
Proof.
  refine (invoke_method_single_receiver 19 MAIN "__MAIN__" _ None None _ _ _ _);
    reflexivity.
Defined.

End Receiver_checks.

(** * Kill certainty (C3) *)

Section Kill_certainty.

Context {WPA : Type} `{!Analysis WPA} `{!Platform WPA}.

#[local] Existing Instance grows_by_refl.
#[local] Existing Instance grows_by_trans.

Lemma respects_fold_eff_elem {S A B : Type} (R : S -> S -> Prop)
    `{!Reflexive R} `{!Transitive R} (body : B -> A -> Eff S B) (l : list A) :
  (forall b a, a ∈ l -> respects R (body b a)) ->
  forall acc, respects R (fold_eff body l acc).
Proof.
  induction l as [|a l IH]; intros Hbody acc; [apply (respects_ret _)|].
  cbn [fold_eff]. apply (respects_bind _); [apply Hbody; left|].
  intros b. apply IH. intros b' a' Ha'. apply Hbody. by right.
Qed.

#[local] Abbreviation no_kill := (fun c : Call => is_kill_value c = false).

(** When the aliasing analysis reports no scalar storage at a block, the
    resolution of a path at that block creates no array, and so invokes no
    [kill_value]: all it does is record uses. *)
Lemma resolution_kills_nothing bb (path : Path) :
  (forall (a : WPA) n,
     Forall (fun pt => String.eqb (st_storage pt) "SCALAR" = false) (get_values a bb n)) ->
  forall record_uses,
    respects (grows_by (WPA := WPA) no_kill) (get_named_indices bb path record_uses).
Proof.
  intros Hns.
  assert (Huse : forall n, respects (grows_by (WPA := WPA) no_kill) (record_use bb n)).
  { intros n. by apply emits_broadcast. }
  induction path as [st|st|plhs IHl prhs IHr]; intros record_uses;
    cbn [get_named_indices]; try apply (respects_fail _).
  apply (respects_bind _).
  { assert (Hbody : forall (resolve : Eff (Registry WPA) (list Index_node)) lhss st_index,
              respects (grows_by (WPA := WPA) no_kill)
                (do a <- the aliasing;
                 fold_eff
                   (fun lhss pointed_to =>
                      if String.eqb (st_storage pointed_to) "SCALAR" then
                        let name := pretty (ID bb) in
                        assign_empty_array_of bb resolve name >>
                        ret (set_insert name lhss)
                      else ret (set_insert (st_storage pointed_to) lhss))
                   (get_values a bb st_index) lhss)).
    { intros resolve lhss st_index.
      apply (respects_bind _); [apply emits_the|]. intros a.
      apply (respects_fold_eff_elem _). intros lhss' pt Hpt.
      pose proof (Hns a st_index) as Hall. rewrite Forall_forall in Hall.
      rewrite (Hall pt Hpt). apply (respects_ret _). }
    destruct plhs as [st|st|p q]; try apply (respects_ret _).
    - apply (respects_bind _); [apply IHl|]. intros st_indices.
      apply (respects_fold_eff _). intros lhss st_index. apply Hbody.
    - apply (respects_bind _); [apply IHl|]. intros st_indices.
      apply (respects_fold_eff _). intros lhss st_index. apply Hbody. }
  intros lhss. apply (respects_bind _).
  { assert (Hbody : forall rhss field_index,
              respects (grows_by (WPA := WPA) no_kill)
                (record_use bb field_index >>
                 do values <- get_string_values bb field_index;
                 ret (fold_left (fun rs value => set_insert value rs) values rhss))).
    { intros rhss field_index. apply (respects_bind _); [apply Huse|]. intros _.
      apply (respects_bind _); [|intros; apply (respects_ret _)].
      unfold get_string_values. apply (respects_bind _); [apply emits_the|]. intros c.
      destruct (ccp_get_value c bb _); try apply (respects_ret _). apply (respects_fail _). }
    destruct prhs as [st|st|p q]; try apply (respects_ret _).
    - apply (respects_bind _); [apply IHr|]. intros field_indices.
      apply (respects_fold_eff _). exact Hbody.
    - apply (respects_bind _); [apply IHr|]. intros field_indices.
      apply (respects_fold_eff _). exact Hbody. }
  intros rhss. apply (respects_bind _); [apply (respects_assert _)|]. intros _.
  apply (respects_fold_eff _). intros result [lhs rhs].
  apply (respects_bind _); [|intros; apply (respects_ret _)].
  destruct record_uses; [apply Huse|apply (respects_ret _)].
Qed.


End Kill_certainty.

Section Scalar_base_checks.

#[local] Existing Instance Example.scalar_analysis.
#[local] Existing Instance Example.scalar_platform.


(** X7, witness of [get_named_indices_distinct]: the path [$d["k"]] of the
    scope [g]; the variable [$d] holds two arrays, of which the aliasing
    analysis reports one twice, and the path resolves to two index nodes. *)
Lemma get_named_indices_distinct_witness :
  let bb := mk_Basic_block 1 "g" (Statement_block (Unset (Indexing (P "g" "d") (Index_path "k")))) in
  let r := get_named_indices bb (Indexing (P "g" "d") (Index_path "k")) false
             Example.fresh_registry in
  r = Done [mk_Index_node "v" "k"; mk_Index_node "w" "k"] Example.fresh_registry
  /\ NoDup [mk_Index_node "v" "k"; mk_Index_node "w" "k"].
Proof.
  intros bb r.
  assert (Hr : r = Done [mk_Index_node "v" "k"; mk_Index_node "w" "k"] Example.fresh_registry)
    by (vm_compute; reflexivity).
  split; [exact Hr|].
  exact (get_named_indices_distinct bb (Indexing (P "g" "d") (Index_path "k")) false
           Example.fresh_registry _ Example.fresh_registry Hr).
Defined.

End Scalar_base_checks.

Section Kill_checks.

#[local] Existing Instance Example.recursive_analysis.
#[local] Existing Instance Example.recursive_platform.


End Kill_checks.

(** * Executable edges (C5) *)

Section Advances.

Context {S : Type} (J : S -> Prop) (R : S -> S -> Prop) `{!Reflexive R} `{!Transitive R}.

Lemma advances_ret {A : Type} (post : A -> Prop) (a : A) : post a -> advances J R post (ret a).
Proof. intros Ha x Hx. cbn. split; [exact Hx|]. split; [reflexivity|]. by intros ? [= <-]. Qed.

Lemma advances_fail {A : Type} (post : A -> Prop) (f : Failure) :
  advances J R post (fail (A := A) f).
Proof. intros x Hx. cbn. split; [exact Hx|]. split; [reflexivity|]. discriminate. Qed.

Lemma advances_bind {A B : Type} (P : A -> Prop) (Q : B -> Prop) (m : Eff S A)
    (k : A -> Eff S B) :
  advances J R P m -> (forall a, P a -> advances J R Q (k a)) -> advances J R Q (bind m k).
Proof.
  intros Hm Hk x Hx. unfold bind. destruct (Hm x Hx) as (Hy & Hxy & Hpost).
  destruct (m x) as [a y|f y]; cbn [final_state value_of] in *.
  - destruct (Hk a (Hpost a eq_refl) y Hy) as (Hz & Hyz & Hq).
    split; [exact Hz|]. split; [by transitivity y|exact Hq].
  - split; [exact Hy|]. split; [exact Hxy|]. discriminate.
Qed.

Lemma advances_weaken {A : Type} (P Q : A -> Prop) (m : Eff S A) :
  (forall a, P a -> Q a) -> advances J R P m -> advances J R Q m.
Proof.
  intros HPQ Hm x Hx. destruct (Hm x Hx) as (Hy & Hxy & Hpost).
  split; [exact Hy|]. split; [exact Hxy|]. intros a Ha. by apply HPQ, Hpost.
Qed.

Lemma advances_from_option {A : Type} (post : A -> Prop) (o : option A) :
  (forall a, o = Some a -> post a) -> advances J R post (from_option o).
Proof. intros Ho. destruct o as [a|]; [apply advances_ret; by apply Ho|apply advances_fail]. Qed.

Lemma advances_foreach {A : Type} (P : A -> Prop) (l : list A) (body : A -> Eff S unit) :
  Forall P l ->
  (forall a, P a -> advances J R (fun _ => True) (body a)) ->
  advances J R (fun _ => True) (foreach l body).
Proof.
  intros Hl Hbody. induction Hl as [|a l Ha Hl IH]; [by apply advances_ret|].
  cbn [foreach]. eapply advances_bind; [by apply Hbody|]. intros _ _. exact IH.
Qed.

(** An action that leaves the state alone. *)
Lemma advances_reads {A : Type} (post : A -> Prop) (m : Eff S A) :
  (forall x, final_state (m x) = x) ->
  (forall x a, J x -> value_of (m x) = Some a -> post a) ->
  advances J R post m.
Proof.
  intros Hm Hpost x Hx. rewrite Hm. split; [exact Hx|]. split; [reflexivity|].
  intros a. by apply Hpost.
Qed.

End Advances.

Section Within.

Context {WPA : Type} `{!Analysis WPA} `{!Platform WPA}.

Variable M : list string.

Lemma listed_spec (m : string) : listed M m = true <-> m ∈ M.
Proof.
  unfold listed. rewrite existsb_exists, list_elem_of_In. split.
  - intros (x & Hx & Heq). apply String.eqb_eq in Heq. by subst.
  - intros Hm. exists m. split; [exact Hm|apply String.eqb_refl].
Qed.

Lemma graph_within_spec (owner : string) (g : CFG) :
  graph_within M owner g = true
  <-> forall bb, bb ∈ all_bbs g -> cfg bb = owner /\ calls_within M bb = true.
Proof.
  unfold graph_within. rewrite forallb_forall. split.
  - intros Hg bb Hbb. apply list_elem_of_In, Hg, andb_true_iff in Hbb as [Ho Hc].
    by apply String.eqb_eq in Ho.
  - intros Hg bb Hbb. apply list_elem_of_In, Hg in Hbb as [-> Hc].
    by rewrite String.eqb_refl.
Qed.

Lemma world_within_spec (w : World WPA) :
  world_within M w = true
  <-> forall m g, listed M m = true -> cfgs w !! m = Some g -> graph_within M m g = true.
Proof.
  unfold world_within. rewrite forallb_forall. split.
  - intros Hw m g Hm Hg. apply listed_spec, list_elem_of_In, Hw in Hm. by rewrite Hg in Hm.
  - intros Hw m Hm. destruct (cfgs w !! m) as [g|] eqn:Hg; [|reflexivity].
    apply (Hw m g); [|exact Hg]. by apply listed_spec, list_elem_of_In.
Qed.

Lemma closed_under_calls_spec :
  closed_under_calls M = true ->
  forall m info,
    listed M m = true -> get_method_info m = Some info ->
    listed M (sig_name (signature info)) = true
    /\ graph_within M (sig_name (signature info)) (method_graph info) = true.
Proof.
  unfold closed_under_calls. rewrite forallb_forall. intros Hc m info Hm Hinfo.
  apply listed_spec, list_elem_of_In, Hc in Hm. rewrite Hinfo in Hm.
  by apply andb_true_iff in Hm.
Qed.

Lemma find_elem_of {A : Type} (p : A -> bool) (l : list A) (a : A) :
  find p l = Some a -> a ∈ l.
Proof. intros Hf. apply find_some in Hf as [Hin _]. by apply list_elem_of_In. Qed.

Lemma edge_positions_owner (p : Edge -> bool) (es : list Edge) (owner : string) :
  forall i, Forall (fun e : Edge_ref => e.1 = owner)
              (map (fun i => (owner, i)) (edge_positions p es i)).
Proof. intros i. apply Forall_forall. intros e He. by apply list_elem_of_fmap in He as (? & -> & _). Qed.

Lemma get_successor_edges_owner (g : CFG) (bb : Basic_block) :
  Forall (fun e : Edge_ref => e.1 = cfg bb) (get_successor_edges g bb).
Proof. apply edge_positions_owner. Qed.

Lemma get_branch_edge_owner (g : CFG) (bb : Basic_block) (d : bool) (e : Edge_ref) :
  get_branch_edge g bb d = Some e -> e.1 = cfg bb.
Proof.
  unfold get_branch_edge. intros He. apply head_Some_elem_of in He.
  by apply list_elem_of_fmap in He as (? & -> & _).
Qed.

Lemma get_entry_edge_owner (owner : string) (g : CFG) (e : Edge_ref) :
  graph_within M owner g = true -> get_entry_edge g = Some e -> e.1 = owner.
Proof.
  intros Hg. unfold get_entry_edge, get_entry_bb.
  destruct (find is_entry (all_bbs g)) as [entry|] eqn:Hentry; [|discriminate].
  intros He. apply head_Some_elem_of in He.
  apply list_elem_of_fmap in He as (? & -> & _). cbn.
  apply find_elem_of in Hentry.
  by destruct (proj1 (graph_within_spec owner g) Hg entry Hentry) as [-> _].
Qed.

(** Setting flags keeps the blocks of every graph. *)
Lemma world_within_alter (w : World WPA) (f : CFG -> CFG) (k : string) :
  (forall g, all_bbs (f g) = all_bbs g) ->
  world_within M w = true ->
  world_within M (set_cfgs (alter f k (cfgs w)) w) = true.
Proof.
  intros Hf Hw. apply world_within_spec. intros m g Hm. cbn.
  rewrite lookup_alter. case_decide as Hk.
  - subst k. destruct (cfgs w !! m) as [g0|] eqn:Hg0; [|discriminate].
    intros [= <-]. unfold graph_within. rewrite Hf.
    by apply (proj1 (world_within_spec w) Hw m g0).
  - by apply (proj1 (world_within_spec w) Hw m g).
Qed.

End Within.

(** The worklist of a function under an invariant [J] of the graphs and a
    preorder [R] on them: [N] names the methods whose edges may be marked,
    and [invoke] is the nested method invocation. *)
Section Worklist_chain.

Context {WPA : Type} `{!Analysis WPA} `{!Platform WPA}.

Variables (M : list string) (J : World WPA -> Prop) (R : World WPA -> World WPA -> Prop)
          (N : string -> Prop).

Context `{!Reflexive R} `{!Transitive R}.

Hypothesis J_registry : forall w r, J w -> J (set_registry r w) /\ R w (set_registry r w).

Hypothesis J_mark :
  forall w (e : Edge_ref),
    N e.1 -> J w -> J (final_state (mark e true w)) /\ R w (final_state (mark e true w)).

Hypothesis J_graph :
  forall w n g, J w -> N n -> cfgs w !! n = Some g -> graph_within M n g = true.

Variable invoke : Method_invocation -> option Basic_block -> option string
                  -> Eff (World WPA) unit.

Hypothesis J_invoke :
  forall mi ctx lhs,
    invokes_within M mi = true -> advances J R (fun _ => True) (invoke mi ctx lhs).

#[local] Abbreviation moves := (advances J R).
#[local] Abbreviation any := (fun _ => True).

Lemma chain_lift {A : Type} (m : Eff (Registry WPA) A) : moves any (lift m).
Proof.
  intros w Hw. unfold lift.
  destruct (m (registry w)) as [a r|f r]; cbn; destruct (J_registry w r Hw); auto.
Qed.

Lemma chain_cfg_of_owned n :
  N n -> moves (fun g => graph_within M n g = true) (cfg_of n).
Proof.
  intros Hn. apply (advances_reads _ _).
  - intros w. unfold cfg_of. by destruct (cfgs w !! n).
  - intros w g Hw. unfold cfg_of. destruct (cfgs w !! n) as [g0|] eqn:Hg; [|discriminate].
    intros [= <-]. by apply (J_graph w n).
Qed.

Lemma chain_cfg_of n : moves any (cfg_of n).
Proof.
  apply (advances_reads _ _); [|done]. intros w. unfold cfg_of. by destruct (cfgs w !! n).
Qed.

Lemma chain_get_target (e : Edge_ref) :
  N e.1 -> moves (fun tgt => cfg tgt = e.1 /\ calls_within M tgt = true) (get_target e).
Proof.
  intros He. apply (advances_reads _ _).
  - intros w. unfold get_target. destruct (cfgs w !! e.1) as [g|]; [|reflexivity].
    destruct (all_edges g !! e.2) as [ed|]; [|reflexivity].
    by destruct (get_bb g (edge_target ed)).
  - intros w tgt Hw. unfold get_target.
    destruct (cfgs w !! e.1) as [g|] eqn:Hg; [|discriminate].
    destruct (all_edges g !! e.2) as [ed|]; [|discriminate].
    destruct (get_bb g (edge_target ed)) as [b|] eqn:Hb; [|discriminate].
    intros [= <-]. apply find_elem_of in Hb.
    by apply (proj1 (graph_within_spec M e.1 g) (J_graph w e.1 g Hw He Hg)).
Qed.

Lemma chain_pull_results bb : moves any (pull_results bb).
Proof.
  unfold pull_results. apply (advances_bind _ _ any); [apply chain_cfg_of|].
  intros g _. apply chain_lift.
Qed.

Lemma chain_get_branch_successors bb v :
  moves (fun l => Forall (fun e : Edge_ref => e.1 = cfg bb) l) (get_branch_successors bb v).
Proof.
  unfold get_branch_successors. cbv zeta.
  apply (advances_bind _ _ any); [apply chain_cfg_of|]. intros g _.
  apply (advances_bind _ _ any); [apply chain_lift|]. intros c _.
  apply (advances_bind _ _ (fun l => Forall (fun e : Edge_ref => e.1 = cfg bb) l)).
  { destruct (negb _); [|by apply (advances_ret _ _)].
    apply (advances_bind _ _ (fun e : Edge_ref => e.1 = cfg bb)).
    - apply (advances_from_option _ _). intros e. apply get_branch_edge_owner.
    - intros e He. apply (advances_ret _ _). by constructor. }
  intros on_false Hf.
  apply (advances_bind _ _ (fun l => Forall (fun e : Edge_ref => e.1 = cfg bb) l)).
  { destruct (negb _); [|by apply (advances_ret _ _)].
    apply (advances_bind _ _ (fun e : Edge_ref => e.1 = cfg bb)).
    - apply (advances_from_option _ _). intros e. apply get_branch_edge_owner.
    - intros e He. apply (advances_ret _ _). by constructor. }
  intros on_true Ht. apply (advances_ret _ _). by apply Forall_app.
Qed.

Lemma chain_successors_to_push bb :
  moves (fun l => Forall (fun e : Edge_ref => e.1 = cfg bb) l) (successors_to_push bb).
Proof.
  unfold successors_to_push.
  destruct (kind bb); try apply chain_get_branch_successors;
    try (by apply (advances_ret _ _)).
  all: apply (advances_bind _ _ any); [apply chain_cfg_of|]; intros g _.
  all: apply (advances_bind _ _ (fun e : Edge_ref => e.1 = cfg bb)).
  all: try (apply (advances_from_option _ _); intros e He;
            apply head_Some_elem_of in He;
            by apply list_elem_of_fmap in He as (? & -> & _)).
  all: intros e He; apply (advances_ret _ _); by constructor.
Qed.

Lemma chain_visit_block bb :
  calls_within M bb = true -> moves any (visit_block invoke bb).
Proof.
  unfold calls_within, invoked_by, visit_block. intros Hcalls.
  destruct (kind bb) as [| |st|v]; try (by apply (advances_ret _ _)); [|apply chain_lift].
  destruct st as [lhs rhs by_ref| | |lhs rhs| |e|a i| |a i|v|op v| | | | |p];
    cbn [visit_statement]; try apply chain_lift; try apply (advances_fail _ _).
  - unfold visit_assign_var.
    destruct rhs; cbn [visit_expr]; try apply chain_lift; try apply (advances_fail _ _);
      try (by apply (advances_ret _ _)).
    by apply J_invoke.
  - destruct e; cbn [visit_expr]; try apply chain_lift; try apply (advances_fail _ _);
      try (by apply (advances_ret _ _)).
    by apply J_invoke.
Qed.

Lemma chain_analyse_block bb :
  calls_within M bb = true -> moves any (analyse_block (visit_block invoke) bb).
Proof.
  intros Hbb. unfold analyse_block.
  apply (advances_bind _ _ any); [apply chain_pull_results|]. intros _ _.
  apply (advances_bind _ _ any); [by apply chain_visit_block|]. intros _ _.
  apply (advances_bind _ _ any); [apply chain_lift|]. intros _ _.
  apply chain_lift.
Qed.

#[local] Abbreviation owned := (fun l : list Edge_ref => Forall (fun e => N e.1) l).

(** An iteration of the worklist, from the marking of the popped edge on;
    [first_pass] is what the iteration has read of the flag before. *)
Lemma chain_after_mark (e : Edge_ref) (wl : list Edge_ref) (first_pass : bool) :
  N e.1 -> owned wl ->
  moves (fun r : bool * list Edge_ref => owned r.2)
    (do tgt <- get_target e;
     do block_changed <- analyse_block (visit_block invoke) tgt;
     let changed := first_pass || block_changed in
     if changed
     then do pushed <- successors_to_push tgt; ret (changed, wl ++ pushed)
     else ret (changed, wl)).
Proof.
  intros He Hwl.
  apply (advances_bind _ _ (fun tgt => cfg tgt = e.1 /\ calls_within M tgt = true));
    [by apply chain_get_target|].
  intros tgt [Htgt Hcalls].
  apply (advances_bind _ _ any); [by apply chain_analyse_block|]. intros changed _.
  cbv zeta. destruct (first_pass || changed); [|by apply (advances_ret _ _)].
  apply (advances_bind _ _ (fun l => Forall (fun e0 : Edge_ref => e0.1 = cfg tgt) l));
    [apply chain_successors_to_push|].
  intros pushed Hpushed. apply (advances_ret _ _). cbn. apply Forall_app. split; [exact Hwl|].
  eapply Forall_impl; [exact Hpushed|]. intros e0 ->. by rewrite Htgt.
Qed.

Lemma chain_worklist_step (e : Edge_ref) (wl : list Edge_ref) :
  N e.1 -> owned wl ->
  moves (fun r : bool * list Edge_ref => owned r.2)
    (worklist_step (visit_block invoke) e wl).
Proof.
  intros He Hwl. unfold worklist_step.
  apply (advances_bind _ _ any).
  { apply (advances_reads _ _); done. }
  intros w0 _. cbv zeta.
  apply (advances_bind _ _ any).
  { intros w Hw. destruct (J_mark w e He Hw) as [HJ HR]. split; [exact HJ|]. by split. }
  intros _ _. by apply chain_after_mark.
Qed.

(** The state at the end of an iteration is related to the state in which
    the popped edge has just been marked. *)
Lemma chain_step_from_mark (e : Edge_ref) (wl : list Edge_ref) (w : World WPA) :
  N e.1 -> owned wl -> J w ->
  R (final_state (mark e true w)) (final_state (worklist_step (visit_block invoke) e wl w)).
Proof.
  intros He Hwl Hw. destruct (J_mark w e He Hw) as [HJ _].
  unfold worklist_step.
  rewrite (bind_step get _ w w w eq_refl).
  rewrite (bind_step (mark e true) _ w (final_state (mark e true w)) tt eq_refl).
  by destruct (chain_after_mark e wl (negb (executable w e)) He Hwl _ HJ) as (_ & HR & _).
Qed.

Lemma chain_worklist_loop fuel :
  forall wl, owned wl -> moves any (worklist_loop (visit_block invoke) fuel wl).
Proof.
  induction fuel as [|fuel IH]; intros [|e wl] Hwl; cbn [worklist_loop];
    try (by apply (advances_ret _ _)); try apply (advances_fail _ _).
  apply Forall_cons in Hwl as [He Hwl].
  apply (advances_bind _ _ (fun r : bool * list Edge_ref => owned r.2));
    [by apply chain_worklist_step|].
  intros [changed wl'] Hwl'. by apply IH.
Qed.

Lemma chain_worklist_steps k :
  forall wl, owned wl -> moves owned (worklist_steps (visit_block invoke) k wl).
Proof.
  induction k as [|k IH]; intros [|e wl] Hwl; cbn [worklist_steps];
    try (by apply (advances_ret _ _)).
  apply Forall_cons in Hwl as [He Hwl].
  apply (advances_bind _ _ (fun r : bool * list Edge_ref => owned r.2));
    [by apply chain_worklist_step|].
  intros [changed wl'] Hwl'. by apply IH.
Qed.

End Worklist_chain.

(** What a nested invocation of the methods of [M] leaves alone: the graph
    of a method [name] that is not among them. *)
Section Callees.

Context {WPA : Type} `{!Analysis WPA} `{!Platform WPA}.

Variables (M : list string) (name : string).

Hypothesis Hname : listed M name = false.
Hypothesis Hclosed : closed_under_calls M = true.

#[local] Abbreviation inside := (fun w : World WPA => world_within M w = true).
#[local] Abbreviation same_graph :=
  (fun w w' : World WPA => cfgs w' !! name = cfgs w !! name).
#[local] Abbreviation listed_in := (fun n : string => listed M n = true).
#[local] Abbreviation any := (fun _ => True).

#[local] Instance same_graph_refl : Reflexive same_graph.
Proof. by intros w. Qed.

#[local] Instance same_graph_trans : Transitive same_graph.
Proof. intros w1 w2 w3 H12 H23. congruence. Qed.

Lemma not_name (n : string) : listed M n = true -> n <> name.
Proof. intros Hn ->. congruence. Qed.

Lemma inner_registry (w : World WPA) r :
  inside w -> inside (set_registry r w) /\ same_graph w (set_registry r w).
Proof. intros Hw. by destruct w. Qed.

Lemma inner_alter (w : World WPA) (f : CFG -> CFG) (k : string) :
  (forall g, all_bbs (f g) = all_bbs g) -> listed M k = true -> inside w ->
  inside (set_cfgs (alter f k (cfgs w)) w)
  /\ same_graph w (set_cfgs (alter f k (cfgs w)) w).
Proof.
  intros Hf Hk Hw. split; [by apply world_within_alter|].
  cbn. apply lookup_alter_ne. by apply not_name.
Qed.

Lemma inner_mark (w : World WPA) (e : Edge_ref) :
  listed M e.1 = true -> inside w ->
  inside (final_state (mark e true w)) /\ same_graph w (final_state (mark e true w)).
Proof. intros He Hw. by apply (inner_alter w _ e.1). Qed.

Lemma inner_graph (w : World WPA) n g :
  inside w -> listed M n = true -> cfgs w !! n = Some g -> graph_within M n g = true.
Proof. intros Hw Hn Hg. by apply (proj1 (world_within_spec M w) Hw n g). Qed.

Lemma inner_reset_edges n :
  listed M n = true -> advances inside same_graph any (reset_edges n).
Proof.
  intros Hn w Hw. destruct (inner_alter w (fun g => mk_CFG (all_bbs g)
    (map (set_is_executable false) (all_edges g))) n (fun _ => eq_refl) Hn Hw) as [HJ HR].
  split; [exact HJ|]. by split.
Qed.

Lemma inner_ensure_cfg n g :
  listed M n = true -> graph_within M n g = true ->
  advances inside same_graph any (ensure_cfg n g).
Proof.
  intros Hn Hg w Hw. cbn. destruct (cfgs w !! n) as [g0|] eqn:Hg0; [by repeat split|].
  split; [|split; [|done]].
  - apply world_within_spec. intros m g1 Hm. cbn. rewrite lookup_insert.
    case_decide as Hmn; [subst; by intros [= <-]|].
    by apply (proj1 (world_within_spec M w) Hw m g1).
  - cbn. apply lookup_insert_ne. by apply not_name.
Qed.

Lemma inner_get_possible_receivers mi :
  invokes_within M mi = true ->
  advances inside same_graph
    (fun receivers =>
       Forall (fun info => listed M (sig_name (signature info)) = true
                           /\ graph_within M (sig_name (signature info)) (method_graph info)
                              = true)
              receivers)
    (get_possible_receivers mi).
Proof.
  unfold invokes_within, get_possible_receivers. intros Hmi.
  apply (advances_bind _ _ any).
  { destruct (target mi); [apply (advances_fail _ _)|by apply (advances_ret _ _)]. }
  intros _ _. destruct (method_name mi) as [m|]; [|apply (advances_fail _ _)].
  destruct (get_method_info m) as [info|] eqn:Hinfo; [|apply (advances_fail _ _)].
  apply (advances_ret _ _). constructor; [|constructor].
  by apply (closed_under_calls_spec M Hclosed m).
Qed.

Section Nested.

Variable invoke : Method_invocation -> option Basic_block -> option string
                  -> Eff (World WPA) unit.

Hypothesis inner_invoke :
  forall mi ctx lhs,
    invokes_within M mi = true -> advances inside same_graph any (invoke mi ctx lhs).

Lemma inner_analyse_function fuel info caller actuals lhs :
  listed M (sig_name (signature info)) = true ->
  advances inside same_graph any
    (analyse_function (visit_block invoke) fuel info caller actuals lhs).
Proof.
  intros Hinfo. unfold analyse_function. cbv zeta.
  set (n := sig_name (signature info)) in *.
  apply (advances_bind _ _ (fun g => graph_within M n g = true)).
  { apply (chain_cfg_of_owned M inside same_graph listed_in inner_graph n Hinfo). }
  intros g Hg.
  apply (advances_bind _ _ (fun e : Edge_ref => e.1 = n)).
  { apply (advances_from_option _ _). intros e. by apply (get_entry_edge_owner M). }
  intros entry_edge Hentry.
  apply (advances_bind _ _ any); [by apply inner_reset_edges|]. intros _ _.
  apply (advances_bind _ _ any); [by apply (advances_from_option _ _)|]. intros entry _.
  apply (advances_bind _ _ any); [apply (chain_lift inside same_graph inner_registry)|].
  intros _ _.
  apply (advances_bind _ _ any).
  { apply (chain_worklist_loop M inside same_graph listed_in inner_registry inner_mark
             inner_graph invoke inner_invoke).
    constructor; [by rewrite Hentry|constructor]. }
  intros _ _.
  apply (advances_bind _ _ any); [by apply (advances_from_option _ _)|]. intros exit _.
  apply (chain_lift inside same_graph inner_registry).
Qed.

End Nested.

Lemma inner_analyse_summary info g fake caller actuals lhs :
  listed M (sig_name (signature info)) = true ->
  graph_within M (sig_name (signature info)) g = true ->
  advances inside same_graph any (analyse_summary info g fake caller actuals lhs).
Proof.
  intros Hinfo Hg. unfold analyse_summary.
  pose proof (fun A => chain_lift inside same_graph inner_registry (A := A)) as Hlift.
  pose proof (chain_pull_results inside same_graph inner_registry) as Hpull.
  apply (advances_bind _ _ any); [by apply inner_ensure_cfg|]. intros _ _.
  apply (advances_bind _ _ any); [apply (chain_cfg_of inside same_graph)|]. intros g0 _.
  apply (advances_bind _ _ any); [by apply (advances_from_option _ _)|]. intros entry _.
  apply (advances_bind _ _ any); [apply Hlift|]. intros _ _.
  apply (advances_bind _ _ any); [apply Hlift|]. intros _ _.
  apply (advances_bind _ _ any); [apply Hpull|]. intros _ _.
  apply (advances_bind _ _ any); [apply Hlift|]. intros _ _.
  apply (advances_bind _ _ any); [apply Hlift|]. intros _ _.
  apply (advances_bind _ _ any); [by apply (advances_from_option _ _)|]. intros exit _.
  apply (advances_bind _ _ any); [apply Hpull|]. intros _ _.
  apply Hlift.
Qed.

(** A nested invocation of a method of [M] leaves the graph of [name] as it
    was, flags included. *)
Lemma inner_invoke_method fuel :
  forall mi ctx lhs,
    invokes_within M mi = true ->
    advances inside same_graph any (invoke_method fuel mi ctx lhs).
Proof.
  induction fuel as [|fuel IH]; intros mi ctx lhs Hmi; cbn [invoke_method];
    [apply (advances_fail _ _)|].
  eapply (advances_bind _ _); [by apply inner_get_possible_receivers|].
  intros receivers Hreceivers.
  apply (advances_bind _ _ any).
  { destruct (Nat.ltb 1 (length receivers));
      [apply (advances_fail _ _)|by apply (advances_ret _ _)]. }
  intros _ _. eapply (advances_foreach _ _); [exact Hreceivers|].
  intros receiver [Hlisted Hgraph]. destruct receiver as [sig method|sig summary_cfg fake].
  - apply (advances_bind _ _ any); [by apply inner_ensure_cfg|]. intros _ _.
    by apply inner_analyse_function.
  - by apply inner_analyse_summary.
Qed.

End Callees.

(** The graph of a function that does not call itself, while its worklist
    runs. *)
Section Own_graph.

Context {WPA : Type} `{!Analysis WPA} `{!Platform WPA}.

Variables (M : list string) (name : string).

Hypothesis Hname : listed M name = false.
Hypothesis Hclosed : closed_under_calls M = true.

#[local] Abbreviation own :=
  (fun w : World WPA =>
     world_within M w = true
     /\ forall g, cfgs w !! name = Some g -> graph_within M name g = true).
#[local] Abbreviation keeps_flags :=
  (fun w w' : World WPA =>
     forall i : nat, executable w (name, i) = true -> executable w' (name, i) = true).
#[local] Abbreviation is_name := (fun n : string => n = name).
#[local] Abbreviation any := (fun _ => True).

#[local] Instance keeps_flags_refl : Reflexive keeps_flags.
Proof. by intros w i. Qed.

#[local] Instance keeps_flags_trans : Transitive keeps_flags.
Proof. intros w1 w2 w3 H12 H23 i Hi. by apply H23, H12. Qed.

Lemma outer_of_inner {A : Type} (post : A -> Prop) (m : Eff (World WPA) A) :
  advances (fun w => world_within M w = true)
    (fun w w' => cfgs w' !! name = cfgs w !! name) post m ->
  advances own keeps_flags post m.
Proof.
  intros Hm w [Hw Hown]. destruct (Hm w Hw) as (HJ & HR & Hpost).
  split; [|split; [|exact Hpost]].
  - split; [exact HJ|]. intros g. rewrite HR. apply Hown.
  - intros i. by rewrite (executable_ext _ w name i HR).
Qed.

Lemma outer_registry (w : World WPA) r :
  own w -> own (set_registry r w) /\ keeps_flags w (set_registry r w).
Proof. intros Hw. by destruct w. Qed.

Lemma outer_mark (w : World WPA) (e : Edge_ref) :
  is_name e.1 -> own w ->
  own (final_state (mark e true w)) /\ keeps_flags w (final_state (mark e true w)).
Proof.
  intros He [Hw Hown]. destruct e as [n pos]. cbn in He. subst n. split; [split|].
  - by apply (world_within_alter M w).
  - intros g. rewrite cfgs_mark, lookup_alter. cbn [fst snd].
    rewrite decide_True by reflexivity.
    destruct (cfgs w !! name) as [g0|]; [|discriminate]. intros [= <-].
    by apply (Hown g0).
  - intros i. apply executable_mark.
Qed.

Lemma outer_graph (w : World WPA) n g :
  own w -> is_name n -> cfgs w !! n = Some g -> graph_within M n g = true.
Proof. intros [_ Hown] ->. apply Hown. Qed.

Lemma outer_invoke fuel mi ctx lhs :
  invokes_within M mi = true ->
  advances own keeps_flags any (invoke_method fuel mi ctx lhs).
Proof. intros Hmi. by apply outer_of_inner, inner_invoke_method. Qed.

(** The worklist of the function, from a state in which its graph and the
    graphs of its callees are in place. *)
Lemma own_worklist_steps fuel k (wl : list Edge_ref) (w : World WPA) :
  own w -> Forall (fun e => e.1 = name) wl ->
  let w' := final_state (worklist_steps (visit_block (invoke_method fuel)) k wl w) in
  own w' /\ keeps_flags w w'
  /\ forall wl', value_of (worklist_steps (visit_block (invoke_method fuel)) k wl w) = Some wl' ->
       Forall (fun e => e.1 = name) wl'.
Proof.
  intros Hw Hwl.
  exact (chain_worklist_steps M own keeps_flags is_name outer_registry outer_mark outer_graph
           (invoke_method fuel) (outer_invoke fuel) k wl Hwl w Hw).
Qed.

Lemma own_worklist_loop fuel fuel' (wl : list Edge_ref) (w : World WPA) :
  own w -> Forall (fun e => e.1 = name) wl ->
  keeps_flags w (final_state (worklist_loop (visit_block (invoke_method fuel)) fuel' wl w)).
Proof.
  intros Hw Hwl.
  by destruct (chain_worklist_loop M own keeps_flags is_name outer_registry outer_mark
                 outer_graph (invoke_method fuel) (outer_invoke fuel) fuel' wl Hwl w Hw)
    as (_ & HR & _).
Qed.

Lemma own_step_from_mark fuel (e : Edge_ref) (wl : list Edge_ref) (w : World WPA) :
  own w -> e.1 = name -> Forall (fun e => e.1 = name) wl ->
  keeps_flags (final_state (mark e true w))
    (final_state (worklist_step (visit_block (invoke_method fuel)) e wl w)).
Proof.
  intros Hw He Hwl.
  exact (chain_step_from_mark M own keeps_flags is_name outer_registry outer_mark outer_graph
           (invoke_method fuel) (outer_invoke fuel) e wl w He Hwl Hw).
Qed.

End Own_graph.

Section Worklist_facts.

Context {WPA : Type} `{!Analysis WPA} `{!Platform WPA}.

Variable visit : Basic_block -> Eff (World WPA) unit.

Lemma worklist_steps_nil k (w : World WPA) : worklist_steps visit k [] w = Done [] w.
Proof. by destruct k. Qed.

(** [k + j] iterations are [k] iterations followed by [j]. *)
Lemma worklist_steps_add k j :
  forall wl (w : World WPA),
    worklist_steps visit (k + j) wl w
    = match worklist_steps visit k wl w with
      | Done wl' w' => worklist_steps visit j wl' w'
      | Abort f w' => Abort f w'
      end.
Proof.
  induction k as [|k IH]; intros wl w.
  - cbn [Nat.add]. by destruct wl.
  - destruct wl as [|e wl]; [by rewrite !worklist_steps_nil|].
    cbn [Nat.add worklist_steps]. unfold bind.
    destruct (worklist_step visit e wl w) as [[changed wl'] w'|]; [apply IH|reflexivity].
Qed.

(** The loop makes its first [k] iterations, and goes on with the fuel that
    is left. *)
Lemma worklist_loop_steps k :
  forall fuel wl (w : World WPA),
    k <= fuel ->
    final_state (worklist_loop visit fuel wl w)
    = match worklist_steps visit k wl w with
      | Done wl' w' => final_state (worklist_loop visit (fuel - k) wl' w')
      | Abort _ w' => w'
      end.
Proof.
  induction k as [|k IH]; intros fuel wl w Hk.
  - rewrite Nat.sub_0_r. destruct wl; reflexivity.
  - destruct wl as [|e wl].
    { rewrite worklist_steps_nil. generalize (fuel - S k). intros n. by destruct fuel, n. }
    destruct fuel as [|fuel]; [lia|]. cbn [worklist_loop worklist_steps Nat.sub]. unfold bind.
    destruct (worklist_step visit e wl w) as [[changed wl'] w'|]; [|reflexivity].
    apply IH. lia.
Qed.

(** An edge that has a target once it is marked is executable. *)
Lemma executable_marked (e : Edge_ref) (w : World WPA) :
  is_done (get_target e (final_state (mark e true w))) = true ->
  executable (final_state (mark e true w)) e = true.
Proof.
  unfold get_target, executable, lookup_edge. rewrite cfgs_mark, lookup_alter.
  destruct e as [n i]. cbn [fst snd]. rewrite decide_True by reflexivity.
  destruct (cfgs w !! n) as [g|]; [|discriminate]. cbn [fmap option_fmap option_map all_edges].
  rewrite list_lookup_alter_eq. by destruct (all_edges g !! i).
Qed.

Lemma worklist_step_target (e : Edge_ref) (wl : list Edge_ref) (w : World WPA) :
  is_done (worklist_step visit e wl w) = true ->
  is_done (get_target e (final_state (mark e true w))) = true.
Proof.
  unfold worklist_step.
  rewrite (bind_step get _ w w w eq_refl).
  rewrite (bind_step (mark e true) _ w (final_state (mark e true w)) tt eq_refl).
  unfold bind at 1. by destruct (get_target e _).
Qed.

End Worklist_facts.

Section Executable_edges.

Context {WPA : Type} `{!Analysis WPA} `{!Platform WPA}.

Lemma cfgs_lift {A : Type} (m : Eff (Registry WPA) A) (w : World WPA) :
  cfgs (final_state (lift m w)) = cfgs w.
Proof. unfold lift. by destruct (m (registry w)), w. Qed.

(** C5 (as amended).  Take the analysis of a function that does not call
    itself, directly or through other functions: [M] lists the methods that
    its body and theirs call, and the function is not among them.  The
    analysis first resets every edge of the function's graph to
    non-executable, binds the parameters, and then runs the worklist from
    the entry edge.  From then on no flag of that graph is ever cleared: an
    edge that is executable after [k] iterations of the worklist is
    executable after any later iteration and when the analysis of the
    function ends, whatever the nested analyses of the callees do; every
    edge on the worklist belongs to the function, and the iteration that
    pops an edge leaves it executable.  (The graph of a function is shared
    by all the analyses of that function, so the same does not hold of a
    function that is re-entered while it is analysed.) *)
Theorem executable_edges_persist (fuel : nat) (M : list string) (info : Method_info)
    (caller : option Basic_block) (actuals : list Actual_parameter) (lhs : option string)
    (w : World WPA) (g : CFG) (entry_edge : Edge_ref) (entry : Basic_block) :
  let name := sig_name (signature info) in
  let visit := visit_block (invoke_method fuel) in
  let bound := lift (forward_bind info caller entry actuals) (final_state (reset_edges name w)) in
  let start := final_state bound in
  let after := fun k => final_state (worklist_steps visit k [entry_edge] start) in
  let rest :=
    worklist_loop visit fuel [entry_edge] >>
    do exit <- from_option (get_exit_bb g);
    lift (backward_bind info caller exit lhs) in
  listed M name = false ->
  closed_under_calls M = true ->
  world_within M w = true ->
  cfgs w !! name = Some g ->
  graph_within M name g = true ->
  get_entry_edge g = Some entry_edge ->
  get_entry_bb g = Some entry ->
  (forall i : nat, executable start (name, i) = false)
  /\ (is_done bound = true ->
      analyse_function visit fuel info caller actuals lhs w = rest start)
  /\ (forall k j i : nat,
        executable (after k) (name, i) = true ->
        executable (after (k + j)) (name, i) = true)
  /\ (forall k i : nat,
        k <= fuel ->
        executable (after k) (name, i) = true ->
        executable (final_state (rest start)) (name, i) = true)
  /\ (forall k (e : Edge_ref) (wl : list Edge_ref) (w_k : World WPA),
        worklist_steps visit k [entry_edge] start = Done (e :: wl) w_k ->
        e.1 = name
        /\ (is_done (worklist_step visit e wl w_k) = true ->
            executable (final_state (worklist_step visit e wl w_k)) e = true)).
Proof.
  intros name visit bound start after rest Hname Hclosed Hw Hg Hgraph Hedge Hentry.
  set (w0 := final_state (reset_edges name w)) in *.
  assert (Hcfgs : cfgs start = cfgs w0) by apply cfgs_lift.
  assert (Hw0 : world_within M w0 = true
                /\ forall g0, cfgs w0 !! name = Some g0 -> graph_within M name g0 = true).
  { split; [by apply (world_within_alter M w)|].
    intros g0. subst w0. destruct w as [r o cs se st]. cbn in *.
    rewrite lookup_alter, decide_True, Hg by reflexivity. by intros [= <-]. }
  assert (Hstart : world_within M start = true
                   /\ forall g0, cfgs start !! name = Some g0 -> graph_within M name g0 = true).
  { destruct Hw0 as [H1 H2]. split; [|by rewrite Hcfgs].
    unfold world_within in *. by rewrite Hcfgs. }
  assert (Howned : Forall (fun e : Edge_ref => e.1 = name) [entry_edge]).
  { constructor; [|constructor]. by apply (get_entry_edge_owner M name g). }
  split; [|split; [|split; [|split]]].
  - intros i. rewrite (executable_ext start w0 name i) by by rewrite Hcfgs.
    apply executable_reset_edges.
  - intros Hbound. unfold analyse_function. cbv zeta. fold name.
    rewrite (bind_step _ _ _ _ _ (cfg_of_Some _ _ _ Hg)), Hedge. cbn [from_option].
    rewrite (bind_step (ret entry_edge) _ w w entry_edge eq_refl).
    rewrite (bind_step (reset_edges name) _ w w0 tt eq_refl), Hentry. cbn [from_option].
    rewrite (bind_step (ret entry) _ w0 w0 entry eq_refl).
    assert (Hb : bound = Done tt start).
    { unfold start. destruct bound as [[] w1|]; [reflexivity|discriminate]. }
    by rewrite (bind_step _ _ _ _ _ Hb).
  - intros k j i. unfold after. rewrite worklist_steps_add.
    destruct (own_worklist_steps M name Hname Hclosed fuel k [entry_edge] start Hstart Howned)
      as (Hown & _ & Hwl).
    fold visit in Hown, Hwl |- *.
    destruct (worklist_steps visit k [entry_edge] start) as [wl' w'|f w'];
      cbn [final_state value_of] in *; [|done].
    destruct (own_worklist_steps M name Hname Hclosed fuel j wl' w' Hown (Hwl _ eq_refl))
      as (_ & Hkeep & _).
    apply Hkeep.
  - intros k i Hk. unfold after.
    assert (Htail : cfgs (final_state (rest start))
                    = cfgs (final_state (worklist_loop visit fuel [entry_edge] start))).
    { unfold rest, bind at 1.
      destruct (worklist_loop visit fuel [entry_edge] start) as [[] w1|]; [|reflexivity].
      cbn [final_state]. destruct (get_exit_bb g); [|reflexivity].
      cbn [from_option]. rewrite (bind_step (ret _) _ w1 w1 _ eq_refl). apply cfgs_lift. }
    rewrite (executable_ext (final_state (rest start))
               (final_state (worklist_loop visit fuel [entry_edge] start)) name i)
      by by rewrite Htail.
    rewrite (worklist_loop_steps visit k fuel [entry_edge] start Hk).
    destruct (own_worklist_steps M name Hname Hclosed fuel k [entry_edge] start Hstart Howned)
      as (Hown & _ & Hwl).
    fold visit in Hown, Hwl |- *.
    destruct (worklist_steps visit k [entry_edge] start) as [wl' w'|f w'];
      cbn [final_state value_of] in *; [|done].
    apply (own_worklist_loop M name Hname Hclosed fuel (fuel - k) wl' w' Hown
             (Hwl _ eq_refl)).
  - intros k e wl w_k Hsteps.
    destruct (own_worklist_steps M name Hname Hclosed fuel k [entry_edge] start Hstart Howned)
      as (Hown & _ & Hwl).
    fold visit in Hown, Hwl. rewrite Hsteps in Hown, Hwl. cbn [final_state value_of] in *.
    specialize (Hwl _ eq_refl). apply Forall_cons in Hwl as [He Hwl].
    split; [exact He|]. intros Hdone.
    pose proof (own_step_from_mark M name Hname Hclosed fuel e wl w_k Hown He Hwl) as Hkeep.
    fold visit in Hkeep. destruct e as [n i]. cbn in He. subst n.
    apply Hkeep. by apply executable_marked, (worklist_step_target visit _ wl).
Qed.

End Executable_edges.

Section Callee_checks.

#[local] Existing Instance Example.chain_analysis.
#[local] Existing Instance Example.chain_platform.

(** C5, witness of [executable_edges_persist]: the analysis of [b] in the
    program [chain]; [b] calls [c], which calls nothing.  The entry edge of
    [b], marked by the first iteration of the worklist, is executable when
    the analysis of [b] ends, the nested analysis of [c] notwithstanding. *)
Lemma executable_edges_persist_witness :
  let info := Example.straight "b" (Some "c") in
  let caller := Some (mk_Basic_block 1 "a" (Statement_block (Example.call "b" []))) in
  let start :=
    final_state (lift (forward_bind info caller (mk_Basic_block 0 "b" Entry_block) [])
                   (final_state (reset_edges "b" Example.chain_ready))) in
  executable
    (final_state
       ((worklist_loop Example.chain_visit 20 [("b", 0)] >>
         do exit <- from_option (get_exit_bb Example.b_cfg);
         lift (backward_bind info caller exit None)) start))
    ("b", 0) = true.
Proof.
  intros info caller start.
  refine (proj1 (proj2 (proj2 (proj2
            (executable_edges_persist 20 ["c"] info caller [] None Example.chain_ready
               Example.b_cfg ("b", 0) (mk_Basic_block 0 "b" Entry_block)
               _ _ _ _ _ _ _)))) 1 0 _ _);
    first [lia | vm_compute; reflexivity].
Defined.

End Callee_checks.
